(** * libOpenDRIVE: the generic utilities of [Utils.hpp] and the lookups of [Road.h]

    A shallow embedding of the numeric and geometry kernel
    ([extract_keys], [generate_mesh_from_borders], [get_bbox_for_s_values],
    [golden_section_search], [rdp], [SharedPtrCmp]) and of the road
    containers ([s0_to_lanesection], [RoadSet]), followed by the properties
    proved about them. *)

From Stdlib Require Import String ZArith List Sorted Permutation Bool Lia Floats
  Reals Lra.
From Stdlib Require Uint63.
Import ListNotations.

Local Open Scope Z_scope.

(** ** Outcomes of running a C++ function *)

Inductive exception : Type :=
| runtime_error (what : string)   (* std::runtime_error *)
| out_of_range.                   (* std::out_of_range, thrown by [at] *)

(** A call returns a value, leaves through an exception, runs into undefined
    behaviour, or (in the model only) exhausts its recursion budget. *)
Inductive outcome (A : Type) : Type :=
| Done (a : A)
| Throw (e : exception)
| Undefined
| OutOfFuel.

Arguments Done {A} a.
Arguments Throw {A} e.
Arguments Undefined {A}.
Arguments OutOfFuel {A}.

Definition bind {A B : Type} (m : outcome A) (k : A -> outcome B) : outcome B :=
  match m with
  | Done a => k a
  | Throw e => Throw e
  | Undefined => Undefined
  | OutOfFuel => OutOfFuel
  end.

Declare Scope outcome_scope.
Delimit Scope outcome_scope with outcome.
Notation "x <- m ;; k" := (bind m (fun x => k))
  (at level 61, m at next level, right associativity) : outcome_scope.
Notation "' p <- m ;; k" := (bind m (fun x => let p := x in k))
  (at level 61, p pattern, m at next level, right associativity) : outcome_scope.
Local Open Scope outcome_scope.

(** [mapM f l]: run [f] on the elements of [l] from left to right. *)
Fixpoint mapM {A B : Type} (f : A -> outcome B) (l : list A) : outcome (list B) :=
  match l with
  | [] => Done []
  | a :: l' => b <- f a ;; bs <- mapM f l' ;; Done (b :: bs)
  end.

(** ** Machine integers *)

Module Machine.

(** [size_t] is a 64-bit unsigned integer: arithmetic wraps modulo 2^64. *)
Definition SIZE_MOD : Z := 2 ^ 64.
Definition wrap (z : Z) : Z := z mod SIZE_MOD.

(** [int] is a 32-bit signed integer; a [size_t] converted to it keeps its
    low 32 bits, read in two's complement. *)
Definition INT_MAX : Z := 2 ^ 31 - 1.
Definition to_int (z : Z) : Z := (z + 2 ^ 31) mod 2 ^ 32 - 2 ^ 31.

(** [v.size()] *)
Definition size {A : Type} (v : list A) : Z := Z.of_nat (length v).

(** [v.at(i)]: bounds-checked access. *)
Definition at_ {A : Type} (v : list A) (i : Z) : outcome A :=
  if i <? 0 then Throw out_of_range
  else match nth_error v (Z.to_nat i) with
       | Some a => Done a
       | None => Throw out_of_range
       end.

End Machine.
Import Machine.

(** ** Arithmetic types *)

(** The operations the templates use on their arithmetic type [T]
    ([std::is_arithmetic<T>]). *)
Class Arithmetic (T : Type) : Type := {
  a_zero : T;                 (* T(0), 0.0 *)
  a_add : T -> T -> T;        (* + *)
  a_sub : T -> T -> T;        (* - *)
  a_mul : T -> T -> T;        (* * *)
  a_div : T -> T -> T;        (* / *)
  a_sqrt : T -> T;            (* std::sqrt *)
  a_sqr : T -> T;             (* std::pow(x, 2.0) *)
  a_ltb : T -> T -> bool;     (* < *)
  a_leb : T -> T -> bool      (* <= *)
}.

(** A value compares with itself unless it is a NaN. *)
Definition a_defined {T : Type} `{Arithmetic T} (x : T) : Prop := a_leb x x = true.

(** What the comparisons of an arithmetic type satisfy, NaNs included. *)
Class ArithmeticLaws (T : Type) `{Arithmetic T} : Prop := {
  a_ltb_irrefl : forall x : T, a_ltb x x = false;
  a_ltb_trans : forall x y z : T,
      a_ltb x y = true -> a_ltb y z = true -> a_ltb x z = true;
  a_ltb_negtrans : forall x y z : T,
      a_ltb x y = true -> a_defined z -> a_ltb x z = true \/ a_ltb z y = true;
  a_ltb_defined : forall x y : T,
      a_ltb x y = true -> a_defined x /\ a_defined y;
  a_leb_ltb : forall x y : T,
      a_defined x -> a_defined y -> a_leb x y = negb (a_ltb y x);
  a_leb_defined : forall x y : T,
      a_leb x y = true -> a_defined x /\ a_defined y;
  a_zero_defined : a_defined (a_zero : T)
}.

(** [double]: IEEE 754 binary64. *)
#[export] Instance double_Arithmetic : Arithmetic float := {|
  a_zero := 0%float;
  a_add := PrimFloat.add;
  a_sub := PrimFloat.sub;
  a_mul := PrimFloat.mul;
  a_div := PrimFloat.div;
  a_sqrt := PrimFloat.sqrt;
  a_sqr := fun x => PrimFloat.mul x x;
  a_ltb := PrimFloat.ltb;
  a_leb := PrimFloat.leb
|}.

(** What [golden_section_search] uses of [<cmath>] and of the literals. *)
Class Cmath (T : Type) : Type := {
  a_lit : Z -> T;              (* an integer literal, converted to T *)
  a_half : T;                  (* 0.5 *)
  a_log : T -> option T;       (* std::log; [None] where the result is no
                                  value of T *)
  a_ceil : T -> T;             (* std::ceil *)
  a_to_int : T -> option Z     (* static_cast<int>: undefined when the
                                  truncated value does not fit an int *)
}.

(** Exact arithmetic: the arithmetic type read as the real numbers, every
    operation without rounding. *)
Definition Rltb (x y : R) : bool := if Rlt_dec x y then true else false.
Definition Rleb (x y : R) : bool := if Rle_dec x y then true else false.

#[export] Instance real_Arithmetic : Arithmetic R := {|
  a_zero := 0%R;
  a_add := Rplus;
  a_sub := Rminus;
  a_mul := Rmult;
  a_div := Rdiv;
  a_sqrt := sqrt;
  a_sqr := fun x => (x * x)%R;
  a_ltb := Rltb;
  a_leb := Rleb
|}.

(** Truncation toward zero, for values within the range of [int]. *)
Definition real_to_int (x : R) : option Z :=
  let z := if Rle_dec 0 x then Zfloor x else Zceil x in
  if (- 2 ^ 31 <=? z) && (z <=? INT_MAX) then Some z else None.

(** The logarithm of a positive number; of zero and of a negative number
    [std::log] returns minus infinity and a NaN, which are no real numbers. *)
Definition real_log (x : R) : option R :=
  if Rlt_dec 0 x then Some (ln x) else None.

#[export] Instance real_Cmath : Cmath R := {|
  a_lit := IZR;
  a_half := (/ 2)%R;
  a_log := real_log;
  a_ceil := fun x => IZR (Zceil x);
  a_to_int := real_to_int
|}.

(** [double]: an integer literal, [std::ceil] and [static_cast<int>] read off
    the sign, mantissa and exponent of the binary64 value. *)
Definition double_of_Z (z : Z) : float :=
  if z <? 0 then PrimFloat.opp (PrimFloat.of_uint63 (Uint63.of_Z (- z)))
  else PrimFloat.of_uint63 (Uint63.of_Z z).

Definition double_ceil (x : float) : float :=
  match Prim2SF x with
  | S754_finite s m e =>
      if 0 <=? e then x
      else
        let d := 2 ^ (- e) in
        let q := Z.pos m / d in
        if s then PrimFloat.opp (double_of_Z q)
        else double_of_Z (if Z.pos m mod d =? 0 then q else q + 1)
  | _ => x
  end.

(** Truncation toward zero; undefined for a NaN, an infinity and a value
    outside the range of [int]. *)
Definition double_to_int (x : float) : option Z :=
  match Prim2SF x with
  | S754_zero _ => Some 0
  | S754_finite s m e =>
      let mag := if 0 <=? e then Z.pos m * 2 ^ e else Z.pos m / 2 ^ (- e) in
      let z := if s then - mag else mag in
      if (- 2 ^ 31 <=? z) && (z <=? INT_MAX) then Some z else None
  | _ => None
  end.

(** [<cmath>] on [double]s.  [std::log] belongs to the C library and is a
    parameter here; it returns a [double] for every argument. *)
Definition double_Cmath (log : float -> float) : Cmath float := {|
  a_lit := double_of_Z;
  a_half := 0.5%float;
  a_log := fun x => Some (log x);
  a_ceil := double_ceil;
  a_to_int := double_to_int
|}.

(** A logarithm given by the table of its values at the arguments a run
    passes to it; a NaN elsewhere. *)
Definition table_log (table : list (float * float)) (x : float) : float :=
  match find (fun entry => (fst entry =? x)%float) table with
  | Some entry => snd entry
  | None => nan
  end.

(** ** Meshes *)

Definition Vec3D : Type := float * float * float.
Definition Vec2D : Type := float * float.
Definition Line3D : Type := list Vec3D.

Record Mesh3D : Type := mkMesh3D {
  vertices : list Vec3D;
  indices : list Z      (* std::vector<size_t> *)
}.

(** A default-constructed [Mesh3D]. *)
Definition empty_mesh : Mesh3D := mkMesh3D [] [].

Module Mesh.

Definition border_mismatch : string :=
  "outer and inner border line should have equal number of points".

(** The six indices (two triangles) emitted by one step of the zipper. *)
Definition indicies_patch (l_idx r_idx : Z) : list Z :=
  [l_idx; wrap (l_idx - 1); wrap (r_idx + 1); r_idx; l_idx; wrap (r_idx + 1)].

(** The [for] loop of [generate_mesh_from_borders]; [fuel] bounds the number
    of iterations. *)
Fixpoint stitch (fuel : nat) (num_pts l_idx r_idx : Z) (idcs : list Z)
  : outcome (list Z) :=
  match fuel with
  | O => OutOfFuel
  | S fuel' =>
      if l_idx <? Z.shiftr num_pts 1 then
        stitch fuel' num_pts (wrap (l_idx + 1)) (wrap (r_idx - 1))
               (idcs ++ indicies_patch l_idx r_idx)
      else Done idcs
  end.

(** The body of [generate_mesh_from_borders], run on the local [out_mesh]:
    it yields the outcome of the call together with [out_mesh] as it stands
    when the call ends. *)
Definition generate_mesh_body (inner_border outer_border : Line3D)
    (out_mesh : Mesh3D) : outcome Mesh3D * Mesh3D :=
  if negb (size inner_border =? size outer_border) then
    (Throw (runtime_error border_mismatch), out_mesh)
  else
    let out_mesh := mkMesh3D outer_border (indices out_mesh) in
    let out_mesh := mkMesh3D (vertices out_mesh ++ rev inner_border)
                             (indices out_mesh) in
    let num_pts := size (vertices out_mesh) in
    match stitch (S (Z.to_nat num_pts)) num_pts 1 (wrap (num_pts - 2))
                 (indices out_mesh) with
    | Done idcs =>
        let out_mesh := mkMesh3D (vertices out_mesh) idcs in
        (Done out_mesh, out_mesh)
    | Throw e => (Throw e, out_mesh)
    | Undefined => (Undefined, out_mesh)
    | OutOfFuel => (OutOfFuel, out_mesh)
    end.

Definition generate_mesh_from_borders (inner_border outer_border : Line3D)
  : outcome Mesh3D :=
  fst (generate_mesh_body inner_border outer_border empty_mesh).

(** The indices the zipper emits for left positions [l, l+1, ..., l+n-1] of
    a buffer of [num_pts] vertices, written without wrap-around. *)
Fixpoint zipper (n : nat) (num_pts l : Z) : list Z :=
  match n with
  | O => []
  | S n' =>
      [l; l - 1; num_pts - l; num_pts - 1 - l; l; num_pts - l]
        ++ zipper n' num_pts (l + 1)
  end.

End Mesh.

(** Four points of an outer border and the matching inner border. *)
Definition sample_outer : Line3D :=
  [(0, 1, 0); (1, 1, 0); (2, 1, 0); (3, 1, 0)]%float.
Definition sample_inner : Line3D :=
  [(0, 0, 0); (1, 0, 0); (2, 0, 0); (3, 0, 0)]%float.

(** ** Shared pointers and ordered sets *)

(** A [std::shared_ptr<C>] that owns an object: the address of the object
    (pointer identity) and the object it points to. *)
Record shared_ptr (C : Type) : Type := mk_shared_ptr {
  address : Z;
  pointee : C
}.
Arguments mk_shared_ptr {C} address pointee.
Arguments address {C} s.
Arguments pointee {C} s.

(** [SharedPtrCmp<C, T, member>::operator()]: compares the [member] fields of
    the two pointees with [<] on [T]. *)
Definition SharedPtrCmp {C T : Type} (lt : T -> T -> bool) (member : C -> T)
    (lhs rhs : shared_ptr C) : bool :=
  lt (member (pointee lhs)) (member (pointee rhs)).

Module StdSet.

(** [std::set<K, Compare>] as the sequence its iteration visits.  [insert]
    places the element at its position in the order of [cmp], and leaves the
    set as it is when an equivalent element (neither [cmp x y] nor [cmp y x])
    is already there. *)
Fixpoint insert {K : Type} (cmp : K -> K -> bool) (x : K) (s : list K) : list K :=
  match s with
  | [] => [x]
  | y :: s' =>
      if cmp x y then x :: y :: s'
      else if cmp y x then y :: insert cmp x s'
      else y :: s'
  end.

(** Inserting the elements of [xs] one after the other into [s]. *)
Definition insert_all {K : Type} (cmp : K -> K -> bool) (xs s : list K) : list K :=
  fold_left (fun acc x => insert cmp x acc) xs s.

End StdSet.

(** ** Roads *)

(** A lane section, known here by its start station only. *)
Record LaneSection : Type := mkLaneSection {
  lanesection_s0 : float
}.

(** The fields of [Road] that the lookups read; the splines and the reference
    line belong to other translation units. *)
Record Road : Type := mkRoad {
  road_id : Z;                 (* int id *)
  junction : Z;                (* int junction *)
  road_length : float;         (* double length *)
  s0_to_lanesection : list (float * shared_ptr LaneSection)
                               (* std::map, in ascending key order *)
}.

(** [using RoadSet = std::set<std::shared_ptr<Road>, SharedPtrCmp<Road, int, &Road::id>>] *)
Definition RoadSet : Type := list (shared_ptr Road).
Definition RoadSet_cmp : shared_ptr Road -> shared_ptr Road -> bool :=
  SharedPtrCmp Z.ltb road_id.
Definition RoadSet_insert (r : shared_ptr Road) (s : RoadSet) : RoadSet :=
  StdSet.insert RoadSet_cmp r s.
Definition RoadSet_ids (s : RoadSet) : list Z :=
  map (fun r => road_id (pointee r)) s.

(** A road with the given id, allocated at the given address. *)
Definition road_at (addr id : Z) : shared_ptr Road :=
  mk_shared_ptr addr (mkRoad id (-1) 100%float []).

(** ** Golden-section search *)

Section GoldenSection.
Context {T : Type} `{Arithmetic T} `{Cmath T}.

(** [(std::sqrt(5) - 1) / 2] and [(3 - std::sqrt(5)) / 2] *)
Definition invphi : T := a_div (a_sub (a_sqrt (a_lit 5)) (a_lit 1)) (a_lit 2).
Definition invphi2 : T := a_div (a_sub (a_lit 3) (a_sqrt (a_lit 5))) (a_lit 2).

(** The local variables of the search, and the arguments [f] has been called
    with so far, in the order of the calls. *)
Record search_state : Type := mk_search {
  gs_a : T;
  gs_b : T;
  gs_c : T;
  gs_d : T;
  gs_yc : T;
  gs_yd : T;
  gs_h : T;
  gs_calls : list T
}.

(** The body of the [for] loop. *)
Definition search_step (f : T -> T) (st : search_state) : search_state :=
  if a_ltb (gs_yc st) (gs_yd st) then
    let b := gs_d st in
    let d := gs_c st in
    let yd := gs_yc st in
    let h := a_mul invphi (gs_h st) in
    let c := a_add (gs_a st) (a_mul invphi2 h) in
    mk_search (gs_a st) b c d (f c) yd h (gs_calls st ++ [c])
  else
    let a := gs_c st in
    let c := gs_d st in
    let yc := gs_yd st in
    let h := a_mul invphi (gs_h st) in
    let d := a_add a (a_mul invphi h) in
    mk_search a (gs_b st) c d yc (f d) h (gs_calls st ++ [d]).

(** [for (int k = 0; k < (n - 1); k++)], for the number of iterations it
    makes. *)
Fixpoint search_loop (f : T -> T) (iterations : nat) (st : search_state)
  : search_state :=
  match iterations with
  | O => st
  | S k => search_loop f k (search_step f st)
  end.

(** [golden_section_search(f, a, b, tol)]: the value returned, and the
    arguments [f] was called with. *)
Definition golden_section_search (f : T -> T) (a b tol : T)
  : outcome (T * list T) :=
  let h := a_sub b a in
  if a_leb h tol then Done (a_mul a_half (a_add a b), [])
  else
    match a_log (a_div tol h), a_log invphi with
    | Some log_ratio, Some log_invphi =>
        match a_to_int (a_ceil (a_div log_ratio log_invphi)) with
        | None => Undefined
        | Some n =>
            if n =? - 2 ^ 31 then Undefined      (* n - 1 overflows *)
            else
              let c := a_add a (a_mul invphi2 h) in
              let d := a_add a (a_mul invphi h) in
              let st := search_loop f (Z.to_nat (n - 1))
                                    (mk_search a b c d (f c) (f d) h [c; d]) in
              if a_ltb (gs_yc st) (gs_yd st)
              then Done (a_mul a_half (a_add (gs_a st) (gs_d st)), gs_calls st)
              else Done (a_mul a_half (a_add (gs_c st) (gs_b st)), gs_calls st)
        end
    | _, _ => Undefined       (* the conversion of a value that is no number *)
    end.

End GoldenSection.

(** [f] has a single minimum on [[a, b]], at [xmin]: it decreases strictly
    up to [xmin] and increases strictly from there. *)
Definition unimodal (f : R -> R) (a b xmin : R) : Prop :=
  (a <= xmin <= b)%R /\
  (forall x y : R, (a <= x)%R -> (x < y)%R -> (y <= xmin)%R -> (f y < f x)%R) /\
  (forall x y : R, (xmin <= x)%R -> (x < y)%R -> (y <= b)%R -> (f x < f y)%R).

(** What the search maintains, in exact arithmetic, after [k] iterations on
    the interval [[a0, b0]]: the bracket [[a, a + h]] has shrunk by [invphi]
    in each iteration, the probes are at the golden-section points, their
    values are known, the minimum is inside, and [f] was called [2 + k]
    times. *)
Definition bracket_inv (f : R -> R) (a0 b0 xmin : R) (k : nat)
    (st : search_state (T := R)) : Prop :=
  (gs_h st = invphi ^ k * (b0 - a0) /\
   gs_b st = gs_a st + gs_h st /\
   gs_c st = gs_a st + invphi2 * gs_h st /\
   gs_d st = gs_a st + invphi * gs_h st /\
   gs_yc st = f (gs_c st) /\
   gs_yd st = f (gs_d st) /\
   a0 <= gs_a st /\
   gs_b st <= b0 /\
   gs_a st <= xmin <= gs_b st)%R /\
  length (gs_calls st) = (2 + k)%nat.

(** The quadratic [(x - 3)^2]. *)
Definition sample_quadratic (x : R) : R := ((x - 3) * (x - 3))%R.

(** A run on [double]s: the objective [(x - 3)^2 + 10^6] as binary64
    computes it, the [double] nearest to [1e-6] as tolerance, and the values
    of [std::log] at the two arguments the search on [[0, 10]] with this
    tolerance passes to it, [tol / h] and [invphi]. *)
Definition sample_offset_quadratic (x : float) : float :=
  ((x - 3) * (x - 3) + 1000000)%float.
Definition sample_tol : float := 0x1.0c6f7a0b5ed8dp-20%float.
Definition sample_log : list (float * float) :=
  [(0x1.ad7f29abcaf48p-24, -0x1.01e3b843eaa73p+4);
   (0x1.3c6ef372fe950p-1, -0x1.ecc2caec51608p-2)]%float.

(** ** Polyline simplification *)

Section Polyline.
Context {T : Type} `{Arithmetic T}.

(** [Dim], the template parameter; a [Vec<T, Dim>] is a [std::array<T, Dim>],
    here the list of its [Dim] coordinates. *)
Variable Dim : nat.
Local Abbreviation Vec := (list T).

(** The values of the loop variable of [for (dim = 0; dim < Dim; dim++)]. *)
Definition dims : list nat := seq 0 Dim.

(** [v[dim]] *)
Definition coord (v : list T) (dim : nat) : T := nth dim v a_zero.

(** [for dim: acc += std::pow(v.at(dim), 2.0)], then [std::sqrt]. *)
Definition norm (v : list T) : T :=
  a_sqrt (fold_left (fun acc dim => a_add acc (a_sqr (coord v dim))) dims a_zero).

(** The normalisation of [delta]: the vector after the [if (mag > 0.0)]
    block, together with the divisor of every division that was performed. *)
Definition normalise (delta : list T) : list T * list T :=
  let mag := norm delta in
  if a_ltb a_zero mag
  then (map (fun dim => a_div (coord delta dim) mag) dims, map (fun _ => mag) dims)
  else (delta, []).

(** The distance of [p] from the line through [p_start] and [p_last], as the
    body of the scanning loop computes it from the three points. *)
Definition distance_from (delta pv : list T) : T :=
  let pvdot :=
    fold_left (fun acc dim => a_add acc (a_mul (coord delta dim) (coord pv dim)))
              dims a_zero in
  let ds := map (fun dim => a_mul pvdot (coord delta dim)) dims in
  let a := map (fun dim => a_sub (coord pv dim) (coord ds dim)) dims in
  norm a.

Definition difference (p q : Vec) : list T :=
  map (fun dim => a_sub (coord p dim) (coord q dim)) dims.

Definition perp_dist (p_start p_last p : Vec) : T :=
  distance_from (fst (normalise (difference p_last p_start))) (difference p p_start).

(** [for dim: d[dim] = points.at(i)[dim] - points.at(j)[dim]] *)
Definition difference_at (points : list Vec) (i j : Z) : outcome (list T) :=
  mapM (fun dim =>
          p <- at_ points i ;;
          q <- at_ points j ;;
          Done (a_sub (coord p dim) (coord q dim)))
       dims.

(** One iteration of the scanning loop, up to the computation of [d]; the
    second component lists the divisors used by the normalisation. *)
Definition perpendicular (points : list Vec) (start_idx last_idx idx : Z)
  : outcome (T * list T) :=
  delta <- difference_at points last_idx start_idx ;;
  let '(delta, divisors) := normalise delta in
  pv <- difference_at points idx start_idx ;;
  Done (distance_from delta pv, divisors).

(** The loop that finds the point with the maximum distance. *)
Fixpoint scan (fuel : nat) (points : list Vec) (start_idx step last_idx idx : Z)
    (d_max : T) (d_max_idx : Z) : outcome (T * Z) :=
  match fuel with
  | O => OutOfFuel
  | S fuel' =>
      if idx <? last_idx then
        r <- perpendicular points start_idx last_idx idx ;;
        let d := fst r in
        if a_ltb d_max d
        then scan fuel' points start_idx step last_idx (wrap (idx + step)) d idx
        else scan fuel' points start_idx step last_idx (wrap (idx + step))
                  d_max d_max_idx
      else Done (d_max, d_max_idx)
  end.

(** [(_end_idx > 0) ? static_cast<size_t>(_end_idx) : points.size()] *)
Definition end_idx_of (points : list Vec) (_end_idx : Z) : Z :=
  if 0 <? _end_idx then _end_idx else size points.

(** [static_cast<size_t>((end_idx - start_idx - 1) / step) * step + start_idx] *)
Definition last_idx_of (end_idx start_idx step : Z) : Z :=
  wrap (wrap (wrap (end_idx - start_idx - 1) / step * step) + start_idx).

(** [rdp(points, epsilon, out, start_idx, step, _end_idx)]; the result is the
    content of [out] on return.  [fuel] bounds the depth of the recursion and
    the length of each scan. *)
Fixpoint rdp (fuel : nat) (points : list Vec) (epsilon : T) (out : list Vec)
    (start_idx step _end_idx : Z) : outcome (list Vec) :=
  match fuel with
  | O => OutOfFuel
  | S fuel' =>
      let end_idx := end_idx_of points _end_idx in
      if step =? 0 then Undefined          (* integer division by zero *)
      else
        let last_idx := last_idx_of end_idx start_idx step in
        if wrap (last_idx + 1 - start_idx) <? 2 then Done out
        else
          r <- scan fuel' points start_idx step last_idx
                    (wrap (start_idx + step)) a_zero 0 ;;
          let d_max := fst r in
          let d_max_idx := snd r in
          if a_ltb epsilon d_max then
            rec_results_1 <- rdp fuel' points epsilon [] start_idx step
                                 (to_int (wrap (d_max_idx + 1))) ;;
            rec_results_2 <- rdp fuel' points epsilon [] d_max_idx step
                                 (to_int end_idx) ;;
            match rec_results_1 with
            | [] => Undefined              (* rec_results_1.end() - 1 *)
            | _ :: _ => Done (removelast rec_results_1 ++ rec_results_2)
            end
          else
            p_start <- at_ points start_idx ;;
            p_last <- at_ points last_idx ;;
            Done [p_start; p_last]
  end.

(** The call with the default arguments [start_idx = 0], [step = 1],
    [_end_idx = -1], on a fresh [out]. *)
Definition rdp_all (fuel : nat) (points : list Vec) (epsilon : T)
  : outcome (list Vec) :=
  rdp fuel points epsilon [] 0 1 (-1).

(** *** The range a call selects, and what simplification means on it *)

(** The [n] points at [start_idx], [start_idx + step], ... *)
Definition range_points (points : list Vec) (start_idx step : Z) (n : nat)
  : list Vec :=
  map (fun j => nth (Z.to_nat (start_idx + Z.of_nat j * step)) points [])
      (seq 0 n).

(** The arguments select [n] points of [points]: the range
    [start_idx, end_idx) lies within the vector, the stride is positive, and
    the end index fits the [int] it is passed through. *)
Definition selects (points : list Vec) (start_idx step _end_idx : Z) (n : nat)
  : Prop :=
  0 <= start_idx < end_idx_of points _end_idx /\
  end_idx_of points _end_idx <= size points /\
  size points <= INT_MAX /\
  1 <= step /\
  Z.of_nat n = (end_idx_of points _end_idx - start_idx - 1) / step + 1.

(** The scanning loop on the interior points [mid] of a range, the first of
    which is at position [j] of the range: the maximum so far and the
    position it was found at. *)
Fixpoint scan_points (p_start p_last : Vec) (mid : list Vec) (j : nat)
    (d_max : T) (k : nat) : T * nat :=
  match mid with
  | [] => (d_max, k)
  | p :: mid' =>
      let d := perp_dist p_start p_last p in
      if a_ltb d_max d
      then scan_points p_start p_last mid' (S j) d j
      else scan_points p_start p_last mid' (S j) d_max k
  end.

(** [simplifies epsilon l q]: [q] is the Ramer-Douglas-Peucker
    simplification of the range [l]: either no interior point is farther
    than [epsilon] from the line through the end points, and only these are
    kept, or the range is split at the farthest point [p] and the
    simplifications of the two halves are joined, [p] taken once. *)
Inductive simplifies (epsilon : T) : list Vec -> list Vec -> Prop :=
| simplifies_keep : forall a mid b,
    a_ltb epsilon (fst (scan_points a b mid 1 a_zero 0)) = false ->
    simplifies epsilon (a :: mid ++ [b]) [a; b]
| simplifies_split : forall a before p after b d_max q1 q2,
    scan_points a b (before ++ p :: after) 1 a_zero 0
      = (d_max, S (length before)) ->
    a_ltb epsilon d_max = true ->
    simplifies epsilon (a :: before ++ [p]) q1 ->
    simplifies epsilon (p :: after ++ [b]) q2 ->
    simplifies epsilon (a :: (before ++ p :: after) ++ [b])
               (removelast q1 ++ q2).

End Polyline.

(** The position of a range at which the maximum was found, as the index
    [d_max_idx] holds it: [0] as long as no point was farther than [0]. *)
Definition pos_idx (start step : Z) (k : nat) : Z :=
  if (k =? 0)%nat then 0 else start + Z.of_nat k * step.

(** A polyline in the plane with a peak in the middle, and the two points of
    a segment. *)
Definition sample_polyline : list (list float) :=
  [[0; 0]; [1; 0.5]; [2; 2]; [3; 0.5]; [4; 0]]%float.
Definition sample_segment : list (list float) :=
  [[0; 0]; [1; 1]]%float.

(** A closed loop: its two end points coincide. *)
Definition sample_loop : list (list float) :=
  [[1; 1]; [2; 3]; [1; 1]]%float.

(** Three points whose end points are [2^1024] apart, more than a [double]
    can hold. *)
Definition sample_far : list (list float) :=
  [[-0x1p1023; 0]; [0; 1]; [0x1p1023; 0]]%float.

(** Five points on the line [y = x]; the coordinates are the [double]s
    nearest to 0.1, 0.2, 0.3 and 0.7. *)
Definition sample_collinear : list (list float) :=
  [[0; 0];
   [0x1.999999999999ap-4; 0x1.999999999999ap-4];
   [0x1.999999999999ap-3; 0x1.999999999999ap-3];
   [0x1.3333333333333p-2; 0x1.3333333333333p-2];
   [0x1.6666666666666p-1; 0x1.6666666666666p-1]]%float.

(** A [double] strictly between the two infinities: neither infinite nor NaN. *)
Definition double_finite (x : float) : bool :=
  ((neg_infinity <? x) && (x <? infinity))%float.

(** ** Bounding boxes *)

Record Box2D : Type := mkBox2D {
  box_min : Vec2D;
  box_max : Vec2D;
  box_center : Vec2D;
  box_width : float;
  box_height : float
}.

(** Modelled from the spec: the constructor [Box2D(Vec2D min, Vec2D max)],
    declared in [Utils.hpp] and defined in a translation unit that is not
    among the sources: "[center = (min+max)/2], [width/height] derived". *)
Definition Box2D_of (min max : Vec2D) : Box2D :=
  mkBox2D min max
          (((fst min + fst max) / 2)%float, ((snd min + snd max) / 2)%float)
          (fst max - fst min)%float
          (snd max - snd min)%float.

Module StdAlgorithm.

(** The loop of [std::minmax_element] as libstdc++ writes it, from the third
    element on: [lo] and [hi] are the positions and values of the smallest
    and the largest element so far.  The elements are taken two at a time,
    [x] at position [i] and [y] after it: the two are compared with each
    other, the smaller one with the smallest so far, and the other one with
    the largest so far, which it replaces when it is not below it.  A last
    element without a partner is compared with both. *)
Fixpoint minmax_from {A : Type} (comp : A -> A -> bool) (l : list A) (i : nat)
    (lo hi : nat * A) : nat * nat :=
  match l with
  | [] => (fst lo, fst hi)
  | [x] =>
      if comp x (snd lo) then (i, fst hi)
      else if negb (comp x (snd hi)) then (fst lo, i)
           else (fst lo, fst hi)
  | x :: y :: l' =>
      if comp y x then
        minmax_from comp l' (S (S i))
                    (if comp y (snd lo) then (S i, y) else lo)
                    (if negb (comp x (snd hi)) then (i, x) else hi)
      else
        minmax_from comp l' (S (S i))
                    (if comp x (snd lo) then (i, x) else lo)
                    (if negb (comp y (snd hi)) then (S i, y) else hi)
  end.

(** [std::minmax_element(v.begin(), v.end(), comp)] as a pair of positions.
    On an empty range and on a range of one element both are the first
    position, which for the empty range is the end position; otherwise the
    first two elements are compared and the loop takes over. *)
Definition minmax_element {A : Type} (comp : A -> A -> bool) (v : list A)
  : nat * nat :=
  match v with
  | [] => (0%nat, 0%nat)
  | [x] => (0%nat, 0%nat)
  | x :: y :: v' =>
      if comp y x then minmax_from comp v' 2 (1%nat, y) (0%nat, x)
      else minmax_from comp v' 2 (0%nat, x) (1%nat, y)
  end.

(** [*it], [it->...]: dereferencing the end position is undefined. *)
Definition deref {A : Type} (v : list A) (it : nat) : outcome A :=
  match nth_error v it with
  | Some a => Done a
  | None => Undefined
  end.

End StdAlgorithm.

(** [get_bbox_for_s_values(s_values, get_xyz)]; the type of the samples is
    the template parameter. *)
Definition get_bbox_for_s_values {S : Type} (s_values : list S)
    (get_xyz : S -> Vec2D) : outcome Box2D :=
  let points := map get_xyz s_values in
  let iter_min_max_x :=
    StdAlgorithm.minmax_element
      (fun lhs rhs : Vec2D => (fst lhs <? fst rhs)%float) points in
  let iter_min_max_y :=
    StdAlgorithm.minmax_element
      (fun lhs rhs : Vec2D => (snd lhs <? snd rhs)%float) points in
  min_x <- StdAlgorithm.deref points (fst iter_min_max_x) ;;
  min_y <- StdAlgorithm.deref points (fst iter_min_max_y) ;;
  max_x <- StdAlgorithm.deref points (snd iter_min_max_x) ;;
  max_y <- StdAlgorithm.deref points (snd iter_min_max_y) ;;
  Done (Box2D_of (fst min_x, snd min_y) (fst max_x, snd max_y)).

(** Samples of a parameter and a parabola to project them onto. *)
Definition sample_s_values : list float := [0; 1; 2; 3]%float.
Definition sample_curve (s : float) : Vec2D :=
  (s, (s - 1) * (s - 1))%float.

(** Samples with a NaN among them, projected onto the line [y = - x]. *)
Definition sample_nan_values : list float := [2; 1; nan; 5; 3]%float.
Definition sample_diagonal (s : float) : Vec2D := (s, - s)%float.

(** ** Lane sections of a road *)

(** Modelled from the spec: the floor lookup of [Road::get_lanesection],
    declared in [Road.h] and defined in a translation unit that is not among
    the sources: "the entry in [s0_to_lanesection] with the greatest key
    [<= s] (a floor lookup over the ordered map)".  The entries are visited
    in key order up to the first key that is not [<= s]. *)
Fixpoint floor_lookup {V : Type} (m : list (float * V)) (s : float) : option V :=
  match m with
  | [] => None
  | (s0, v) :: m' =>
      if (s0 <=? s)%float then
        match floor_lookup m' s with
        | Some v' => Some v'
        | None => Some v
        end
      else None
  end.

(** Modelled from the spec: [Road::get_lanesection(s)]: the floor lookup for
    [s] in [[0, length)], and "no section found" (a null pointer, here
    [None]) outside. *)
Definition get_lanesection (road : Road) (s : float)
  : option (shared_ptr LaneSection) :=
  if ((0 <=? s) && (s <? road_length road))%float
  then floor_lookup (s0_to_lanesection road) s
  else None.

(** The invariant of [s0_to_lanesection]: the first key is 0, the keys are
    strictly increasing, and all of them lie below [length]. *)
Definition lanesections_wf (road : Road) : Prop :=
  (exists sec rest, s0_to_lanesection road = (0%float, sec) :: rest) /\
  StronglySorted (fun e1 e2 => (fst e1 <? fst e2)%float = true)
                 (s0_to_lanesection road) /\
  Forall (fun e => (fst e <? road_length road)%float = true)
         (s0_to_lanesection road).

(** A road of length 100 with lane sections starting at 0, 25 and 60. *)
Definition sample_section (addr : Z) (s0 : float) : float * shared_ptr LaneSection :=
  (s0, mk_shared_ptr addr (mkLaneSection s0)).
Definition sample_road : Road :=
  mkRoad 7 (-1) 100%float
         [sample_section 1 0%float; sample_section 2 25%float;
          sample_section 3 60%float].

(** ** Key sets of ordered maps *)

(** [extract_keys(input_map)]: the map is the sequence of its entries in
    ascending key order, as iteration visits them; every key is inserted
    into a [std::set<K>], ordered by [<] on [K]. *)
Definition extract_keys {K V : Type} (lt : K -> K -> bool) (input_map : list (K * V))
  : list K :=
  fold_left (fun retval element => StdSet.insert lt (fst element) retval)
            input_map [].

(** ** Relations between a polyline and its simplification *)

(** [subsequence q l]: [q] is [l] with some elements left out. *)
Inductive subsequence {A : Type} : list A -> list A -> Prop :=
| subsequence_nil : subsequence [] []
| subsequence_keep : forall a q l, subsequence q l -> subsequence (a :: q) (a :: l)
| subsequence_drop : forall a q l, subsequence q l -> subsequence q (a :: l).

(** [within_tolerance Dim epsilon l q]: [q] keeps the first and the last point
    of [l], and every run of points of [l] that [q] leaves out lies, by
    [perp_dist], not farther than [epsilon] from the line through the two
    kept points around it. *)
Inductive within_tolerance {T : Type} `{Arithmetic T} (Dim : nat) (epsilon : T)
  : list (list T) -> list (list T) -> Prop :=
| within_end : forall b, within_tolerance Dim epsilon [b] [b]
| within_segment : forall a mid b l q,
    (forall x, In x mid -> a_ltb epsilon (perp_dist Dim a b x) = false) ->
    within_tolerance Dim epsilon (b :: l) (b :: q) ->
    within_tolerance Dim epsilon (a :: mid ++ b :: l) (a :: b :: q).

(** * Properties *)

(** ** Machine arithmetic *)

Lemma wrap_small (z : Z) : 0 <= z < SIZE_MOD -> wrap z = z.
Proof. intros Hz. unfold wrap. apply Z.mod_small. exact Hz. Qed.

Lemma SIZE_MOD_eq : SIZE_MOD = 18446744073709551616.
Proof. reflexivity. Qed.

Lemma size_nonneg {A : Type} (v : list A) : 0 <= size v.
Proof. unfold size. lia. Qed.

(** ** Mesh stitching *)

Lemma zipper_length (n : nat) (num_pts l : Z) :
  length (Mesh.zipper n num_pts l) = (6 * n)%nat.
Proof.
  revert l. induction n as [|n IH]; intros l; simpl; [reflexivity|].
  rewrite IH. lia.
Qed.

Lemma zipper_bounds (n : nat) (num_pts l : Z) :
  1 <= l -> l + Z.of_nat n <= num_pts ->
  Forall (fun i => 0 <= i < num_pts) (Mesh.zipper n num_pts l).
Proof.
  revert l. induction n as [|n IH]; intros l Hl Hn; simpl.
  - constructor.
  - repeat (constructor; [lia|]). apply IH; lia.
Qed.

(** The loop emits exactly the zipper for the positions left of the seam. *)
Lemma stitch_zipper (n : nat) :
  forall fuel num_pts l r idcs,
    0 <= num_pts < SIZE_MOD ->
    1 <= l ->
    n = Z.to_nat (Z.shiftr num_pts 1 - l) ->
    (n <> O -> r = num_pts - 1 - l) ->
    (n < fuel)%nat ->
    Mesh.stitch fuel num_pts l r idcs = Done (idcs ++ Mesh.zipper n num_pts l).
Proof.
  induction n as [|n IH]; intros fuel num_pts l r idcs Hnum Hl Hn Hr Hfuel;
    (destruct fuel as [|fuel]; [lia|]); simpl;
    rewrite Z.shiftr_div_pow2 in * by lia; change (2 ^ 1) with 2 in *.
  - destruct (Z.ltb_spec l (num_pts / 2)); [lia|].
    now rewrite app_nil_r.
  - destruct (Z.ltb_spec l (num_pts / 2)); [|lia].
    assert (Hr' : r = num_pts - 1 - l) by (apply Hr; discriminate).
    assert (Hhalf : 2 * (num_pts / 2) <= num_pts)
      by (apply Z.mul_div_le; lia).
    rewrite (wrap_small (l + 1)), (wrap_small (r - 1)) by (rewrite SIZE_MOD_eq in *; lia).
    rewrite (IH fuel num_pts (l + 1) (r - 1)); try lia.
    + unfold Mesh.indicies_patch.
      rewrite !wrap_small by (rewrite SIZE_MOD_eq in *; lia).
      rewrite <- app_assoc. simpl. subst r.
      replace (num_pts - 1 - l + 1) with (num_pts - l) by lia.
      reflexivity.
    + rewrite Z.shiftr_div_pow2 by lia. change (2 ^ 1) with 2. lia.
Qed.

(** C3: borders of different point counts make [generate_mesh_from_borders]
    leave through [std::runtime_error]; the exception is raised while the
    local [out_mesh] is still the default-constructed, empty mesh, so no
    vertex and no index has been produced. *)
Theorem generate_mesh_from_borders_mismatch :
  forall inner_border outer_border : Line3D,
    length inner_border <> length outer_border ->
    Mesh.generate_mesh_from_borders inner_border outer_border
      = Throw (runtime_error Mesh.border_mismatch) /\
    Mesh.generate_mesh_body inner_border outer_border empty_mesh
      = (Throw (runtime_error Mesh.border_mismatch), empty_mesh).
Proof.
  intros inner outer Hne.
  assert (Hbody : Mesh.generate_mesh_body inner outer empty_mesh
                  = (Throw (runtime_error Mesh.border_mismatch), empty_mesh)).
  { unfold Mesh.generate_mesh_body, size.
    destruct (Z.eqb_spec (Z.of_nat (length inner)) (Z.of_nat (length outer)))
      as [Heq|_]; [|reflexivity].
    exfalso. apply Hne. lia. }
  split; [|exact Hbody].
  unfold Mesh.generate_mesh_from_borders. now rewrite Hbody.
Qed.

Lemma generate_mesh_from_borders_mismatch_witness :
  Mesh.generate_mesh_from_borders (removelast sample_inner) sample_outer
    = Throw (runtime_error Mesh.border_mismatch) /\
  Mesh.generate_mesh_body (removelast sample_inner) sample_outer empty_mesh
    = (Throw (runtime_error Mesh.border_mismatch), empty_mesh).
Proof.
  apply (generate_mesh_from_borders_mismatch (removelast sample_inner) sample_outer).
  simpl. discriminate.
Defined.

(** C4: for two borders of [N] points each the mesh has the outer border
    followed by the reversed inner border as its [2 * N] vertices, its index
    buffer holds [2 * (N - 1)] triangles of three entries each, that is
    [6 * (N - 1)] entries (the zipper over the positions left of the seam),
    and every index is below the number of vertices. *)
Theorem generate_mesh_from_borders_equal_length :
  forall (inner_border outer_border : Line3D) (N : nat),
    length inner_border = N ->
    length outer_border = N ->
    2 * Z.of_nat N < SIZE_MOD ->
    exists mesh,
      Mesh.generate_mesh_from_borders inner_border outer_border = Done mesh /\
      vertices mesh = outer_border ++ rev inner_border /\
      length (vertices mesh) = (2 * N)%nat /\
      indices mesh = Mesh.zipper (N - 1) (2 * Z.of_nat N) 1 /\
      length (indices mesh) = (3 * (2 * (N - 1)))%nat /\
      length (indices mesh) = (6 * (N - 1))%nat /\
      Forall (fun i => 0 <= i < size (vertices mesh)) (indices mesh).
Proof.
  intros inner outer N Hin Hout Hsize.
  assert (Hlen : length (outer ++ rev inner) = (2 * N)%nat)
    by (rewrite length_app, length_rev; lia).
  assert (Hnum : size (outer ++ rev inner) = 2 * Z.of_nat N)
    by (unfold size; rewrite Hlen; lia).
  exists (mkMesh3D (outer ++ rev inner) (Mesh.zipper (N - 1) (2 * Z.of_nat N) 1)).
  split.
  - unfold Mesh.generate_mesh_from_borders, Mesh.generate_mesh_body.
    replace (size inner =? size outer) with true
      by (symmetry; apply Z.eqb_eq; unfold size; lia).
    cbn [negb vertices indices empty_mesh]. rewrite Hnum.
    rewrite (stitch_zipper (N - 1)%nat); try reflexivity; try lia.
    + rewrite Z.shiftr_div_pow2 by lia. change (2 ^ 1) with 2.
      replace (2 * Z.of_nat N / 2) with (Z.of_nat N)
        by (rewrite Z.mul_comm, Z.div_mul; lia).
      lia.
    + intros HN. rewrite wrap_small by (rewrite SIZE_MOD_eq in *; lia). lia.
  - cbn [vertices indices]. rewrite zipper_length, Hnum.
    repeat split; try lia; try assumption.
    destruct N as [|N]; [constructor|].
    apply zipper_bounds; lia.
Qed.

Lemma generate_mesh_from_borders_equal_length_witness :
  exists mesh,
    Mesh.generate_mesh_from_borders sample_inner sample_outer = Done mesh /\
    vertices mesh = sample_outer ++ rev sample_inner /\
    length (vertices mesh) = 8%nat /\
    indices mesh = Mesh.zipper 3 8 1 /\
    length (indices mesh) = (3 * 6)%nat /\
    length (indices mesh) = 18%nat /\
    Forall (fun i => 0 <= i < size (vertices mesh)) (indices mesh).
Proof.
  apply (generate_mesh_from_borders_equal_length sample_inner sample_outer
           4%nat eq_refl eq_refl).
  reflexivity.
Defined.

(** ** Sets ordered by a field of the pointee *)

Lemma filter_none {A : Type} (f : A -> bool) (l : list A) :
  (forall a, In a l -> f a = false) -> filter f l = [].
Proof.
  induction l as [|a l IH]; intros H; simpl; [reflexivity|].
  rewrite (H a (or_introl eq_refl)). apply IH. intros b Hb. apply H. now right.
Qed.

Section SharedPtrSet.
Context {C : Type} (member : C -> Z).

Let cmp := SharedPtrCmp Z.ltb member.
Let key (p : shared_ptr C) : Z := member (pointee p).
Let ascending := StronglySorted (fun a b : shared_ptr C => key a < key b).

Lemma insert_keys (x : shared_ptr C) (s : list (shared_ptr C)) (k : Z) :
  In k (map key (StdSet.insert cmp x s)) <-> k = key x \/ In k (map key s).
Proof.
  induction s as [|y s IH]; simpl.
  - intuition.
  - unfold cmp at 1 2, SharedPtrCmp. fold (key x) (key y).
    destruct (Z.ltb_spec (key x) (key y)); simpl; [intuition|].
    destruct (Z.ltb_spec (key y) (key x)); simpl.
    + rewrite IH. intuition.
    + assert (key x = key y) by lia. intuition congruence.
Qed.

Lemma insert_ascending (x : shared_ptr C) (s : list (shared_ptr C)) :
  ascending s -> ascending (StdSet.insert cmp x s).
Proof.
  unfold ascending.
  induction s as [|y s IH]; intros Hs; simpl.
  - repeat constructor.
  - inversion Hs as [|? ? Hs' Hy]; subst.
    unfold cmp at 1 2, SharedPtrCmp. fold (key x) (key y).
    destruct (Z.ltb_spec (key x) (key y)).
    + constructor; [exact Hs|]. constructor; [assumption|].
      rewrite Forall_forall in *. intros z Hz. specialize (Hy z Hz). lia.
    + destruct (Z.ltb_spec (key y) (key x)); [|exact Hs].
      constructor; [apply IH; assumption|].
      rewrite Forall_forall in *. intros z Hz.
      assert (Hk : In (key z) (map key (StdSet.insert cmp x s)))
        by (apply in_map; exact Hz).
      apply insert_keys in Hk. destruct Hk as [Hk|Hk]; [lia|].
      apply in_map_iff in Hk. destruct Hk as (z' & Hkz & Hz').
      specialize (Hy z' Hz'). lia.
Qed.

(** An element whose key is already present is not inserted. *)
Lemma insert_equivalent (x : shared_ptr C) (s : list (shared_ptr C)) :
  ascending s -> In (key x) (map key s) -> StdSet.insert cmp x s = s.
Proof.
  unfold ascending.
  induction s as [|y s IH]; intros Hs Hin; simpl in *; [contradiction|].
  inversion Hs as [|? ? Hs' Hy]; subst.
  unfold cmp at 1 2, SharedPtrCmp. fold (key x) (key y).
  rewrite Forall_forall in Hy.
  destruct Hin as [Hin|Hin].
  - rewrite Hin, Z.ltb_irrefl. reflexivity.
  - apply in_map_iff in Hin. destruct Hin as (z & Hkz & Hz).
    specialize (Hy z Hz).
    destruct (Z.ltb_spec (key x) (key y)); [lia|].
    destruct (Z.ltb_spec (key y) (key x)); [|lia].
    rewrite IH; [reflexivity|assumption|].
    rewrite <- Hkz. now apply in_map.
Qed.

Lemma insert_all_ascending (xs s : list (shared_ptr C)) :
  ascending s -> ascending (StdSet.insert_all cmp xs s).
Proof.
  revert s. induction xs as [|x xs IH]; intros s Hs; simpl; [exact Hs|].
  apply IH, insert_ascending, Hs.
Qed.

Lemma insert_all_keys (xs s : list (shared_ptr C)) (k : Z) :
  In k (map key (StdSet.insert_all cmp xs s))
  <-> In k (map key xs) \/ In k (map key s).
Proof.
  revert s. induction xs as [|x xs IH]; intros s; simpl; [intuition|].
  change (fold_left _ xs ?a) with (StdSet.insert_all cmp xs a).
  rewrite IH, insert_keys. intuition.
Qed.

(** In an ascending sequence a key occurs at most once. *)
Lemma ascending_key_once (s : list (shared_ptr C)) (k : Z) :
  ascending s -> In k (map key s) ->
  length (filter (fun p => key p =? k) s) = 1%nat.
Proof.
  unfold ascending.
  induction s as [|y s IH]; intros Hs Hin; simpl in *; [contradiction|].
  inversion Hs as [|? ? Hs' Hy]; subst. rewrite Forall_forall in Hy.
  destruct (Z.eqb_spec (key y) k) as [Heq|Hne].
  - simpl. f_equal.
    rewrite filter_none; [reflexivity|].
    intros z Hz. specialize (Hy z Hz). apply Z.eqb_neq. lia.
  - destruct Hin as [Hin|Hin]; [contradiction|]. now apply IH.
Qed.

End SharedPtrSet.

Lemma StronglySorted_map {A : Type} (key : A -> Z) (s : list A) :
  StronglySorted (fun a b => key a < key b) s
  <-> StronglySorted Z.lt (map key s).
Proof.
  induction s as [|a s IH]; simpl.
  - split; constructor.
  - split; intros H; inversion H as [|? ? Hs Ha]; subst;
      (constructor; [now apply IH|]); rewrite Forall_forall in *.
    + intros k Hk. apply in_map_iff in Hk. destruct Hk as (b & <- & Hb).
      now apply Ha.
    + intros b Hb. apply Ha. now apply in_map.
Qed.

(** C9: [RoadSet] is ordered by the [id] of the pointed-to road and not by
    the address of the pointer.  Whatever roads are inserted, iteration
    visits strictly ascending ids, and exactly the ids inserted; roads with
    ids 3, 1, 2 (allocated at ascending addresses) are visited as 1, 2, 3; and
    inserting a second, distinct road object with an id that is already in
    the set leaves the set as it was, with one element of that id. *)
Theorem RoadSet_ordered_by_id :
  (forall rs : list (shared_ptr Road),
      let s := StdSet.insert_all RoadSet_cmp rs [] in
      StronglySorted Z.lt (RoadSet_ids s) /\
      (forall i, In i (RoadSet_ids s) <-> In i (RoadSet_ids rs))) /\
  RoadSet_ids
    (StdSet.insert_all RoadSet_cmp [road_at 10 3; road_at 20 1; road_at 30 2] [])
    = [1; 2; 3] /\
  (forall (s : RoadSet) (r r' : shared_ptr Road),
      StronglySorted Z.lt (RoadSet_ids s) ->
      address r <> address r' ->
      road_id (pointee r) = road_id (pointee r') ->
      let s' := RoadSet_insert r' (RoadSet_insert r s) in
      s' = RoadSet_insert r s /\
      length (filter (fun p => road_id (pointee p) =? road_id (pointee r)) s')
        = 1%nat) /\
  RoadSet_insert (road_at 40 2) (RoadSet_insert (road_at 30 2) [])
    = [road_at 30 2].
Proof.
  split; [|split; [reflexivity|split; [|reflexivity]]].
  - intros rs s. split.
    + apply (StronglySorted_map (fun r => road_id (pointee r))).
      apply (insert_all_ascending road_id). constructor.
    + intros i. unfold s, RoadSet_ids.
      rewrite (insert_all_keys road_id). simpl. intuition.
  - intros s r r' Hs _ Hid s'.
    apply (StronglySorted_map (fun r => road_id (pointee r))) in Hs.
    pose proof (insert_ascending road_id r s Hs) as Hs1.
    assert (Hin : In (road_id (pointee r))
                     (map (fun p => road_id (pointee p)) (RoadSet_insert r s)))
      by (apply (insert_keys road_id); now left).
    assert (Hs' : s' = RoadSet_insert r s).
    { apply (insert_equivalent road_id); [exact Hs1|]. now rewrite <- Hid. }
    split; [exact Hs'|]. rewrite Hs'.
    now apply (ascending_key_once road_id).
Qed.

(** ** The comparisons of binary64 *)

Ltac sf_cases :=
  repeat match goal with
         | b : bool |- _ => destruct b
         end;
  simpl; try congruence; try tauto;
  repeat match goal with
         | |- context [Z.compare ?a ?b] => destruct (Z.compare_spec a b)
         | H : context [Z.compare ?a ?b] |- _ => destruct (Z.compare_spec a b)
         | |- context [Pos.compare_cont Eq ?a ?b] =>
             change (Pos.compare_cont Eq a b) with (Pos.compare a b);
             destruct (Pos.compare_spec a b)
         | H : context [Pos.compare_cont Eq ?a ?b] |- _ =>
             change (Pos.compare_cont Eq a b) with (Pos.compare a b) in H;
             destruct (Pos.compare_spec a b)
         end;
  simpl in *; try congruence; try tauto; try lia.

Lemma SFltb_irrefl (x : spec_float) : SFltb x x = false.
Proof. unfold SFltb, SFcompare; destruct x; sf_cases. Qed.

Lemma SFltb_trans (x y z : spec_float) :
  SFltb x y = true -> SFltb y z = true -> SFltb x z = true.
Proof. unfold SFltb, SFcompare; destruct x, y, z; sf_cases. Qed.

Lemma SFltb_negtrans (x y z : spec_float) :
  SFltb x y = true -> SFleb z z = true ->
  SFltb x z = true \/ SFltb z y = true.
Proof. unfold SFltb, SFleb, SFcompare; destruct x, y, z; sf_cases. Qed.

Lemma SFltb_defined (x y : spec_float) :
  SFltb x y = true -> SFleb x x = true /\ SFleb y y = true.
Proof. unfold SFltb, SFleb, SFcompare; destruct x, y; sf_cases. Qed.

Lemma SFleb_ltb (x y : spec_float) :
  SFleb x x = true -> SFleb y y = true -> SFleb x y = negb (SFltb y x).
Proof. unfold SFltb, SFleb, SFcompare; destruct x, y; sf_cases. Qed.

Lemma SFleb_defined (x y : spec_float) :
  SFleb x y = true -> SFleb x x = true /\ SFleb y y = true.
Proof. unfold SFleb, SFcompare; destruct x, y; sf_cases. Qed.

#[export] Instance double_ArithmeticLaws : ArithmeticLaws float.
Proof.
  constructor; unfold a_defined; cbn [a_ltb a_leb a_zero double_Arithmetic];
    intros; rewrite ?ltb_spec, ?leb_spec in *.
  - apply SFltb_irrefl.
  - eapply SFltb_trans; eassumption.
  - now apply SFltb_negtrans.
  - eapply SFltb_defined; eassumption.
  - now apply SFleb_ltb.
  - eapply SFleb_defined; eassumption.
  - reflexivity.
Qed.

(** ** Running the scan and [rdp] on a valid range *)

Lemma to_int_small (z : Z) : - 2 ^ 31 <= z <= INT_MAX -> to_int z = z.
Proof.
  unfold to_int, INT_MAX. intros Hz.
  rewrite Z.mod_small; lia.
Qed.

Lemma INT_MAX_eq : INT_MAX = 2147483647.
Proof. reflexivity. Qed.

Lemma at_valid {A : Type} {v : list A} {i : Z} {a : A} :
  0 <= i -> nth_error v (Z.to_nat i) = Some a -> at_ v i = Done a.
Proof.
  intros Hi Hnth. unfold at_.
  destruct (Z.ltb_spec i 0); [lia|]. now rewrite Hnth.
Qed.

Lemma mapM_Done {A B : Type} (f : A -> outcome B) (g : A -> B) (l : list A) :
  (forall a, In a l -> f a = Done (g a)) -> mapM f l = Done (map g l).
Proof.
  induction l as [|a l IH]; intros Hf; simpl; [reflexivity|].
  rewrite (Hf a (or_introl eq_refl)). simpl.
  rewrite IH by (intros b Hb; apply Hf; now right). reflexivity.
Qed.

Section ValidRange.
Context {T : Type} `{Arithmetic T}.
Variable Dim : nat.
Variable points : list (list T).

Lemma difference_at_valid {i j : Z} {p q : list T} :
  0 <= i -> 0 <= j ->
  nth_error points (Z.to_nat i) = Some p ->
  nth_error points (Z.to_nat j) = Some q ->
  difference_at Dim points i j = Done (difference Dim p q).
Proof.
  intros Hi Hj Hp Hq. unfold difference_at, difference.
  apply mapM_Done. intros dim _. cbv beta.
  rewrite (at_valid Hi Hp), (at_valid Hj Hq). reflexivity.
Qed.

Lemma perpendicular_valid {start_idx last_idx idx : Z} {p_start p_last p : list T} :
  0 <= start_idx -> 0 <= last_idx -> 0 <= idx ->
  nth_error points (Z.to_nat start_idx) = Some p_start ->
  nth_error points (Z.to_nat last_idx) = Some p_last ->
  nth_error points (Z.to_nat idx) = Some p ->
  perpendicular Dim points start_idx last_idx idx
  = Done (perp_dist Dim p_start p_last p,
          snd (normalise Dim (difference Dim p_last p_start))).
Proof.
  intros Hs Hl Hi Hps Hpl Hp. unfold perpendicular, perp_dist.
  rewrite (difference_at_valid Hl Hs Hpl Hps). simpl.
  destruct (normalise Dim (difference Dim p_last p_start)) as [delta divisors].
  rewrite (difference_at_valid Hi Hs Hp Hps). reflexivity.
Qed.

Lemma nth_error_nth_valid {i : Z} :
  0 <= i < size points ->
  nth_error points (Z.to_nat i) = Some (nth (Z.to_nat i) points []).
Proof.
  intros Hi. apply nth_error_nth'. unfold size in Hi. lia.
Qed.

Lemma range_points_S (start step : Z) (n : nat) :
  range_points points start step (S n)
  = nth (Z.to_nat start) points [] :: range_points points (start + step) step n.
Proof.
  unfold range_points. simpl. rewrite <- seq_shift, map_map.
  f_equal; [f_equal; lia|].
  apply map_ext. intros j. f_equal. lia.
Qed.

Lemma range_points_length (start step : Z) (n : nat) :
  length (range_points points start step n) = n.
Proof. unfold range_points. now rewrite length_map, length_seq. Qed.

Lemma range_points_app (start step : Z) (n m : nat) :
  range_points points start step (n + m)
  = range_points points start step n
      ++ range_points points (start + Z.of_nat n * step) step m.
Proof.
  revert start. induction n as [|n IH]; intros start.
  - simpl. f_equal. lia.
  - change (S n + m)%nat with (S (n + m)). rewrite !range_points_S, IH.
    simpl. do 2 f_equal.
    replace (start + step + Z.of_nat n * step)
      with (start + Z.of_nat (S n) * step) by lia.
    reflexivity.
Qed.

Lemma scan_range (start step last : Z) (p_start p_last : list T) :
  0 <= start -> 1 <= step -> last < size points -> size points < SIZE_MOD ->
  nth_error points (Z.to_nat start) = Some p_start ->
  nth_error points (Z.to_nat last) = Some p_last ->
  forall (m fuel : nat) (j : nat) (r : T) (k : nat),
    (1 <= j)%nat ->
    last = start + Z.of_nat (j + m) * step ->
    (m < fuel)%nat ->
    scan Dim fuel points start step last (start + Z.of_nat j * step) r
         (pos_idx start step k)
    = Done (fst (scan_points Dim p_start p_last
                   (range_points points (start + Z.of_nat j * step) step m) j r k),
            pos_idx start step
              (snd (scan_points Dim p_start p_last
                      (range_points points (start + Z.of_nat j * step) step m) j r k))).
Proof.
  intros Hstart Hstep Hlast Hsize Hps Hpl.
  induction m as [|m IH]; intros fuel j r k Hj Hl Hfuel;
    (destruct fuel as [|fuel]; [lia|]); simpl scan.
  - destruct (Z.ltb_spec (start + Z.of_nat j * step) last); [nia|reflexivity].
  - destruct (Z.ltb_spec (start + Z.of_nat j * step) last); [|nia].
    assert (Hidx : 0 <= start + Z.of_nat j * step < size points) by nia.
    rewrite (perpendicular_valid Hstart (ltac:(nia) : 0 <= last)
               (proj1 Hidx) Hps Hpl (nth_error_nth_valid Hidx)).
    cbn [bind fst]. rewrite range_points_S. cbn [scan_points].
    rewrite wrap_small by nia.
    replace (start + Z.of_nat j * step + step)
      with (start + Z.of_nat (S j) * step) by lia.
    destruct (a_ltb r _).
    + replace (start + Z.of_nat j * step) with (pos_idx start step j) at 2
        by (unfold pos_idx; destruct (Nat.eqb_spec j 0); [lia|reflexivity]).
      apply IH; lia.
    + apply IH; lia.
Qed.

Lemma scan_range_init (start step last : Z) (p_start p_last : list T)
    (m fuel : nat) :
  0 <= start -> 1 <= step -> last < size points -> size points < SIZE_MOD ->
  nth_error points (Z.to_nat start) = Some p_start ->
  nth_error points (Z.to_nat last) = Some p_last ->
  last = start + Z.of_nat (S m) * step ->
  (m < fuel)%nat ->
  scan Dim fuel points start step last (start + step) a_zero 0
  = Done (fst (scan_points Dim p_start p_last
                 (range_points points (start + step) step m) 1 a_zero 0),
          pos_idx start step
            (snd (scan_points Dim p_start p_last
                    (range_points points (start + step) step m) 1 a_zero 0))).
Proof.
  intros Hstart Hstep Hlast Hsize Hps Hpl Hl Hfuel.
  pose proof (scan_range start step last p_start p_last
                Hstart Hstep Hlast Hsize Hps Hpl m fuel 1%nat a_zero 0%nat
                (le_n 1) Hl Hfuel) as Hscan.
  replace (start + Z.of_nat 1 * step) with (start + step) in Hscan by lia.
  exact Hscan.
Qed.

End ValidRange.

(** ** The simplification of a range *)

Lemma app_inj_length {A : Type} (l1 l1' l2 l2' : list A) :
  length l1 = length l1' -> l1 ++ l2 = l1' ++ l2' -> l1 = l1' /\ l2 = l2'.
Proof.
  revert l1'. induction l1 as [|a l1 IH]; intros [|a' l1'] Hlen Heq;
    simpl in *; try discriminate; [now split|].
  injection Heq as <- Heq. destruct (IH l1' ltac:(lia) Heq) as [<- <-].
  now split.
Qed.

Lemma list_split_at {A : Type} (l : list A) (i : nat) (d : A) :
  (i < length l)%nat -> l = firstn i l ++ nth i l d :: skipn (S i) l.
Proof.
  revert i. induction l as [|a l IH]; intros [|i] Hi; simpl in *; try lia.
  - reflexivity.
  - f_equal. apply IH. lia.
Qed.

Section Simplification.
Context {T : Type} `{Arithmetic T}.
Variable Dim : nat.
Variable epsilon : T.

Lemma scan_points_position (a b : list T) (m : list (list T)) (j : nat) (r : T) (k : nat) :
  (scan_points Dim a b m j r k = (r, k)) \/
  (exists x, In x m /\ fst (scan_points Dim a b m j r k) = perp_dist Dim a b x /\
             (j <= snd (scan_points Dim a b m j r k) < j + length m)%nat).
Proof.
  revert j r k. induction m as [|x m IH]; intros j r k; [now left|].
  simpl. destruct (a_ltb r (perp_dist Dim a b x)).
  - right. destruct (IH (S j) (perp_dist Dim a b x) j) as [Heq|(y & Hy & Hfst & Hpos)].
    + rewrite Heq. exists x. simpl. repeat split; auto; lia.
    + exists y. repeat split; auto; lia.
  - destruct (IH (S j) r k) as [Heq|(y & Hy & Hfst & Hpos)]; [now left|].
    right. exists y. repeat split; auto; lia.
Qed.

(** A simplification keeps the two end points, takes its interior points
    from the interior of the range, and is no longer than the range. *)
Lemma simplifies_shape (l q : list (list T)) :
  simplifies Dim epsilon l q ->
  forall a mid b, l = a :: mid ++ [b] ->
  exists m, q = a :: m ++ [b] /\ incl m mid /\ (length m <= length mid)%nat.
Proof.
  induction 1 as [a0 mid0 b0 Hkeep
                 |a0 before p after b0 d_max q1 q2 Hscan Hsplit H1 IH1 H2 IH2];
    intros a mid b Heq; injection Heq; intros Htl <-;
    apply app_inj_tail in Htl; destruct Htl as [<- <-].
  - exists []. repeat split; [apply incl_nil_l|simpl; lia].
  - destruct (IH1 _ _ _ eq_refl) as (m1 & -> & Hm1 & Hl1).
    destruct (IH2 _ _ _ eq_refl) as (m2 & -> & Hm2 & Hl2).
    exists (m1 ++ p :: m2). repeat split.
    + change (a0 :: m1 ++ [p]) with ((a0 :: m1) ++ [p]).
      rewrite removelast_last. simpl. now rewrite <- app_assoc.
    + apply incl_app; [now apply incl_appl|].
      apply incl_appr, incl_cons; [now left|now apply incl_tl].
    + rewrite !length_app. simpl. lia.
Qed.

(** If no interior point is farther than [epsilon], only the end points are
    kept. *)
Lemma simplifies_within (a b : list T) (mid q : list (list T)) :
  simplifies Dim epsilon (a :: mid ++ [b]) q ->
  (forall x, In x mid -> a_ltb epsilon (perp_dist Dim a b x) = false) ->
  q = [a; b].
Proof.
  intros Hq Hmid.
  inversion Hq as [a0 mid0 b0 Hkeep|a0 before p after b0 d_max q1 q2 Hscan Hsplit H1 H2];
    subst;
    match goal with
    | Hl : _ ++ [_] = _ ++ [_] |- _ =>
        apply app_inj_tail in Hl; destruct Hl as [? ?]; subst
    end; [reflexivity|exfalso].
  destruct (scan_points_position a b (before ++ p :: after) 1 a_zero 0)
    as [Heq|(x & Hx & Hfst & _)].
  - rewrite Heq in Hscan. discriminate.
  - rewrite Hscan in Hfst. simpl in Hfst. subst d_max.
    rewrite (Hmid x Hx) in Hsplit. discriminate.
Qed.

(** Every range of at least two points has a simplification, provided
    [epsilon] is not below zero. *)
Lemma simplifies_total :
  a_ltb epsilon a_zero = false ->
  forall (n : nat) (a b : list T) (mid : list (list T)),
    (length mid <= n)%nat ->
    exists q, simplifies Dim epsilon (a :: mid ++ [b]) q.
Proof.
  intros Heps. induction n as [|n IH]; intros a b mid Hlen.
  - destruct mid; [|simpl in Hlen; lia].
    exists [a; b]. apply simplifies_keep. exact Heps.
  - destruct (a_ltb epsilon (fst (scan_points Dim a b mid 1 a_zero 0))) eqn:Hd.
    + destruct (scan_points_position a b mid 1 a_zero 0) as [Heq|(x & _ & _ & Hpos)].
      { rewrite Heq in Hd. simpl in Hd. congruence. }
      set (k := snd (scan_points Dim a b mid 1 a_zero 0)) in *.
      assert (Hmid : mid = firstn (k - 1) mid ++ nth (k - 1) mid [] :: skipn k mid).
      { replace k with (S (k - 1)) at 3 by lia. apply list_split_at. lia. }
      set (before := firstn (k - 1) mid) in *.
      set (p := nth (k - 1) mid []) in *.
      set (after := skipn k mid) in *.
      assert (Hb : length before = (k - 1)%nat)
        by (unfold before; rewrite length_firstn; lia).
      assert (Hlen' : length mid = (length before + S (length after))%nat)
        by (rewrite Hmid at 1; rewrite length_app; reflexivity).
      destruct (IH a p before ltac:(lia)) as (q1 & Hq1).
      destruct (IH p b after ltac:(lia)) as (q2 & Hq2).
      exists (removelast q1 ++ q2). rewrite Hmid.
      apply simplifies_split with (d_max := fst (scan_points Dim a b mid 1 a_zero 0));
        try assumption.
      rewrite <- Hmid. rewrite Hb. replace (S (k - 1)) with k by lia.
      unfold k. now destruct (scan_points Dim a b mid 1 a_zero 0).
    + exists [a; b]. now apply simplifies_keep.
Qed.

End Simplification.

(** ** [rdp] computes the simplification of the range it is given *)

Lemma cons_eq_inv {A : Type} (a b : A) (l l' : list A) :
  a :: l = b :: l' -> a = b /\ l = l'.
Proof. intros Heq. now injection Heq. Qed.

Section Completeness.
Context {T : Type} `{Arithmetic T}.
Variable Dim : nat.
Variable epsilon : T.

Lemma selects_last {points : list (list T)} {start step _end : Z} {n : nat} :
  selects points start step _end n ->
  last_idx_of (end_idx_of points _end) start step
  = start + (Z.of_nat n - 1) * step /\
  start + (Z.of_nat n - 1) * step < end_idx_of points _end /\
  (1 <= n)%nat.
Proof.
  intros (Hs & He & Hsz & Hst & Hn).
  set (e := end_idx_of points _end) in *. clearbody e.
  rewrite INT_MAX_eq in Hsz.
  assert (Hq : 0 <= (e - start - 1) / step) by (apply Z.div_pos; lia).
  assert (Hmul : step * ((e - start - 1) / step) <= e - start - 1)
    by (apply Z.mul_div_le; lia).
  unfold last_idx_of.
  rewrite (wrap_small (e - start - 1)) by (rewrite SIZE_MOD_eq; lia).
  remember ((e - start - 1) / step) as count eqn:Hc. clear Hc.
  assert (Hq' : count = Z.of_nat n - 1) by lia. subst count.
  rewrite (wrap_small ((Z.of_nat n - 1) * step)) by (rewrite SIZE_MOD_eq; nia).
  rewrite wrap_small by (rewrite SIZE_MOD_eq; nia).
  repeat split; nia.
Qed.

Lemma range_points_ends (points : list (list T)) (start step : Z) (m : nat) :
  range_points points start step (S (S m))
  = nth (Z.to_nat start) points []
      :: range_points points (start + step) step m
      ++ [nth (Z.to_nat (start + Z.of_nat (S m) * step)) points []].
Proof.
  rewrite range_points_S. f_equal.
  replace (S m) with (m + 1)%nat at 1 by lia.
  rewrite range_points_app. f_equal.
  unfold range_points. cbn [seq map].
  replace (start + step + Z.of_nat m * step + Z.of_nat 0 * step)
    with (start + Z.of_nat (S m) * step) by lia.
  reflexivity.
Qed.

Lemma selects_intro (points : list (list T)) (start step e : Z) (n : nat) :
  0 <= start < e -> e <= size points -> size points <= INT_MAX -> 1 <= step ->
  Z.of_nat n = (e - start - 1) / step + 1 ->
  selects points start step e n.
Proof.
  intros Hs He Hsz Hst Hn.
  assert (He' : end_idx_of points e = e)
    by (unfold end_idx_of; destruct (Z.ltb_spec 0 e); [reflexivity|lia]).
  unfold selects. rewrite He'. auto.
Qed.

(** One call of [rdp] on a valid range of at least two points. *)
Lemma rdp_unfold_valid (points : list (list T)) (fuel : nat) (out : list (list T))
    (start step _end : Z) (a b : list T) (mid : list (list T)) :
  selects points start step _end (S (S (length mid))) ->
  a :: mid ++ [b] = range_points points start step (S (S (length mid))) ->
  (S (length mid) <= fuel)%nat ->
  rdp Dim (S fuel) points epsilon out start step _end
  = let r := scan_points Dim a b mid 1 a_zero 0 in
    if a_ltb epsilon (fst r) then
      rec_results_1 <- rdp Dim fuel points epsilon [] start step
                           (pos_idx start step (snd r) + 1) ;;
      rec_results_2 <- rdp Dim fuel points epsilon [] (pos_idx start step (snd r))
                           step (end_idx_of points _end) ;;
      match rec_results_1 with
      | [] => Undefined
      | _ :: _ => Done (removelast rec_results_1 ++ rec_results_2)
      end
    else Done [a; b].
Proof.
  intros Hsel Hl Hfuel.
  destruct (selects_last Hsel) as (Hlast & Hlt & _).
  destruct Hsel as (Hs & He & Hsz & Hst & Hcount).
  rewrite range_points_ends in Hl.
  apply cons_eq_inv in Hl. destruct Hl as [Ha Htl].
  apply app_inj_tail in Htl. destruct Htl as [Hmid Hb].
  remember (length mid) as m eqn:Hm.
  remember (end_idx_of points _end) as e eqn:Hedef.
  replace (start + (Z.of_nat (S (S m)) - 1) * step)
    with (start + Z.of_nat (S m) * step) in * by lia.
  remember (start + Z.of_nat (S m) * step) as last eqn:Hlastdef.
  assert (Hstep_last : start + step <= last) by nia.
  rewrite INT_MAX_eq in Hsz.
  assert (Hps : nth_error points (Z.to_nat start) = Some a)
    by (rewrite Ha; apply nth_error_nth_valid; lia).
  assert (Hpl : nth_error points (Z.to_nat last) = Some b)
    by (rewrite Hb; apply nth_error_nth_valid; lia).
  cbn [rdp]. rewrite <- Hedef.
  destruct (Z.eqb_spec step 0); [lia|].
  rewrite Hlast.
  rewrite (wrap_small (last + 1 - start)) by (rewrite SIZE_MOD_eq; lia).
  destruct (Z.ltb_spec (last + 1 - start) 2); [lia|].
  rewrite (wrap_small (start + step)) by (rewrite SIZE_MOD_eq; lia).
  rewrite (scan_range_init Dim points start step last a b m fuel (proj1 Hs) Hst
             (ltac:(lia) : last < size points)
             (ltac:(rewrite SIZE_MOD_eq; lia) : size points < SIZE_MOD)
             Hps Hpl Hlastdef)
    by lia.
  rewrite <- Hmid. cbn [bind fst snd].
  set (r := scan_points Dim a b mid 1 a_zero 0).
  cbv zeta.
  destruct (a_ltb epsilon (fst r)).
  - assert (Hpos : 0 <= pos_idx start step (snd r) <= last).
    { unfold pos_idx. destruct (Nat.eqb_spec (snd r) 0); [lia|].
      destruct (scan_points_position Dim a b mid 1 a_zero 0)
        as [Heq|(x & _ & _ & Hk)]; fold r in Heq || fold r in Hk.
      - rewrite Heq in *. simpl in *. lia.
      - rewrite <- Hm in Hk. nia. }
    rewrite (wrap_small (pos_idx start step (snd r) + 1))
      by (rewrite SIZE_MOD_eq; lia).
    rewrite !to_int_small by (rewrite INT_MAX_eq; lia).
    reflexivity.
  - rewrite (at_valid (proj1 Hs) Hps).
    rewrite (at_valid (ltac:(lia) : 0 <= last) Hpl).
    reflexivity.
Qed.

Lemma rdp_complete (l q : list (list T)) :
  simplifies Dim epsilon l q ->
  forall (points : list (list T)) (fuel : nat) (out : list (list T))
         (start step _end : Z),
    selects points start step _end (length l) ->
    l = range_points points start step (length l) ->
    (length l <= fuel)%nat ->
    rdp Dim fuel points epsilon out start step _end = Done q.
Proof.
  induction 1 as [a mid b Hkeep
                 |a before p after b d_max q1 q2 Hscan Hsplit H1 IH1 H2 IH2];
    intros points fuel out start step _end Hsel Hl Hfuel.
  - assert (Hn : length (a :: mid ++ [b]) = S (S (length mid)))
      by (simpl; rewrite length_app; simpl; lia).
    rewrite Hn in *.
    destruct fuel as [|fuel]; [lia|].
    rewrite (rdp_unfold_valid points fuel out start step _end _ _ _ Hsel Hl) by lia.
    cbv zeta. now rewrite Hkeep.
  - set (mid := before ++ p :: after) in *.
    assert (Hn : length (a :: mid ++ [b]) = S (S (length mid)))
      by (simpl; rewrite length_app; simpl; lia).
    rewrite Hn in *.
    destruct fuel as [|fuel]; [lia|].
    rewrite (rdp_unfold_valid points fuel out start step _end _ _ _ Hsel Hl) by lia.
    cbv zeta. rewrite Hscan. cbn [fst snd]. rewrite Hsplit.
    set (k := S (length before)).
    assert (Hmidlen : length mid = (k + length after)%nat)
      by (unfold mid, k; rewrite length_app; simpl; lia).
    destruct (selects_last Hsel) as (Hlast & Hlt & _).
    destruct Hsel as (Hs & He & Hsz & Hst & Hcount).
    set (e := end_idx_of points _end) in *.
    assert (Hidx : pos_idx start step k = start + Z.of_nat k * step)
      by reflexivity.
    rewrite Hidx.
    (* the two halves as ranges of [points] *)
    replace (S (S (length mid))) with (k + S (S (length after)))%nat in Hl by lia.
    rewrite range_points_app in Hl.
    assert (Hshape : a :: mid ++ [b] = (a :: before) ++ p :: after ++ [b])
      by (unfold mid; rewrite <- app_assoc; reflexivity).
    rewrite Hshape in Hl.
    apply app_inj_length in Hl;
      [|rewrite range_points_length; reflexivity].
    destruct Hl as [Hl1 Hl2].
    assert (Hp : p = nth (Z.to_nat (start + Z.of_nat k * step)) points []).
    { rewrite range_points_S in Hl2. now apply cons_eq_inv in Hl2. }
    assert (Hkstep : 0 <= Z.of_nat k * step) by nia.
    assert (Hkstep' : Z.of_nat k * step + step <= (Z.of_nat (S (S (length mid))) - 1) * step)
      by nia.
    assert (Hsz' : size points <= 2147483647) by (rewrite <- INT_MAX_eq; exact Hsz).
    assert (Hdiv2 : (e - (start + Z.of_nat k * step) - 1) / step
                    = (e - start - 1) / step - Z.of_nat k).
    { replace (e - (start + Z.of_nat k * step) - 1)
        with (e - start - 1 + (- Z.of_nat k) * step) by ring.
      rewrite Z.div_add by lia. lia. }
    assert (Hdiv1 : (start + Z.of_nat k * step + 1 - start - 1) / step = Z.of_nat k).
    { replace (start + Z.of_nat k * step + 1 - start - 1)
        with (Z.of_nat k * step) by ring.
      apply Z.div_mul. lia. }
    assert (Hlen1 : length (a :: before ++ [p]) = S k)
      by (cbn [length]; rewrite length_app; cbn [length]; unfold k; lia).
    assert (Hlen2 : length (p :: after ++ [b]) = S (S (length after)))
      by (cbn [length]; rewrite length_app; cbn [length]; lia).
    rewrite Hlen1, Hlen2 in *.
    rewrite (IH1 points fuel [] start step (start + Z.of_nat k * step + 1)).
    + rewrite (IH2 points fuel [] (start + Z.of_nat k * step) step e).
      * cbn [bind].
        destruct (simplifies_shape Dim epsilon _ _ H1 _ _ _ eq_refl) as (m1 & -> & _).
        reflexivity.
      * apply selects_intro; solve [assumption|lia].
      * exact Hl2.
      * lia.
    + apply selects_intro; solve [assumption|lia].
    + replace (S k) with (k + 1)%nat by lia.
      rewrite range_points_app, <- Hl1.
      change (a :: before ++ [p]) with ((a :: before) ++ [p]). f_equal.
      unfold range_points. cbn [seq map]. rewrite Hp.
      do 2 f_equal. lia.
    + lia.
Qed.

End Completeness.

(** C2, amended: for every [epsilon] that is not below zero, [rdp] on a
    range that selects [n >= 2] points of the vector returns (given a
    recursion budget of at least [n]) an output that starts with the first
    point of the range, ends with its last point, and has at least 2 and at
    most [n] points; when no interior point of the range is farther than
    [epsilon] from the line through the two end points by the distance the
    loop computes in the arithmetic of [T] ([perp_dist]: for [double]s a
    rounded value, and a NaN is not above [epsilon]), the output is these two
    points. *)
Theorem rdp_keeps_endpoints :
  forall (T : Type) (A : Arithmetic T) (Dim : nat)
         (points : list (list T)) (epsilon : T) (out : list (list T))
         (start_idx step _end_idx : Z) (n fuel : nat),
    a_ltb epsilon a_zero = false ->
    selects points start_idx step _end_idx n ->
    (2 <= n)%nat ->
    (n <= fuel)%nat ->
    let p_start := nth (Z.to_nat start_idx) points [] in
    let p_last := nth (Z.to_nat (start_idx + (Z.of_nat n - 1) * step)) points [] in
    exists res,
      rdp Dim fuel points epsilon out start_idx step _end_idx = Done res /\
      hd [] res = p_start /\
      last res [] = p_last /\
      (2 <= length res <= n)%nat /\
      ((forall j : nat,
           (0 < j < n - 1)%nat ->
           a_ltb epsilon
                 (perp_dist Dim p_start p_last
                    (nth (Z.to_nat (start_idx + Z.of_nat j * step)) points []))
           = false) ->
       res = [p_start; p_last]).
Proof.
  intros T A Dim points epsilon out start step _end n fuel Heps Hsel Hn Hfuel
         p_start p_last.
  destruct n as [|[|m]]; try lia.
  pose proof (range_points_ends points start step m) as Hrange.
  replace (start + Z.of_nat (S m) * step)
    with (start + (Z.of_nat (S (S m)) - 1) * step) in Hrange by lia.
  fold p_start p_last in Hrange.
  set (mid := range_points points (start + step) step m) in *.
  assert (Hmid : length mid = m) by apply range_points_length.
  destruct (simplifies_total Dim epsilon Heps m p_start p_last mid ltac:(lia))
    as (q & Hq).
  destruct (simplifies_shape Dim epsilon _ _ Hq _ _ _ eq_refl)
    as (m' & Hshape & _ & Hlen).
  exists q. split; [|split; [|split; [|split]]].
  - apply (rdp_complete Dim epsilon _ _ Hq);
      cbn [length]; rewrite length_app, Hmid; cbn [length];
      replace (S (m + 1)) with (S (S m)) by lia; auto.
  - now rewrite Hshape.
  - rewrite Hshape. change (p_start :: m' ++ [p_last]) with ((p_start :: m') ++ [p_last]).
    apply last_last.
  - rewrite Hshape. cbn [length]. rewrite length_app. cbn [length]. lia.
  - intros Hwithin. apply (simplifies_within Dim epsilon _ _ _ _ Hq).
    intros x Hx. unfold mid, range_points in Hx.
    apply in_map_iff in Hx. destruct Hx as (j & <- & Hj).
    apply in_seq in Hj.
    replace (start + step + Z.of_nat j * step)
      with (start + Z.of_nat (S j) * step) by lia.
    apply Hwithin. lia.
Qed.

(** ** Scanning a range for its farthest point *)

Section ScanPoints.
Context {T : Type} `{ArithmeticLaws T}.
Variable Dim : nat.
Variables p_start p_last : list T.

Let d := perp_dist Dim p_start p_last.
Let scan_pts := scan_points Dim p_start p_last.

Lemma scan_points_app (m m' : list (list T)) (j : nat) (r : T) (k : nat) :
  scan_pts (m ++ m') j r k
  = scan_pts m' (j + length m)%nat (fst (scan_pts m j r k)) (snd (scan_pts m j r k)).
Proof.
  revert j r k. induction m as [|x m IH]; intros j r k; simpl.
  - now rewrite Nat.add_0_r.
  - unfold scan_pts in *. simpl.
    destruct (a_ltb r (perp_dist Dim p_start p_last x));
      rewrite IH; f_equal; lia.
Qed.

(** The scan either leaves the maximum as it was, or ends on the distance of
    a point of the range, which lies above the initial maximum. *)
Lemma scan_points_result (m : list (list T)) (j : nat) (r : T) (k : nat) :
  (scan_pts m j r k = (r, k)) \/
  (exists x, In x m /\ fst (scan_pts m j r k) = d x /\ a_ltb r (d x) = true /\
             (j <= snd (scan_pts m j r k) < j + length m)%nat).
Proof.
  revert j r k. induction m as [|x m IH]; intros j r k.
  - now left.
  - unfold scan_pts in *. simpl. fold (d x).
    destruct (a_ltb r (d x)) eqn:Hx.
    + right. destruct (IH (S j) (d x) j) as [Heq|(y & Hy & Hfst & Hlt & Hpos)].
      * rewrite Heq. exists x. simpl. repeat split; auto; lia.
      * exists y. repeat split; auto; try lia.
        eapply a_ltb_trans; eassumption.
    + destruct (IH (S j) r k) as [Heq|(y & Hy & Hfst & Hlt & Hpos)].
      * now left.
      * right. exists y. repeat split; auto; lia.
Qed.

(** No point of the range is farther than the maximum found. *)
Lemma scan_points_upper (m : list (list T)) (j : nat) (r : T) (k : nat) :
  forall x, In x m -> a_ltb (fst (scan_pts m j r k)) (d x) = false.
Proof.
  revert j r k. induction m as [|x m IH]; intros j r k y Hy; [contradiction|].
  unfold scan_pts in *. simpl. fold (d x).
  destruct (a_ltb r (d x)) eqn:Hx.
  - destruct Hy as [<-|Hy]; [|now apply IH].
    destruct (scan_points_result m (S j) (d x) j) as [Heq|(z & _ & Hfst & Hlt & _)];
      unfold scan_pts in *.
    + rewrite Heq. apply a_ltb_irrefl.
    + rewrite Hfst. destruct (a_ltb (d z) (d x)) eqn:Hzx; [|reflexivity].
      pose proof (a_ltb_trans _ _ _ Hlt Hzx) as Hc.
      rewrite a_ltb_irrefl in Hc. discriminate.
  - destruct Hy as [<-|Hy]; [|now apply IH].
    destruct (scan_points_result m (S j) r k) as [Heq|(z & _ & Hfst & Hlt & _)];
      unfold scan_pts in *.
    + now rewrite Heq.
    + rewrite Hfst. destruct (a_ltb (d z) (d x)) eqn:Hzx; [|reflexivity].
      pose proof (a_ltb_trans _ _ _ Hlt Hzx) as Hc. congruence.
Qed.

Lemma scan_points_no_update (m : list (list T)) (j : nat) (r : T) (k : nat) :
  (forall x, In x m -> a_ltb r (d x) = false) -> scan_pts m j r k = (r, k).
Proof.
  revert j. induction m as [|x m IH]; intros j Hm; [reflexivity|].
  unfold scan_pts in *. simpl. fold (d x).
  rewrite (Hm x (or_introl eq_refl)). apply IH. intros y Hy. apply Hm. now right.
Qed.

(** When the scan of [before ++ p :: after] ends at the position of [p], the
    distance of [p] is the maximum: it lies above the maximum of [before],
    and no point of [after] lies above it. *)
Lemma scan_points_split (before after : list (list T)) (p : list T) (d_max : T) :
  scan_pts (before ++ p :: after) 1 a_zero 0 = (d_max, S (length before)) ->
  a_ltb (fst (scan_pts before 1 a_zero 0)) (d p) = true /\
  d_max = d p /\
  (forall y, In y after -> a_ltb (d p) (d y) = false).
Proof.
  rewrite scan_points_app.
  set (r1 := fst (scan_pts before 1 a_zero 0)).
  set (k1 := snd (scan_pts before 1 a_zero 0)).
  assert (Hk1 : (k1 < 1 + length before)%nat).
  { destruct (scan_points_result before 1 a_zero 0) as [Heq|(x & _ & _ & _ & Hpos)].
    - unfold k1. rewrite Heq. simpl. lia.
    - exact (proj2 Hpos). }
  unfold scan_pts at 1. simpl. fold (d p) scan_pts.
  destruct (a_ltb r1 (d p)) eqn:Hp; intros Hscan.
  - split; [reflexivity|].
    destruct (scan_points_result after (S (S (length before))) (d p) (S (length before)))
      as [Heq|(x & _ & _ & _ & Hpos)].
    + rewrite Heq in Hscan. injection Hscan as <-. split; [reflexivity|].
      intros y Hy.
      pose proof (scan_points_upper after (S (S (length before))) (d p)
                                    (S (length before)) y Hy) as Hup.
      now rewrite Heq in Hup.
    + rewrite Hscan in Hpos. simpl in Hpos. lia.
  - exfalso.
    destruct (scan_points_result after (S (S (length before))) r1 k1)
      as [Heq|(x & _ & _ & _ & Hpos)].
    + rewrite Heq in Hscan. injection Hscan as _ Hk. lia.
    + rewrite Hscan in Hpos. simpl in Hpos. lia.
Qed.

(** Scanning a selection of the range that keeps [p] ends at [p] again. *)
Lemma scan_points_sub (before after m1 m2 : list (list T)) (p : list T) (d_max : T) :
  incl m1 before -> incl m2 after ->
  scan_pts (before ++ p :: after) 1 a_zero 0 = (d_max, S (length before)) ->
  scan_pts (m1 ++ p :: m2) 1 a_zero 0 = (d_max, S (length m1)).
Proof.
  intros H1 H2 Hscan.
  destruct (scan_points_split _ _ _ _ Hscan) as (Hp & -> & Hafter).
  rewrite scan_points_app.
  assert (Hp' : a_ltb (fst (scan_pts m1 1 a_zero 0)) (d p) = true).
  { assert (Hz : a_ltb a_zero (d p) = true).
    { destruct (scan_points_result before 1 a_zero 0) as [Heq|(x & _ & Hx & Hlt & _)].
      - now rewrite Heq in Hp.
      - rewrite Hx in Hp. eapply a_ltb_trans; eassumption. }
    destruct (scan_points_result m1 1 a_zero 0) as [Heq|(x & Hin & Hx & Hlt & _)].
    - now rewrite Heq.
    - rewrite Hx.
      pose proof (scan_points_upper before 1 a_zero 0 x (H1 x Hin)) as Hup.
      destruct (a_ltb_negtrans _ _ (d x) Hp) as [Hc|Hc]; [|congruence|exact Hc].
      eapply a_ltb_defined; eassumption. }
  unfold scan_pts at 1. simpl. fold (d p) scan_pts. rewrite Hp'.
  apply scan_points_no_update. intros y Hy. apply Hafter, H2, Hy.
Qed.

End ScanPoints.

(** ** Simplifying twice *)

Section Idempotence.
Context {T : Type} `{ArithmeticLaws T}.
Variable Dim : nat.
Variable epsilon : T.

(** A simplification is its own simplification. *)
Lemma simplifies_idempotent (l q : list (list T)) :
  simplifies Dim epsilon l q -> simplifies Dim epsilon q q.
Proof.
  induction 1 as [a mid b Hkeep
                 |a before p after b d_max q1 q2 Hscan Hsplit H1 IH1 H2 IH2].
  - apply (simplifies_keep Dim epsilon a [] b). simpl.
    destruct (scan_points_result Dim a b mid 1 a_zero 0)
      as [Heq|(x & _ & Hfst & Hlt & _)].
    + now rewrite Heq in Hkeep.
    + rewrite Hfst in Hkeep.
      destruct (a_ltb epsilon a_zero) eqn:Heps; [|reflexivity].
      now rewrite (a_ltb_trans _ _ _ Heps Hlt) in Hkeep.
  - destruct (simplifies_shape Dim epsilon _ _ H1 _ _ _ eq_refl)
      as (m1 & Hq1 & Hm1 & _).
    destruct (simplifies_shape Dim epsilon _ _ H2 _ _ _ eq_refl)
      as (m2 & Hq2 & Hm2 & _).
    assert (Hq : removelast q1 ++ q2 = a :: (m1 ++ p :: m2) ++ [b]).
    { rewrite Hq1, Hq2.
      change (a :: m1 ++ [p]) with ((a :: m1) ++ [p]).
      rewrite removelast_last. simpl. now rewrite <- app_assoc. }
    rewrite Hq at 1.
    apply simplifies_split with (d_max := d_max); try assumption.
    + now apply (scan_points_sub Dim a b before after).
    + now rewrite <- Hq1.
    + now rewrite <- Hq2.
Qed.

(** *** A negative [epsilon] *)

Lemma scan_above (fuel : nat) (points : list (list T))
    (start step last idx : Z) (r : T) (k : Z) (r' : T) (k' : Z) :
  scan Dim fuel points start step last idx r k = Done (r', k') ->
  r' = r \/ a_ltb r r' = true.
Proof.
  revert idx r k. induction fuel as [|fuel IH]; intros idx r k; simpl;
    [discriminate|].
  destruct (idx <? last); [|intros [= <- _]; now left].
  destruct (perpendicular Dim points start last idx) as [[d divs]| | |];
    simpl; try discriminate.
  destruct (a_ltb r d) eqn:Hd; intros Hscan; apply IH in Hscan.
  - right. destruct Hscan as [->|Hlt]; [exact Hd|].
    eapply a_ltb_trans; eassumption.
  - exact Hscan.
Qed.

(** With [epsilon] below zero a call returns only through the early
    [return] for ranges of fewer than two points. *)
Lemma rdp_negative_epsilon :
  a_ltb epsilon a_zero = true ->
  forall (fuel : nat) (points out : list (list T)) (start step _end : Z)
         (res : list (list T)),
    rdp Dim fuel points epsilon out start step _end = Done res ->
    res = out /\
    (wrap (last_idx_of (end_idx_of points _end) start step + 1 - start) <? 2) = true.
Proof.
  intros Heps. induction fuel as [|fuel IH];
    intros points out start step _end res; cbn [rdp]; [discriminate|].
  destruct (step =? 0); [discriminate|].
  destruct (wrap (last_idx_of (end_idx_of points _end) start step + 1 - start) <? 2);
    [intros [= <-]; now split|].
  destruct (scan Dim fuel points start step _ _ a_zero 0) as [[d_max d_max_idx]| | |]
    eqn:Hscan; cbn [bind fst snd]; try discriminate.
  assert (Hd : a_ltb epsilon d_max = true).
  { destruct (scan_above _ _ _ _ _ _ _ _ _ _ Hscan) as [->|Hlt]; [exact Heps|].
    eapply a_ltb_trans; eassumption. }
  rewrite Hd.
  destruct (rdp Dim fuel points epsilon [] start step _) as [rec1| | |] eqn:Hrec1;
    cbn [bind]; try discriminate.
  apply IH in Hrec1. destruct Hrec1 as [-> _].
  destruct (rdp Dim fuel points epsilon [] d_max_idx step _); discriminate.
Qed.

End Idempotence.

(** ** More fuel does not change a result *)

Section Fuel.
Context {T : Type} `{Arithmetic T}.
Variable Dim : nat.

Lemma scan_fuel_mono (fuel fuel' : nat) (points : list (list T))
    (start step last idx : Z) (r : T) (k : Z) (res : T * Z) :
  scan Dim fuel points start step last idx r k = Done res ->
  (fuel <= fuel')%nat ->
  scan Dim fuel' points start step last idx r k = Done res.
Proof.
  revert fuel' idx r k. induction fuel as [|fuel IH]; intros fuel' idx r k;
    simpl; [discriminate|].
  intros Hscan Hle. destruct fuel' as [|fuel']; [lia|]. simpl.
  destruct (idx <? last); [|exact Hscan].
  destruct (perpendicular Dim points start last idx) as [[d divs]| | |];
    simpl in *; try discriminate.
  destruct (a_ltb r d); apply IH; solve [assumption|lia].
Qed.

Lemma rdp_fuel_mono (fuel : nat) :
  forall (fuel' : nat) (points : list (list T)) (epsilon : T)
         (out : list (list T)) (start step _end : Z) (res : list (list T)),
    rdp Dim fuel points epsilon out start step _end = Done res ->
    (fuel <= fuel')%nat ->
    rdp Dim fuel' points epsilon out start step _end = Done res.
Proof.
  induction fuel as [|fuel IH];
    intros fuel' points epsilon out start step _end res; cbn [rdp];
    [discriminate|].
  intros Hrdp Hle. destruct fuel' as [|fuel']; [lia|]. cbn [rdp].
  destruct (step =? 0); [discriminate|].
  destruct (wrap (last_idx_of (end_idx_of points _end) start step + 1 - start) <? 2);
    [exact Hrdp|].
  destruct (scan Dim fuel points start step _ _ a_zero 0) as [[d_max d_max_idx]| | |]
    eqn:Hscan; cbn [bind fst snd] in Hrdp; try discriminate.
  rewrite (scan_fuel_mono fuel fuel' _ _ _ _ _ _ _ _ Hscan) by lia.
  cbn [bind fst snd].
  destruct (a_ltb epsilon d_max); [|exact Hrdp].
  destruct (rdp Dim fuel points epsilon [] start step _) as [rec1| | |] eqn:Hrec1;
    cbn [bind] in Hrdp; try discriminate.
  rewrite (IH fuel' _ _ _ _ _ _ _ Hrec1) by lia. cbn [bind].
  destruct (rdp Dim fuel points epsilon [] d_max_idx step _) as [rec2| | |] eqn:Hrec2;
    cbn [bind] in Hrdp; try discriminate.
  rewrite (IH fuel' _ _ _ _ _ _ _ Hrec2) by lia. exact Hrdp.
Qed.

Lemma range_points_all (points : list (list T)) :
  range_points points 0 1 (length points) = points.
Proof.
  unfold range_points.
  rewrite (map_ext _ (fun j => nth j points []))
    by (intros j; f_equal; lia).
  induction points as [|p points IH]; [reflexivity|].
  cbn [length seq map nth]. f_equal.
  rewrite <- seq_shift, map_map. exact IH.
Qed.

(** The default arguments select the whole vector. *)
Lemma selects_all (points : list (list T)) :
  (1 <= length points)%nat -> size points <= INT_MAX ->
  selects points 0 1 (-1) (length points).
Proof.
  intros Hlen Hsz. unfold selects, end_idx_of.
  change (0 <? -1) with false. cbv iota.
  rewrite Z.div_1_r. unfold size in *. repeat split; lia.
Qed.

(** A vector of fewer than two points is left alone. *)
Lemma rdp_all_short (fuel : nat) (points : list (list T)) (epsilon : T) :
  (length points < 2)%nat ->
  rdp_all Dim (S fuel) points epsilon = Done [].
Proof.
  intros Hlen. destruct points as [|p [|p' points]]; [| |simpl in Hlen; lia];
    reflexivity.
Qed.

End Fuel.

(** Whenever the call with the default arguments returns, the call on its
    output returns this output again. *)
Lemma rdp_all_again {T : Type} `{ArithmeticLaws T} (Dim : nat)
    (P : list (list T)) (epsilon : T) (fuel : nat) (out : list (list T)) :
  size P <= INT_MAX ->
  rdp_all Dim fuel P epsilon = Done out ->
  rdp_all Dim (S (length out)) out epsilon = Done out.
Proof.
  intros Hsz Hrdp.
  assert (Hempty : out = [] -> rdp_all Dim (S (length out)) out epsilon = Done out)
    by (intros ->; reflexivity).
  destruct (a_ltb epsilon a_zero) eqn:Heps.
  - (* a negative epsilon: only the early return produces a result *)
    apply Hempty. unfold rdp_all in Hrdp.
    now apply (rdp_negative_epsilon Dim epsilon Heps) in Hrdp.
  - destruct (Nat.lt_ge_cases (length P) 2) as [Hshort|Hlong].
    + apply Hempty. destruct fuel as [|fuel]; [discriminate|].
      rewrite rdp_all_short in Hrdp by assumption. congruence.
    + (* the result is the simplification of P *)
      destruct (exists_last (l := P)) as (P' & b & HP);
        [intros ->; simpl in Hlong; lia|].
      destruct P' as [|a mid]; [subst P; simpl in Hlong; lia|].
      destruct (simplifies_total Dim epsilon Heps (length mid) a b mid (le_n _))
        as (q & Hq).
      simpl in HP. rewrite <- HP in Hq.
      pose proof (rdp_complete Dim epsilon P q Hq P (Nat.max fuel (length P)) [] 0 1 (-1)
                    (selects_all P ltac:(lia) Hsz)
                    (eq_sym (range_points_all P)) (Nat.le_max_r _ _)) as Hfull.
      pose proof (rdp_fuel_mono Dim fuel (Nat.max fuel (length P)) _ _ _ _ _ _ _
                    Hrdp (Nat.le_max_l _ _)) as Hsame.
      unfold rdp_all in *. rewrite Hfull in Hsame. injection Hsame as ->.
      (* and a simplification simplifies to itself *)
      pose proof (simplifies_idempotent Dim epsilon _ _ Hq) as Hidem.
      rewrite HP in Hq.
      destruct (simplifies_shape Dim epsilon _ _ Hq _ _ _ eq_refl)
        as (m & Hout & _ & Hlen).
      assert (Hlen_out : (2 <= length out <= length P)%nat).
      { rewrite Hout, HP. cbn [length]. rewrite !length_app. cbn [length]. lia. }
      apply (rdp_complete Dim epsilon out out Hidem).
      * apply selects_all; [lia|]. unfold size in *. lia.
      * symmetry. apply range_points_all.
      * lia.
Qed.

(** With an [epsilon] that is not below zero the call with the default
    arguments returns. *)
Lemma rdp_all_total {T : Type} `{Arithmetic T} (Dim : nat)
    (P : list (list T)) (epsilon : T) :
  size P <= INT_MAX ->
  a_ltb epsilon a_zero = false ->
  exists out, rdp_all Dim (S (length P)) P epsilon = Done out.
Proof.
  intros Hsz Heps.
  destruct (Nat.lt_ge_cases (length P) 2) as [Hshort|Hlong].
  - exists []. now apply rdp_all_short.
  - destruct (exists_last (l := P)) as (P' & b & HP);
      [intros ->; simpl in Hlong; lia|].
    destruct P' as [|a mid]; [subst P; simpl in Hlong; lia|].
    destruct (simplifies_total Dim epsilon Heps (length mid) a b mid (le_n _))
      as (q & Hq).
    simpl in HP. rewrite <- HP in Hq.
    exists q.
    apply (rdp_complete Dim epsilon P q Hq P (S (length P)) [] 0 1 (-1)
             (selects_all P ltac:(lia) Hsz) (eq_sym (range_points_all P))).
    lia.
Qed.

(** C8: [rdp] is idempotent.  For every point sequence [P] and tolerance
    [epsilon]: whenever the call with the default arguments returns [out],
    the call on [out] with the same [epsilon] returns [out] unchanged; and
    when [epsilon] is not below zero the call on [P] does return. *)
Theorem rdp_idempotent :
  forall (T : Type) (A : Arithmetic T) (L : ArithmeticLaws T) (Dim : nat)
         (P : list (list T)) (epsilon : T),
    size P <= INT_MAX ->
    (forall (fuel : nat) (out : list (list T)),
        rdp_all Dim fuel P epsilon = Done out ->
        rdp_all Dim (S (length out)) out epsilon = Done out) /\
    (a_ltb epsilon a_zero = false ->
     exists out,
       rdp_all Dim (S (length P)) P epsilon = Done out /\
       rdp_all Dim (S (length out)) out epsilon = Done out).
Proof.
  intros T A L Dim P epsilon Hsz. split.
  - intros fuel out. now apply rdp_all_again.
  - intros Heps. destruct (rdp_all_total Dim P epsilon Hsz Heps) as (out & Hout).
    exists out. split; [exact Hout|]. eapply rdp_all_again; eassumption.
Qed.

Lemma sample_polyline_selected : selects sample_polyline 0 1 (-1) 5.
Proof.
  apply (selects_all sample_polyline); [simpl; lia|].
  vm_compute. discriminate.
Qed.

Lemma rdp_keeps_endpoints_witness :
  exists res,
    rdp 2 5 sample_polyline 2%float [] 0 1 (-1) = Done res /\
    hd [] res = [0; 0]%float /\
    last res [] = [4; 0]%float /\
    (2 <= length res <= 5)%nat /\
    res = [[0; 0]; [4; 0]]%float.
Proof.
  destruct (rdp_keeps_endpoints float double_Arithmetic 2 sample_polyline 2%float []
              0 1 (-1) 5 5 eq_refl sample_polyline_selected)
    as (res & Hrun & Hhd & Hlast & Hlen & Hwithin); [lia|lia|].
  exists res. repeat split; try assumption; try apply Hlen.
  apply Hwithin. intros j Hj.
  destruct j as [|[|[|[|j]]]]; try lia; vm_compute; reflexivity.
Defined.

(** With a negative [epsilon] the call on two points never returns: the
    maximum distance [0] exceeds [epsilon] although no point was found, and
    the second recursive call is the call itself. *)
Lemma rdp_negative_epsilon_no_output :
  ~ exists (fuel : nat) (res : list (list float)),
      rdp_all 2 fuel sample_segment (-1)%float = Done res.
Proof.
  intros (fuel & res & Hrdp).
  assert (Heps : a_ltb (-1)%float a_zero = true) by (vm_compute; reflexivity).
  apply (rdp_negative_epsilon 2 (-1)%float Heps) in Hrdp.
  destruct Hrdp as [_ Hrange]. vm_compute in Hrange. discriminate.
Qed.

(** The claim for every [epsilon] and for the distance from the line fails
    twice.  With [epsilon = -1] the call on two points returns nothing.
    And the five points of [sample_collinear] lie exactly on the line
    [y = x], all of them within 0 of the line through the end points, yet
    with [epsilon = 0] all five are kept: the distances the loop computes
    for the interior points are rounding residues of about [1e-17], above
    zero. *)
Lemma rdp_keeps_endpoints_fails :
  (~ exists (fuel : nat) (res : list (list float)),
       rdp_all 2 fuel sample_segment (-1)%float = Done res) /\
  Forall (fun p => nth 0 p 0%float = nth 1 p 0%float) sample_collinear /\
  rdp_all 2 6 sample_collinear 0%float = Done sample_collinear.
Proof.
  split; [exact rdp_negative_epsilon_no_output|]. split.
  - repeat constructor.
  - vm_compute. reflexivity.
Qed.

Lemma rdp_idempotent_witness :
  exists out,
    rdp_all 2 (S (length sample_polyline)) sample_polyline 0.5%float = Done out /\
    rdp_all 2 (S (length out)) out 0.5%float = Done out.
Proof.
  apply (rdp_idempotent float double_Arithmetic double_ArithmeticLaws 2
           sample_polyline 0.5%float).
  - vm_compute. discriminate.
  - reflexivity.
Defined.

(** ** Division in the distance computation *)

Section Normalisation.
Context {T : Type} `{Arithmetic T}.
Variable Dim : nat.

(** Every division of the normalisation divides by a magnitude above zero. *)
Lemma normalise_divisors (delta : list T) :
  Forall (fun mag => a_ltb a_zero mag = true) (snd (normalise Dim delta)).
Proof.
  unfold normalise. destruct (a_ltb a_zero (norm Dim delta)) eqn:Hmag; simpl.
  - apply Forall_forall. intros mag Hin. apply in_map_iff in Hin.
    now destruct Hin as (dim & <- & _).
  - constructor.
Qed.

Lemma perpendicular_divisors (points : list (list T)) (start last idx : Z)
    (d : T) (divisors : list T) :
  perpendicular Dim points start last idx = Done (d, divisors) ->
  Forall (fun mag => a_ltb a_zero mag = true) divisors.
Proof.
  unfold perpendicular.
  destruct (difference_at Dim points last start) as [delta| | |];
    simpl; try discriminate.
  pose proof (normalise_divisors delta) as Hdiv.
  destruct (normalise Dim delta) as [delta' divs].
  destruct (difference_at Dim points idx start) as [pv| | |];
    simpl; try discriminate.
  intros [= _ <-]. exact Hdiv.
Qed.

Lemma fold_left_fixed {A B : Type} (f : A -> B -> A) (l : list B) (a : A) :
  (forall b, In b l -> f a b = a) -> fold_left f l a = a.
Proof.
  induction l as [|b l IH]; intros Hf; simpl; [reflexivity|].
  rewrite (Hf b (or_introl eq_refl)). apply IH. intros b' Hb'. apply Hf. now right.
Qed.

(** A direction vector of zeros has magnitude zero and is not divided. *)
Lemma normalise_zero :
  a_add a_zero (a_sqr a_zero) = a_zero ->
  a_sqrt a_zero = a_zero ->
  a_ltb a_zero a_zero = false ->
  normalise Dim (repeat a_zero Dim) = (repeat a_zero Dim, []).
Proof.
  intros Hadd Hsqrt Hlt. unfold normalise, norm.
  rewrite fold_left_fixed.
  - now rewrite Hsqrt, Hlt.
  - intros dim _. unfold coord. now rewrite nth_repeat.
Qed.

End Normalisation.

Lemma double_positive_nonzero (mag : float) :
  (0 <? mag)%float = true ->
  (mag =? 0)%float = false /\ PrimFloat.is_nan mag = false.
Proof.
  unfold PrimFloat.is_nan. rewrite ltb_spec, !eqb_spec.
  change (Prim2SF 0) with (S754_zero false).
  unfold SFltb, SFeqb, SFcompare. destruct (Prim2SF mag); sf_cases.
  all: split; try reflexivity; try discriminate.
  all: destruct s; try discriminate; rewrite ?Z.compare_refl, ?Pos.compare_cont_refl; reflexivity.
Qed.

(** ** Division of binary64 numbers *)

Lemma shr_1_nonneg (mrs : shr_record) : 0 <= shr_m mrs -> 0 <= shr_m (shr_1 mrs).
Proof.
  destruct mrs as [m r s]. simpl. destruct m as [|p|p]; [|destruct p|]; simpl; lia.
Qed.

Lemma iter_pos_preserves {A : Type} (P : A -> Prop) (f : A -> A) :
  (forall x, P x -> P (f x)) -> forall p x, P x -> P (SpecFloat.iter_pos f p x).
Proof.
  intros Hf. induction p as [p IH|p IH|]; intros x Hx; simpl; auto.
Qed.

Lemma shr_fexp_nonneg (prec emax m e : Z) (l : location) :
  0 <= m -> 0 <= shr_m (fst (shr_fexp prec emax m e l)).
Proof.
  intros Hm. unfold shr_fexp, shr.
  assert (Hrec : 0 <= shr_m (shr_record_of_loc m l))
    by (destruct l as [|[| |]]; exact Hm).
  destruct (fexp prec emax (Zdigits2 m + e) - e) as [|p|p]; simpl; try exact Hrec.
  apply (iter_pos_preserves (fun mrs => 0 <= shr_m mrs)); [|exact Hrec].
  exact shr_1_nonneg.
Qed.

Lemma round_nearest_even_nonneg (m : Z) (l : location) :
  0 <= m -> 0 <= round_nearest_even m l.
Proof.
  intros Hm. unfold round_nearest_even.
  destruct l as [|[| |]]; try destruct (Z.even m); lia.
Qed.

Lemma binary_round_aux_not_nan (prec emax : Z) (s : bool) (m e : Z) (l : location) :
  0 <= m -> binary_round_aux prec emax s m e l <> S754_nan.
Proof.
  intros Hm. unfold binary_round_aux.
  pose proof (shr_fexp_nonneg prec emax m e l Hm) as H1.
  destruct (shr_fexp prec emax m e l) as [mrs' e']. simpl in H1.
  pose proof (shr_fexp_nonneg prec emax _ e' loc_Exact
                (round_nearest_even_nonneg _ (loc_of_shr_record mrs') H1)) as H2.
  destruct (shr_fexp prec emax _ e' loc_Exact) as [mrs'' e'']. simpl in H2.
  destruct (shr_m mrs'') as [|p|p]; try discriminate; [|lia].
  destruct (e'' <=? emax - prec); discriminate.
Qed.

(** A quotient is a NaN only for a NaN operand, for two infinities or for two
    zeros. *)
Lemma SFdiv_not_nan (prec emax : Z) (x y : spec_float) :
  SFltb (S754_zero false) y = true ->
  SFltb (S754_infinity true) x = true ->
  SFltb x (S754_infinity false) = true ->
  SFdiv prec emax x y <> S754_nan.
Proof.
  intros Hy Hlo Hhi.
  destruct x as [sx|sx| |sx mx ex]; try (destruct sx; discriminate);
    destruct y as [sy|sy| |sy my ey]; try discriminate.
  unfold SFdiv, SFdiv_core_binary.
  set (e' := Z.min _ _). set (m' := match (ex - ey - e') with 0 => _ | _ => _ end).
  assert (Hm' : 0 <= m').
  { unfold m'. destruct (ex - ey - e'); try lia. apply Z.shiftl_nonneg. lia. }
  pose proof (Z.div_pos m' (Z.pos my) Hm' ltac:(lia)) as Hq.
  unfold Z.div in Hq. destruct (Z.div_eucl m' (Z.pos my)) as [q r].
  now apply binary_round_aux_not_nan.
Qed.

Lemma double_not_nan (x : float) :
  Prim2SF x <> S754_nan -> PrimFloat.is_nan x = false.
Proof.
  intros Hx. unfold PrimFloat.is_nan. rewrite eqb_spec.
  unfold SFeqb, SFcompare. destruct (Prim2SF x) as [s|s| |s m e].
  - reflexivity.
  - destruct s; reflexivity.
  - contradiction.
  - destruct s; rewrite Z.compare_refl, Pos.compare_cont_refl; reflexivity.
Qed.

Lemma double_finite_not_nan (x : float) :
  double_finite x = true -> PrimFloat.is_nan x = false.
Proof.
  unfold double_finite. intros Hx. apply andb_prop in Hx. destruct Hx as [Hlo _].
  apply double_not_nan. rewrite ltb_spec in Hlo. intros Hnan.
  rewrite Hnan in Hlo. discriminate.
Qed.

(** Dividing a finite number by a positive one never gives a NaN. *)
Lemma double_div_not_nan (x mag : float) :
  double_finite x = true -> (0 <? mag)%float = true ->
  PrimFloat.is_nan (x / mag)%float = false.
Proof.
  unfold double_finite. intros Hx Hmag.
  apply andb_prop in Hx. destruct Hx as [Hlo Hhi].
  rewrite ltb_spec in Hlo, Hhi, Hmag.
  apply double_not_nan. rewrite div_spec.
  now apply SFdiv_not_nan.
Qed.

(** The normalised direction has no NaN component when the direction has
    finite components. *)
Lemma normalise_not_nan (Dim : nat) (delta : list float) :
  Forall (fun c => double_finite c = true) delta ->
  Forall (fun c => PrimFloat.is_nan c = false) (fst (normalise Dim delta)).
Proof.
  intros Hfinite. unfold normalise.
  destruct (a_ltb a_zero (norm Dim delta)) eqn:Hmag; cbn [fst].
  - apply Forall_forall. intros c Hc. apply in_map_iff in Hc.
    destruct Hc as (dim & <- & _).
    apply double_div_not_nan; [|exact Hmag].
    unfold coord. destruct (nth_in_or_default dim delta a_zero) as [Hin | Heq].
    + rewrite Forall_forall in Hfinite. now apply Hfinite.
    + rewrite Heq. reflexivity.
  - eapply Forall_impl; [|exact Hfinite].
    intros c Hc. now apply double_finite_not_nan.
Qed.

(** C7, amended: in the distance computation of [rdp] on [double]s every
    division divides by a magnitude that is above zero, hence neither zero
    nor a NaN, so no division by zero occurs; with indices inside the vector
    the computation returns a distance; for a zero-length direction vector
    (coincident end points) no division is performed at all; and when the
    components of the direction vector are finite, no component of the
    normalised direction is a NaN. *)
Theorem rdp_normalises_positive_magnitude_only :
  forall (Dim : nat) (points : list (list float)) (start_idx last_idx idx : Z),
    (forall d divisors,
        perpendicular Dim points start_idx last_idx idx = Done (d, divisors) ->
        Forall (fun mag => (0 <? mag)%float = true /\
                           (mag =? 0)%float = false /\
                           PrimFloat.is_nan mag = false) divisors) /\
    (0 <= start_idx < size points -> 0 <= last_idx < size points ->
     0 <= idx < size points ->
     let delta := difference Dim (nth (Z.to_nat last_idx) points [])
                             (nth (Z.to_nat start_idx) points []) in
     (exists d,
         perpendicular Dim points start_idx last_idx idx
         = Done (d, snd (normalise Dim delta))) /\
     (delta = repeat 0%float Dim -> snd (normalise Dim delta) = []) /\
     (Forall (fun c => double_finite c = true) delta ->
      Forall (fun c => PrimFloat.is_nan c = false) (fst (normalise Dim delta)))).
Proof.
  intros Dim points start last idx. split.
  - intros d divisors Hperp.
    apply perpendicular_divisors in Hperp.
    rewrite Forall_forall in *. intros mag Hmag.
    specialize (Hperp mag Hmag). split; [exact Hperp|].
    now apply double_positive_nonzero.
  - intros Hs Hl Hi delta. split; [|split].
    + rewrite (perpendicular_valid Dim points (proj1 Hs) (proj1 Hl) (proj1 Hi)
                 (nth_error_nth_valid points Hs) (nth_error_nth_valid points Hl)
                 (nth_error_nth_valid points Hi)).
      eauto.
    + intros Hzero. rewrite Hzero.
      assert (Hadd : a_add (a_zero : float) (a_sqr a_zero) = a_zero) by reflexivity.
      assert (Hsqrt : a_sqrt (a_zero : float) = a_zero) by reflexivity.
      assert (Hlt : a_ltb (a_zero : float) a_zero = false) by reflexivity.
      change 0%float with (a_zero : float).
      now rewrite (normalise_zero Dim Hadd Hsqrt Hlt).
    + apply normalise_not_nan.
Qed.

Lemma rdp_normalises_positive_magnitude_only_witness :
  Forall (fun mag => (0 <? mag)%float = true /\
                     (mag =? 0)%float = false /\
                     PrimFloat.is_nan mag = false) [4; 4]%float /\
  (exists d, perpendicular 2 sample_loop 0 2 1 = Done (d, [])) /\
  Forall (fun c => PrimFloat.is_nan c = false) [1; 0]%float.
Proof.
  split; [|split].
  - apply (proj1 (rdp_normalises_positive_magnitude_only 2 sample_polyline 0 4 2)
             2%float).
    vm_compute. reflexivity.
  - destruct (proj2 (rdp_normalises_positive_magnitude_only 2 sample_loop 0 2 1))
      as ((d & Hd) & Hzero & _);
      try (vm_compute; split; [discriminate|reflexivity]).
    exists d. rewrite Hd. rewrite Hzero; reflexivity.
  - destruct (proj2 (rdp_normalises_positive_magnitude_only 2 sample_polyline 0 4 2))
      as (_ & _ & Hnan);
      try (vm_compute; split; [discriminate|reflexivity]).
    apply Hnan. repeat constructor.
Defined.

(** When the subtraction of the end points overflows, the magnitude is
    infinite, the guard [mag > 0.0] passes, and the division of infinity by
    infinity makes the direction, and with it the distance, a NaN. *)
Lemma rdp_division_overflow :
  perpendicular 2 sample_far 0 2 1 = Done (nan, [infinity; infinity]) /\
  fst (normalise 2 (difference 2 [0x1p1023; 0]%float [-0x1p1023; 0]%float))
    = [nan; 0%float].
Proof. split; vm_compute; reflexivity. Qed.

(** ** The smallest and the largest element *)

Lemma nth_error_app_l {A : Type} (pre l : list A) (i : nat) (a : A) :
  nth_error pre i = Some a -> nth_error (pre ++ l) i = Some a.
Proof.
  intros Hi. rewrite nth_error_app1; [exact Hi|].
  apply nth_error_Some. congruence.
Qed.

Lemma nth_error_app_mid {A : Type} (pre l : list A) (x : A) :
  nth_error (pre ++ x :: l) (length pre) = Some x.
Proof. rewrite nth_error_app2, Nat.sub_diag by lia. reflexivity. Qed.

Section MinMax.
Context {T : Type} `{ArithmeticLaws T} {A : Type}.
Variable key : A -> T.

Let comp (x y : A) : bool := a_ltb (key x) (key y).
Let below (x y : A) : Prop := a_ltb (key x) (key y) = true.

(** What the scan knows of the elements [pre] it has seen: [lo] and [hi] are
    positions of [pre], no element of [pre] is below [lo], and [hi] is below
    none. *)
Let seen (pre : list A) (lo hi : nat * A) : Prop :=
  nth_error pre (fst lo) = Some (snd lo) /\
  nth_error pre (fst hi) = Some (snd hi) /\
  (forall z, In z pre -> a_ltb (key z) (key (snd lo)) = false) /\
  (forall z, In z pre -> a_ltb (key (snd hi)) (key z) = false).

Lemma ltb_chain (x y z : T) :
  a_ltb x y = true -> a_ltb z y = false -> a_ltb z x = false.
Proof.
  intros Hxy Hzy. destruct (a_ltb z x) eqn:Hzx; [|reflexivity].
  rewrite (a_ltb_trans _ _ _ Hzx Hxy) in Hzy. discriminate.
Qed.

Lemma ltb_chain' (x y z : T) :
  a_ltb x y = true -> a_ltb x z = false -> a_ltb y z = false.
Proof.
  intros Hxy Hxz. destruct (a_ltb y z) eqn:Hyz; [|reflexivity].
  rewrite (a_ltb_trans _ _ _ Hxy Hyz) in Hxz. discriminate.
Qed.

Lemma ltb_between (x y z : T) :
  a_defined y -> a_ltb x y = false -> a_ltb y z = false -> a_ltb x z = false.
Proof.
  intros Hy Hxy Hyz. destruct (a_ltb x z) eqn:Hxz; [|reflexivity].
  destruct (a_ltb_negtrans _ _ y Hxz Hy); congruence.
Qed.

Lemma a_ltb_asym (x y : T) : a_ltb x y = true -> a_ltb y x = false.
Proof.
  intros Hxy. destruct (a_ltb y x) eqn:Hyx; [|reflexivity].
  pose proof (a_ltb_trans _ _ _ Hxy Hyx) as Hxx.
  rewrite a_ltb_irrefl in Hxx. discriminate.
Qed.

(** One step of the scan on the pair [x], [y]. *)
Lemma seen_pair (pre : list A) (lo hi : nat * A) (x y : A) :
  seen pre lo hi ->
  (forall z, In z (pre ++ [x; y]) -> a_defined (key z)) ->
  seen (pre ++ [x; y])
       (if comp y x
        then (if comp y (snd lo) then (S (length pre), y) else lo)
        else (if comp x (snd lo) then (length pre, x) else lo))
       (if comp y x
        then (if negb (comp x (snd hi)) then (length pre, x) else hi)
        else (if negb (comp y (snd hi)) then (S (length pre), y) else hi)).
Proof.
  intros (Hlo & Hhi & Hmin & Hmax) Hdef. unfold comp.
  assert (Hx : nth_error (pre ++ [x; y]) (length pre) = Some x)
    by apply nth_error_app_mid.
  assert (Hy : nth_error (pre ++ [x; y]) (S (length pre)) = Some y).
  { replace (pre ++ [x; y]) with ((pre ++ [x]) ++ [y]) by (now rewrite <- app_assoc).
    replace (S (length pre)) with (length (pre ++ [x]))
      by (rewrite length_app; simpl; lia).
    apply nth_error_app_mid. }
  pose proof (nth_error_app_l pre [x; y] _ _ Hlo) as Hlo'.
  pose proof (nth_error_app_l pre [x; y] _ _ Hhi) as Hhi'.
  assert (Hdlo : a_defined (key (snd lo))).
  { apply Hdef, in_app_iff. left. eapply nth_error_In; eassumption. }
  assert (Hdhi : a_defined (key (snd hi))).
  { apply Hdef, in_app_iff. left. eapply nth_error_In; eassumption. }
  assert (Hdx : a_defined (key x)) by (apply Hdef, in_app_iff; right; now left).
  assert (Hdy : a_defined (key y)) by (apply Hdef, in_app_iff; right; right; now left).
  unfold seen.
  destruct (a_ltb (key y) (key x)) eqn:Hyx;
    [destruct (a_ltb (key y) (key (snd lo))) eqn:Hylo;
     destruct (a_ltb (key x) (key (snd hi))) eqn:Hxhi
    |destruct (a_ltb (key x) (key (snd lo))) eqn:Hxlo;
     destruct (a_ltb (key y) (key (snd hi))) eqn:Hyhi];
    cbn [negb fst snd];
    (split; [assumption|split; [assumption|split]]);
    intros z Hz; apply in_app_iff in Hz;
    destruct Hz as [Hz|[<-|[<-|[]]]];
    try apply a_ltb_irrefl;
    try (apply Hmin; exact Hz); try (apply Hmax; exact Hz);
    try assumption;
    try (apply a_ltb_asym; assumption);
    eauto using ltb_chain, ltb_chain', ltb_between, a_ltb_asym.
Qed.

Lemma minmax_from_spec (n : nat) :
  forall (l pre : list A) (lo hi : nat * A),
    (length l <= n)%nat ->
    seen pre lo hi ->
    (forall z, In z (pre ++ l) -> a_defined (key z)) ->
    exists vmin vmax,
      nth_error (pre ++ l)
                (fst (StdAlgorithm.minmax_from comp l (length pre) lo hi))
      = Some vmin /\
      nth_error (pre ++ l)
                (snd (StdAlgorithm.minmax_from comp l (length pre) lo hi))
      = Some vmax /\
      (forall z, In z (pre ++ l) -> a_ltb (key z) (key vmin) = false) /\
      (forall z, In z (pre ++ l) -> a_ltb (key vmax) (key z) = false).
Proof.
  induction n as [n IH] using lt_wf_ind.
  intros l pre lo hi Hlen Hseen Hdef.
  destruct l as [|x [|y l]].
  - destruct Hseen as (Hlo & Hhi & Hmin & Hmax).
    rewrite app_nil_r in *. exists (snd lo), (snd hi). auto.
  - destruct Hseen as (Hlo & Hhi & Hmin & Hmax).
    pose proof (nth_error_app_mid pre [] x) as Hx.
    pose proof (nth_error_app_l pre [x] _ _ Hlo) as Hlo'.
    pose proof (nth_error_app_l pre [x] _ _ Hhi) as Hhi'.
    assert (Hinlo : In (snd lo) pre) by (eapply nth_error_In; eassumption).
    assert (Hdhi : a_defined (key (snd hi))).
    { apply Hdef, in_app_iff. left. eapply nth_error_In; eassumption. }
    cbn [StdAlgorithm.minmax_from]. unfold comp.
    destruct (a_ltb (key x) (key (snd lo))) eqn:Hxlo;
      [|destruct (a_ltb (key x) (key (snd hi))) eqn:Hxhi]; cbn [negb fst snd].
    + exists x, (snd hi). repeat split; try assumption;
        intros z Hz; apply in_app_iff in Hz; destruct Hz as [Hz|[<-|[]]];
        try apply a_ltb_irrefl; try (apply Hmax; exact Hz).
      * eapply ltb_chain; [exact Hxlo|now apply Hmin].
      * eapply ltb_chain; [exact Hxlo|now apply Hmax].
    + exists (snd lo), (snd hi). repeat split; try assumption;
        intros z Hz; apply in_app_iff in Hz; destruct Hz as [Hz|[<-|[]]];
        try (apply Hmin; exact Hz); try (apply Hmax; exact Hz); try assumption.
      now apply a_ltb_asym.
    + exists (snd lo), x. repeat split; try assumption;
        intros z Hz; apply in_app_iff in Hz; destruct Hz as [Hz|[<-|[]]];
        try apply a_ltb_irrefl; try (apply Hmin; exact Hz); try assumption.
      eapply ltb_between; [exact Hdhi|exact Hxhi|now apply Hmax].
  - assert (Hfull : pre ++ x :: y :: l = (pre ++ [x; y]) ++ l)
      by (now rewrite <- app_assoc).
    assert (Hpre : S (S (length pre)) = length (pre ++ [x; y]))
      by (rewrite length_app; simpl; lia).
    pose proof (seen_pair pre lo hi x y Hseen) as Hstep.
    cbn [StdAlgorithm.minmax_from]. rewrite Hfull, Hpre in *.
    simpl in Hlen.
    fold (comp y x) (comp y (snd lo)) (comp x (snd hi))
         (comp x (snd lo)) (comp y (snd hi)) in *.
    destruct (comp y x);
      apply (IH (length l)); try lia; try assumption;
      apply Hstep; intros z Hz; apply Hdef, in_app_iff; now left.
Qed.

(** On a non-empty vector [std::minmax_element] finds positions inside the
    vector, of an element that none is below and of one that is below none. *)
Lemma minmax_element_spec (v : list A) :
  v <> [] ->
  (forall y, In y v -> a_defined (key y)) ->
  exists vmin vmax,
    nth_error v (fst (StdAlgorithm.minmax_element comp v)) = Some vmin /\
    nth_error v (snd (StdAlgorithm.minmax_element comp v)) = Some vmax /\
    (forall y, In y v -> a_leb (key vmin) (key y) = true) /\
    (forall y, In y v -> a_leb (key y) (key vmax) = true).
Proof.
  intros Hne Hdef.
  assert (Hbounds : exists vmin vmax,
             nth_error v (fst (StdAlgorithm.minmax_element comp v)) = Some vmin /\
             nth_error v (snd (StdAlgorithm.minmax_element comp v)) = Some vmax /\
             (forall z, In z v -> a_ltb (key z) (key vmin) = false) /\
             (forall z, In z v -> a_ltb (key vmax) (key z) = false)).
  { destruct v as [|x [|y v]]; [contradiction| |].
    - exists x, x. repeat split; intros z [<-|[]]; apply a_ltb_irrefl.
    - unfold StdAlgorithm.minmax_element.
      destruct (comp y x) eqn:Hyx; unfold comp in Hyx;
        apply (minmax_from_spec (length v) v [x; y]); try lia; try assumption;
        unfold seen; cbn [fst snd nth_error];
        (repeat split; try reflexivity);
        intros z [<-|[<-|[]]];
        try apply a_ltb_irrefl; try assumption; now apply a_ltb_asym. }
  destruct Hbounds as (vmin & vmax & Hlo & Hhi & Hmin & Hmax).
  exists vmin, vmax. repeat split; try assumption.
  - intros y Hy. rewrite a_leb_ltb.
    + now rewrite Hmin.
    + apply Hdef. eapply nth_error_In; eassumption.
    + now apply Hdef.
  - intros y Hy. rewrite a_leb_ltb.
    + now rewrite Hmax.
    + now apply Hdef.
    + apply Hdef. eapply nth_error_In; eassumption.
Qed.

End MinMax.

Lemma double_defined (x : float) :
  PrimFloat.is_nan x = false <-> a_defined x.
Proof.
  unfold a_defined, PrimFloat.is_nan. cbn [a_leb double_Arithmetic].
  rewrite eqb_spec, leb_spec.
  unfold SFeqb, SFleb, SFcompare. destruct (Prim2SF x); sf_cases.
  all: try (destruct s); simpl;
    rewrite ?Z.compare_refl, ?Pos.compare_cont_refl; simpl; intuition congruence.
Qed.

(** The positions [std::minmax_element] returns for a non-empty vector lie
    inside it, whatever the comparison. *)
Lemma minmax_from_valid {A : Type} (comp : A -> A -> bool) (n : nat) :
  forall (l pre : list A) (lo hi : nat * A),
    (length l <= n)%nat ->
    nth_error pre (fst lo) = Some (snd lo) ->
    nth_error pre (fst hi) = Some (snd hi) ->
    exists vmin vmax,
      nth_error (pre ++ l)
                (fst (StdAlgorithm.minmax_from comp l (length pre) lo hi))
      = Some vmin /\
      nth_error (pre ++ l)
                (snd (StdAlgorithm.minmax_from comp l (length pre) lo hi))
      = Some vmax.
Proof.
  induction n as [n IH] using lt_wf_ind.
  intros l pre lo hi Hlen Hlo Hhi.
  destruct l as [|x [|y l]].
  - rewrite app_nil_r. simpl. eauto.
  - pose proof (nth_error_app_mid pre [] x) as Hx.
    pose proof (nth_error_app_l pre [x] _ _ Hlo) as Hlo'.
    pose proof (nth_error_app_l pre [x] _ _ Hhi) as Hhi'.
    cbn [StdAlgorithm.minmax_from].
    destruct (comp x (snd lo)); [|destruct (comp x (snd hi))];
      cbn [negb fst snd]; eauto.
  - assert (Hfull : pre ++ x :: y :: l = (pre ++ [x; y]) ++ l)
      by (now rewrite <- app_assoc).
    assert (Hpre : S (S (length pre)) = length (pre ++ [x; y]))
      by (rewrite length_app; simpl; lia).
    assert (Hx : nth_error (pre ++ [x; y]) (length pre) = Some x)
      by apply nth_error_app_mid.
    assert (Hy : nth_error (pre ++ [x; y]) (S (length pre)) = Some y).
    { replace (pre ++ [x; y]) with ((pre ++ [x]) ++ [y]) by (now rewrite <- app_assoc).
      replace (S (length pre)) with (length (pre ++ [x]))
        by (rewrite length_app; simpl; lia).
      apply nth_error_app_mid. }
    pose proof (nth_error_app_l pre [x; y] _ _ Hlo) as Hlo'.
    pose proof (nth_error_app_l pre [x; y] _ _ Hhi) as Hhi'.
    cbn [StdAlgorithm.minmax_from]. rewrite Hfull, Hpre.
    simpl in Hlen.
    destruct (comp y x);
      apply (IH (length l)); try lia;
      repeat match goal with
             | |- context [if ?c then _ else _] => destruct c
             end; cbn [negb fst snd]; assumption.
Qed.

Lemma minmax_element_valid {A : Type} (comp : A -> A -> bool) (v : list A) :
  v <> [] ->
  exists vmin vmax,
    nth_error v (fst (StdAlgorithm.minmax_element comp v)) = Some vmin /\
    nth_error v (snd (StdAlgorithm.minmax_element comp v)) = Some vmax.
Proof.
  intros Hne. destruct v as [|x [|y v]]; [contradiction| |].
  - exists x, x. split; reflexivity.
  - unfold StdAlgorithm.minmax_element.
    destruct (comp y x);
      apply (minmax_from_valid comp (length v) v [x; y]); try lia; reflexivity.
Qed.

(** C10, amended: [get_bbox_for_s_values] is defined on non-empty sample
    lists only.  On an empty list it dereferences the end iterators that
    [std::minmax_element] returns, which is undefined.  On a non-empty list
    it returns a box whose corner coordinates are coordinates of projected
    samples, and when no projected coordinate is a NaN the [min] and [max]
    of the box are the componentwise minima and maxima of the projected
    points. *)
Theorem get_bbox_for_s_values_needs_samples :
  forall (S : Type) (get_xyz : S -> Vec2D),
    get_bbox_for_s_values [] get_xyz = Undefined /\
    (forall s_values : list S,
        s_values <> [] ->
        exists box,
          get_bbox_for_s_values s_values get_xyz = Done box /\
          (exists s, In s s_values /\ fst (box_min box) = fst (get_xyz s)) /\
          (exists s, In s s_values /\ fst (box_max box) = fst (get_xyz s)) /\
          (exists s, In s s_values /\ snd (box_min box) = snd (get_xyz s)) /\
          (exists s, In s s_values /\ snd (box_max box) = snd (get_xyz s))) /\
    (forall (s_values : list S) (box : Box2D),
        get_bbox_for_s_values s_values get_xyz = Done box ->
        (forall s, In s s_values ->
                   PrimFloat.is_nan (fst (get_xyz s)) = false /\
                   PrimFloat.is_nan (snd (get_xyz s)) = false) ->
        forall s, In s s_values ->
                  (fst (box_min box) <=? fst (get_xyz s))%float = true /\
                  (fst (get_xyz s) <=? fst (box_max box))%float = true /\
                  (snd (box_min box) <=? snd (get_xyz s))%float = true /\
                  (snd (get_xyz s) <=? snd (box_max box))%float = true).
Proof.
  intros S get_xyz. split; [reflexivity|]. split.
  - intros s_values Hne.
    set (points := map get_xyz s_values).
    assert (Hpne : points <> [])
      by (unfold points; destruct s_values; [contradiction|discriminate]).
    assert (Hsample : forall p, In p points ->
                                exists s, In s s_values /\ p = get_xyz s).
    { intros p Hp. apply in_map_iff in Hp. destruct Hp as (s & <- & Hs). eauto. }
    destruct (minmax_element_valid
                (fun lhs rhs : Vec2D => (fst lhs <? fst rhs)%float) points Hpne)
      as (xmin & xmax & Hxlo & Hxhi).
    destruct (minmax_element_valid
                (fun lhs rhs : Vec2D => (snd lhs <? snd rhs)%float) points Hpne)
      as (ymin & ymax & Hylo & Hyhi).
    exists (Box2D_of (fst xmin, snd ymin) (fst xmax, snd ymax)).
    split.
    + unfold get_bbox_for_s_values, StdAlgorithm.deref. cbv zeta. fold points.
      rewrite Hxlo, Hylo, Hxhi, Hyhi. reflexivity.
    + cbn [Box2D_of box_min box_max fst snd]. repeat split.
      * destruct (Hsample xmin (nth_error_In _ _ Hxlo)) as (s & Hs & ->). eauto.
      * destruct (Hsample xmax (nth_error_In _ _ Hxhi)) as (s & Hs & ->). eauto.
      * destruct (Hsample ymin (nth_error_In _ _ Hylo)) as (s & Hs & ->). eauto.
      * destruct (Hsample ymax (nth_error_In _ _ Hyhi)) as (s & Hs & ->). eauto.
  - intros s_values box Hbox Hnan s Hs.
    set (points := map get_xyz s_values) in *.
    assert (Hpne : points <> [])
      by (unfold points; destruct s_values; [contradiction|discriminate]).
    assert (Hdefx : forall p, In p points -> a_defined (fst p)).
    { intros p Hp. apply in_map_iff in Hp. destruct Hp as (s' & <- & Hs').
      apply double_defined, Hnan, Hs'. }
    assert (Hdefy : forall p, In p points -> a_defined (snd p)).
    { intros p Hp. apply in_map_iff in Hp. destruct Hp as (s' & <- & Hs').
      apply double_defined, Hnan, Hs'. }
    destruct (minmax_element_spec (T := float) (fst : Vec2D -> float) points Hpne Hdefx)
      as (xmin & xmax & Hxlo & Hxhi & Hxmin & Hxmax).
    destruct (minmax_element_spec (T := float) (snd : Vec2D -> float) points Hpne Hdefy)
      as (ymin & ymax & Hylo & Hyhi & Hymin & Hymax).
    cbn [a_ltb a_leb double_Arithmetic] in *.
    unfold get_bbox_for_s_values, StdAlgorithm.deref in Hbox. cbv zeta in Hbox.
    fold points in Hbox.
    rewrite Hxlo, Hylo, Hxhi, Hyhi in Hbox. cbn [bind] in Hbox.
    injection Hbox as <-. cbn [Box2D_of box_min box_max fst snd].
    assert (Hp : In (get_xyz s) points) by (now apply in_map).
    repeat split; auto.
Qed.

Lemma get_bbox_for_s_values_needs_samples_witness :
  get_bbox_for_s_values (@nil float) sample_curve = Undefined /\
  exists box,
    get_bbox_for_s_values sample_s_values sample_curve = Done box /\
    box_min box = (0, 0)%float /\ box_max box = (3, 4)%float /\
    (forall s, In s sample_s_values ->
               (fst (box_min box) <=? fst (sample_curve s))%float = true /\
               (fst (sample_curve s) <=? fst (box_max box))%float = true /\
               (snd (box_min box) <=? snd (sample_curve s))%float = true /\
               (snd (sample_curve s) <=? snd (box_max box))%float = true).
Proof.
  destruct (get_bbox_for_s_values_needs_samples float sample_curve)
    as (Hempty & Hsome & Hbounds).
  split; [exact Hempty|].
  destruct (Hsome sample_s_values) as (box & Hbox & _); [discriminate|].
  exists box. split; [exact Hbox|].
  pose proof (Hbounds sample_s_values box Hbox) as Hb.
  vm_compute in Hbox. injection Hbox as <-.
  repeat split; try reflexivity; apply Hb; try assumption.
  all: intros s' Hs'; simpl in Hs';
    repeat (destruct Hs' as [<-|Hs']; [split; vm_compute; reflexivity|]);
    contradiction.
Defined.

(** With a NaN among the samples the box need not contain the projected
    points: for the samples 2, 1, NaN, 5, 3 on the line [y = - x] the
    comparisons with the NaN are all false, the pair (NaN, 5) leaves the
    smallest [y] as it is, and the box is [(1, -3)] to [(5, -1)], without
    the point [(5, -5)]. *)
Lemma get_bbox_nan_sample_left_out :
  exists box,
    get_bbox_for_s_values sample_nan_values sample_diagonal = Done box /\
    box_min box = (1, -3)%float /\
    box_max box = (5, -1)%float /\
    In 5%float sample_nan_values /\
    (snd (box_min box) <=? snd (sample_diagonal 5))%float = false.
Proof.
  eexists. split; [vm_compute; reflexivity|].
  cbn [Box2D_of box_min box_max fst snd].
  repeat split; try (vm_compute; reflexivity).
  simpl. auto.
Qed.

(** ** The floor lookup of lane sections *)

Lemma double_ltb_defined (x y : float) :
  (x <? y)%float = true -> (x <=? x)%float = true /\ (y <=? y)%float = true.
Proof. exact (@a_ltb_defined float double_Arithmetic double_ArithmeticLaws x y). Qed.

Lemma double_leb_defined (x y : float) :
  (x <=? y)%float = true -> (x <=? x)%float = true /\ (y <=? y)%float = true.
Proof. exact (@a_leb_defined float double_Arithmetic double_ArithmeticLaws x y). Qed.

Lemma double_leb_ltb (x y : float) :
  (x <=? x)%float = true -> (y <=? y)%float = true ->
  (x <=? y)%float = negb (y <? x)%float.
Proof. exact (@a_leb_ltb float double_Arithmetic double_ArithmeticLaws x y). Qed.

Lemma double_ltb_trans (x y z : float) :
  (x <? y)%float = true -> (y <? z)%float = true -> (x <? z)%float = true.
Proof. exact (@a_ltb_trans float double_Arithmetic double_ArithmeticLaws x y z). Qed.

Lemma double_ltb_asym (x y : float) :
  (x <? y)%float = true -> (y <? x)%float = false.
Proof. exact (@a_ltb_asym float double_Arithmetic double_ArithmeticLaws x y). Qed.

Lemma double_ltb_leb (x y : float) : (x <? y)%float = true -> (x <=? y)%float = true.
Proof.
  intros Hlt. destruct (double_ltb_defined _ _ Hlt) as [Hx Hy].
  rewrite (double_leb_ltb _ _ Hx Hy). now rewrite (double_ltb_asym _ _ Hlt).
Qed.

Lemma double_ltb_leb_trans (x y z : float) :
  (x <? y)%float = true -> (y <=? z)%float = true -> (x <=? z)%float = true.
Proof.
  intros Hxy Hyz.
  destruct (double_ltb_defined _ _ Hxy) as [Hx Hy].
  destruct (double_leb_defined _ _ Hyz) as [_ Hz].
  rewrite (double_leb_ltb _ _ Hx Hz).
  destruct (z <? x)%float eqn:Hzx; [|reflexivity].
  pose proof (double_ltb_trans _ _ _ Hzx Hxy) as Hzy.
  rewrite (double_leb_ltb _ _ Hy Hz), Hzy in Hyz. discriminate.
Qed.

Lemma double_ltb_not_leb (x y : float) :
  (x <? y)%float = true -> (y <=? x)%float = false.
Proof.
  intros Hxy. destruct (double_ltb_defined _ _ Hxy) as [Hx Hy].
  rewrite (double_leb_ltb _ _ Hy Hx). now rewrite Hxy.
Qed.

Section FloorLookup.
Context {V : Type}.

Let ascending := StronglySorted (fun e1 e2 : float * V => (fst e1 <? fst e2)%float = true).

(** When the lookup finds nothing, no key is [<= s]. *)
Lemma floor_lookup_None {m : list (float * V)} {s : float} :
  ascending m -> floor_lookup m s = None ->
  forall k v, In (k, v) m -> (k <=? s)%float = false.
Proof.
  intros Hm Hnone k v Hin. destruct m as [|[k0 v0] m]; [contradiction|].
  simpl in Hnone. destruct (k0 <=? s)%float eqn:Hk0.
  - destruct (floor_lookup m s); discriminate.
  - destruct Hin as [[= <- <-]|Hin]; [exact Hk0|].
    inversion Hm as [|? ? _ Hall]; subst. rewrite Forall_forall in Hall.
    specialize (Hall _ Hin). simpl in Hall.
    destruct (k <=? s)%float eqn:Hk; [|reflexivity].
    now rewrite (double_ltb_leb_trans _ _ _ Hall Hk) in Hk0.
Qed.

(** The lookup returns the entry with the greatest key [<= s]. *)
Lemma floor_lookup_greatest {m : list (float * V)} {s : float} {v : V} :
  ascending m -> floor_lookup m s = Some v ->
  exists k, In (k, v) m /\ (k <=? s)%float = true /\
            forall k' v', In (k', v') m -> (k' <=? s)%float = true ->
                          (k' <=? k)%float = true.
Proof.
  induction m as [|[k0 v0] m IH]; intros Hm Hfound; [discriminate|].
  inversion Hm as [|? ? Hm' Hall]; subst. rewrite Forall_forall in Hall.
  simpl in Hfound. destruct (k0 <=? s)%float eqn:Hk0; [|discriminate].
  destruct (floor_lookup m s) as [v'|] eqn:Hrest.
  - injection Hfound as ->.
    destruct (IH Hm' eq_refl) as (k & Hin & Hks & Hmax).
    exists k. split; [now right|]. split; [exact Hks|].
    intros k' v' [[= <- <-]|Hin'] Hk's.
    + apply double_ltb_leb. exact (Hall _ Hin).
    + eapply Hmax; eassumption.
  - injection Hfound as ->.
    exists k0. split; [now left|]. split; [exact Hk0|].
    intros k' v' [[= <- <-]|Hin'] Hk's.
    + exact (proj1 (double_leb_defined _ _ Hk0)).
    + now rewrite (floor_lookup_None Hm' Hrest _ _ Hin') in Hk's.
Qed.

(** A lookup at a key of the map returns the entry of that key. *)
Lemma floor_lookup_key (m : list (float * V)) (k : float) (v : V) :
  ascending m -> In (k, v) m -> (k <=? k)%float = true ->
  floor_lookup m k = Some v.
Proof.
  induction m as [|[k0 v0] m IH]; intros Hm Hin Hk; [contradiction|].
  inversion Hm as [|? ? Hm' Hall]; subst. rewrite Forall_forall in Hall.
  simpl. destruct Hin as [[= <- <-]|Hin].
  - rewrite Hk. destruct m as [|[k1 v1] m]; [reflexivity|].
    pose proof (Hall _ (or_introl eq_refl)) as Hk1. simpl in Hk1.
    simpl. now rewrite (double_ltb_not_leb _ _ Hk1).
  - pose proof (Hall _ Hin) as Hk0. simpl in Hk0.
    rewrite (double_ltb_leb _ _ Hk0).
    now rewrite (IH Hm' Hin Hk).
Qed.

End FloorLookup.

(** C1: on a road whose lane-section map is well formed (first key 0, keys
    strictly increasing and below [length]), [get_lanesection(s)] for [s] in
    [[0, length)] returns the entry with the greatest key [<= s]; for [s]
    equal to a key it returns the section of that key; and for [s] outside
    [[0, length)] it returns no section. *)
Theorem get_lanesection_floor :
  forall (road : Road) (s : float),
    lanesections_wf road ->
    ((0 <=? s)%float = true -> (s <? road_length road)%float = true ->
     exists s0 sec,
       get_lanesection road s = Some sec /\
       In (s0, sec) (s0_to_lanesection road) /\
       (s0 <=? s)%float = true /\
       forall s0' sec', In (s0', sec') (s0_to_lanesection road) ->
                        (s0' <=? s)%float = true -> (s0' <=? s0)%float = true) /\
    (forall s0 sec, In (s0, sec) (s0_to_lanesection road) ->
                    get_lanesection road s0 = Some sec) /\
    (((0 <=? s) && (s <? road_length road))%float = false ->
     get_lanesection road s = None).
Proof.
  intros road s ((sec0 & rest & Hfirst) & Hsorted & Hbelow).
  split; [|split].
  - intros H0 Hlen. unfold get_lanesection. rewrite H0, Hlen. simpl.
    destruct (floor_lookup (s0_to_lanesection road) s) as [sec|] eqn:Hfound.
    + destruct (floor_lookup_greatest Hsorted Hfound) as (s0 & Hin & Hle & Hmax).
      exists s0, sec. auto.
    + exfalso.
      assert (Hin : In (0%float, sec0) (s0_to_lanesection road))
        by (rewrite Hfirst; now left).
      now rewrite (floor_lookup_None Hsorted Hfound _ _ Hin) in H0.
  - intros s0 sec Hin. unfold get_lanesection.
    rewrite Forall_forall in Hbelow. pose proof (Hbelow _ Hin) as Hlt.
    simpl in Hlt. rewrite Hlt.
    assert (Hdef : (s0 <=? s0)%float = true)
      by exact (proj1 (double_ltb_defined _ _ Hlt)).
    assert (H0 : (0 <=? s0)%float = true).
    { rewrite Hfirst in Hin, Hsorted. destruct Hin as [[= <- _]|Hin]; [reflexivity|].
      inversion Hsorted as [|? ? _ Hall]; subst. rewrite Forall_forall in Hall.
      apply double_ltb_leb. exact (Hall _ Hin). }
    rewrite H0. simpl. now apply floor_lookup_key.
  - intros Hout. unfold get_lanesection. now rewrite Hout.
Qed.

Lemma sample_road_wf : lanesections_wf sample_road.
Proof.
  split; [|split].
  - eexists _, _. reflexivity.
  - repeat constructor.
  - repeat constructor.
Qed.

Lemma get_lanesection_floor_witness :
  (exists s0 sec,
      get_lanesection sample_road 30%float = Some sec /\
      In (s0, sec) (s0_to_lanesection sample_road) /\
      (s0 <=? 30)%float = true /\
      forall s0' sec', In (s0', sec') (s0_to_lanesection sample_road) ->
                       (s0' <=? 30)%float = true -> (s0' <=? s0)%float = true) /\
  get_lanesection sample_road 25%float = Some (snd (sample_section 2 25%float)) /\
  get_lanesection sample_road 100%float = None.
Proof.
  split; [|split].
  - apply (proj1 (get_lanesection_floor sample_road 30%float sample_road_wf));
      reflexivity.
  - apply (proj1 (proj2 (get_lanesection_floor sample_road 0%float sample_road_wf))).
    right. now left.
  - apply (proj2 (proj2 (get_lanesection_floor sample_road 100%float sample_road_wf))).
    reflexivity.
Defined.

(** ** Golden-section search *)

(** C6: when [b - a <= tol] the search returns the midpoint [0.5 * (a + b)]
    at once, having called [f] not even once. *)
Theorem golden_section_search_degenerate :
  forall (T : Type) (A : Arithmetic T) (C : Cmath T) (f : T -> T) (a b tol : T),
    a_leb (a_sub b a) tol = true ->
    golden_section_search f a b tol = Done (a_mul a_half (a_add a b), []).
Proof.
  intros T A C f a b tol Hh. unfold golden_section_search.
  cbv zeta. now rewrite Hh.
Qed.

Lemma Rleb_true (x y : R) : (x <= y)%R -> Rleb x y = true.
Proof. intros Hxy. unfold Rleb. now destruct (Rle_dec x y). Qed.

Lemma Rleb_false (x y : R) : (y < x)%R -> Rleb x y = false.
Proof. intros Hxy. unfold Rleb. destruct (Rle_dec x y); [lra|reflexivity]. Qed.

Lemma golden_section_search_degenerate_witness :
  golden_section_search sample_quadratic 3%R (3 + / 2)%R 1%R
  = Done ((/ 2 * (3 + (3 + / 2)))%R, []).
Proof.
  apply (golden_section_search_degenerate R real_Arithmetic real_Cmath
           sample_quadratic 3%R (3 + / 2)%R 1%R).
  apply Rleb_true. cbn [a_sub real_Arithmetic]. lra.
Defined.

Section ExactSearch.
Local Open Scope R_scope.

Lemma invphi_eq : (invphi : R) = (sqrt 5 - 1) / 2.
Proof. reflexivity. Qed.

Lemma sqrt5_bounds : 2 < sqrt 5 < 3.
Proof.
  pose proof (sqrt_sqrt 5 ltac:(lra)) as Hsq.
  pose proof (sqrt_pos 5) as Hpos.
  split; nra.
Qed.

Lemma invphi_bounds : 0 < (invphi : R) < 1.
Proof. rewrite invphi_eq. pose proof sqrt5_bounds. lra. Qed.

Lemma invphi_square : (invphi : R) * invphi = 1 - invphi.
Proof.
  rewrite invphi_eq. pose proof (sqrt_sqrt 5 ltac:(lra)) as Hsq. nra.
Qed.

Lemma invphi2_eq : (invphi2 : R) = 1 - invphi.
Proof.
  rewrite invphi_eq. unfold invphi2. cbn [a_div a_sub a_sqrt a_lit real_Arithmetic real_Cmath].
  lra.
Qed.

Lemma Rltb_true (x y : R) : x < y -> Rltb x y = true.
Proof. intros Hxy. unfold Rltb. now destruct (Rlt_dec x y). Qed.

Lemma Rltb_false (x y : R) : y <= x -> Rltb x y = false.
Proof. intros Hxy. unfold Rltb. destruct (Rlt_dec x y); [lra|reflexivity]. Qed.

Variable f : R -> R.
Variables a0 b0 xmin : R.
Hypothesis Hab : a0 < b0.
Hypothesis Huni : unimodal f a0 b0 xmin.

Lemma search_step_inv (k : nat) (st : search_state) :
  bracket_inv f a0 b0 xmin k st ->
  bracket_inv f a0 b0 xmin (S k) (search_step f st).
Proof.
  intros ((Hh & Hb & Hc & Hd & Hyc & Hyd & Ha0 & Hb0 & Hx) & Hcalls).
  destruct Huni as (_ & Hdec & Hinc).
  pose proof invphi_bounds as Hphi.
  pose proof invphi_square as Hsq.
  pose proof invphi2_eq as Hphi2.
  assert (Hpow : 0 < invphi ^ k) by (apply pow_lt; lra).
  assert (Hhpos : 0 < gs_h st) by (rewrite Hh; apply Rmult_lt_0_compat; lra).
  assert (Hcd : gs_c st < gs_d st) by (rewrite Hc, Hd, Hphi2; nra).
  unfold search_step. cbn [a_ltb a_add a_mul real_Arithmetic].
  unfold Rltb. destruct (Rlt_dec (gs_yc st) (gs_yd st)) as [Hlt|Hge];
    (split; [|cbn [gs_calls]; rewrite length_app; simpl; lia]);
    cbn [gs_a gs_b gs_c gs_d gs_yc gs_yd gs_h].
  - assert (Hxd : xmin < gs_d st).
    { destruct (Rle_lt_dec (gs_d st) xmin) as [Hle|Hgt]; [|exact Hgt].
      exfalso. pose proof (Hdec (gs_c st) (gs_d st)) as Hf.
      rewrite <- Hyc, <- Hyd in Hf. nra. }
    repeat split; try lra; try nra.
    + rewrite Hh. rewrite <- tech_pow_Rmult. ring.
  - assert (Hxc : gs_c st <= xmin).
    { destruct (Rle_lt_dec (gs_c st) xmin) as [Hle|Hgt]; [exact Hle|].
      exfalso. pose proof (Hinc (gs_c st) (gs_d st)) as Hf.
      rewrite <- Hyc, <- Hyd in Hf. nra. }
    repeat split; try lra; try nra.
    + rewrite Hh. rewrite <- tech_pow_Rmult. ring.
Qed.

Lemma search_loop_inv (n k : nat) (st : search_state) :
  bracket_inv f a0 b0 xmin k st ->
  bracket_inv f a0 b0 xmin (k + n) (search_loop f n st).
Proof.
  revert k st. induction n as [|n IH]; intros k st Hinv; simpl.
  - now rewrite Nat.add_0_r.
  - replace (k + S n)%nat with (S k + n)%nat by lia.
    apply IH, search_step_inv, Hinv.
Qed.

End ExactSearch.

Section IterationCount.
Local Open Scope R_scope.

Lemma ln_invphi_neg : ln (invphi : R) < 0.
Proof.
  pose proof invphi_bounds as Hphi.
  rewrite <- ln_1. apply ln_increasing; lra.
Qed.

(** The iteration count of the search is at least 1, and that many
    contractions by [invphi] bring the width [h] down to [tol]. *)
Lemma iteration_count (tol h : R) :
  0 < tol -> tol < h ->
  (1 <= Zceil (ln (tol / h) / ln invphi))%Z /\
  invphi ^ Z.to_nat (Zceil (ln (tol / h) / ln invphi)) * h <= tol.
Proof.
  intros Htol Hh.
  pose proof invphi_bounds as Hphi.
  pose proof ln_invphi_neg as Hln.
  assert (Hratio : 0 < tol / h < 1).
  { split; [apply Rdiv_lt_0_compat; lra|].
    apply (Rmult_lt_reg_r h); [lra|]. unfold Rdiv.
    rewrite Rmult_assoc, Rinv_l by lra. lra. }
  assert (Hlnr : ln (tol / h) < 0)
    by (rewrite <- ln_1; apply ln_increasing; lra).
  set (r := ln (tol / h) / ln invphi).
  assert (Hr : 0 < r).
  { unfold r, Rdiv. replace (ln (tol / h) * / ln invphi)
      with ((- ln (tol / h)) * / (- ln invphi)) by (field; lra).
    apply Rmult_lt_0_compat; [lra|]. apply Rinv_0_lt_compat. lra. }
  destruct (Zceil_bound r) as [Hlo Hhi].
  assert (Hn : (1 <= Zceil r)%Z).
  { assert (0 < IZR (Zceil r)) by lra.
    apply lt_IZR in H. lia. }
  split; [exact Hn|].
  set (N := Z.to_nat (Zceil r)).
  assert (HN : INR N = IZR (Zceil r))
    by (unfold N; rewrite INR_IZR_INZ, Z2Nat.id by lia; reflexivity).
  assert (Hpow : 0 < invphi ^ N) by (apply pow_lt; lra).
  assert (Hle : invphi ^ N <= tol / h).
  { destruct (Rle_lt_dec (invphi ^ N) (tol / h)) as [Hok|Hbad]; [exact Hok|].
    exfalso. apply ln_increasing in Hbad; [|lra].
    rewrite ln_pow, HN in Hbad by lra.
    assert (Hrl : r * ln invphi = ln (tol / h))
      by (unfold r; field; lra).
    nra. }
  apply (Rmult_le_compat_r h) in Hle; [|lra].
  unfold Rdiv in Hle. rewrite Rmult_assoc, Rinv_l, Rmult_1_r in Hle by lra.
  exact Hle.
Qed.

(** A number of contractions that suffices bounds the iteration count. *)
Lemma iteration_count_bound (tol h : R) (N : nat) :
  0 < tol -> tol < h -> invphi ^ N * h <= tol ->
  (Zceil (ln (tol / h) / ln invphi) <= Z.of_nat N)%Z.
Proof.
  intros Htol Hh Hpow.
  pose proof invphi_bounds as Hphi.
  pose proof ln_invphi_neg as Hln.
  assert (HpowN : 0 < invphi ^ N) by (apply pow_lt; lra).
  assert (Hle : invphi ^ N <= tol / h).
  { apply (Rmult_le_reg_r h); [lra|]. unfold Rdiv.
    rewrite Rmult_assoc, Rinv_l, Rmult_1_r by lra. exact Hpow. }
  assert (Hlnle : ln (invphi ^ N) <= ln (tol / h)).
  { destruct Hle as [Hlt|Heq]; [left; apply ln_increasing; lra|right; now rewrite Heq]. }
  rewrite ln_pow in Hlnle by lra.
  set (r := ln (tol / h) / ln invphi).
  assert (Hrl : r * ln invphi = ln (tol / h)) by (unfold r; field; lra).
  assert (Hr : r <= INR N) by nra.
  destruct (Zceil_bound r) as [Hlo _].
  rewrite INR_IZR_INZ in Hr.
  assert (Hlt : IZR (Zceil r) < IZR (Z.of_nat N + 1)) by (rewrite plus_IZR; lra).
  apply lt_IZR in Hlt. lia.
Qed.

Lemma real_log_pos (x : R) : 0 < x -> real_log x = Some (ln x).
Proof. intros Hx. unfold real_log. destruct (Rlt_dec 0 x); [reflexivity|lra]. Qed.

Lemma real_to_int_IZR (n : Z) :
  (- 2 ^ 31 <= n <= INT_MAX)%Z -> real_to_int (IZR n) = Some n.
Proof.
  intros Hn. unfold real_to_int.
  assert (Hz : (if Rle_dec 0 (IZR n) then Zfloor (IZR n) else Zceil (IZR n)) = n).
  { destruct (Rle_dec 0 (IZR n)); [apply ZfloorZ|].
    apply Zceil_eq. lra. }
  rewrite Hz.
  destruct (Z.leb_spec (- 2 ^ 31) n); [|lia].
  destruct (Z.leb_spec n INT_MAX); [reflexivity|lia].
Qed.

End IterationCount.

(** C5, amended: in exact arithmetic (no rounding in [f] or in the bracket),
    for [0 < tol < b - a] and an iteration count that fits [int], the search
    computes its iteration count [n] up front as
    [ceil(log(tol / (b - a)) / log(invphi))] with
    [invphi = (sqrt 5 - 1) / 2], calls [f] [n + 1] times, and returns the
    midpoint of a bracket [[lo, hi]] of width [invphi^n * (b - a) <= tol] that
    contains the minimizer of the unimodal [f]: the value returned is within
    [tol] of the minimizer. *)
Theorem golden_section_search_within_tol :
  forall (f : R -> R) (a b tol xmin : R),
    (0 < tol)%R -> (tol < b - a)%R ->
    unimodal f a b xmin ->
    (Zceil (ln (tol / (b - a)) / ln invphi) <= INT_MAX)%Z ->
    (invphi : R) = ((sqrt 5 - 1) / 2)%R /\
    exists (x : R) (calls : list R) (lo hi : R),
      golden_section_search f a b tol = Done (x, calls) /\
      length calls = Z.to_nat (Zceil (ln (tol / (b - a)) / ln invphi) + 1) /\
      (a <= lo)%R /\ (hi <= b)%R /\
      (lo <= xmin <= hi)%R /\
      (hi - lo = invphi ^ Z.to_nat (Zceil (ln (tol / (b - a)) / ln invphi))
                 * (b - a))%R /\
      (hi - lo <= tol)%R /\
      x = ((lo + hi) / 2)%R /\
      (Rabs (x - xmin) <= tol)%R.
Proof.
  intros f a b tol xmin Htol Hh Huni Hint.
  split; [reflexivity|].
  destruct (iteration_count tol (b - a) Htol Hh) as [Hn Hwidth].
  set (n := Zceil (ln (tol / (b - a)) / ln invphi)) in *.
  pose proof invphi_bounds as Hphi.
  pose proof invphi_square as Hsq.
  pose proof invphi2_eq as Hphi2.
  unfold golden_section_search.
  cbn [a_leb a_sub a_add a_mul a_div a_log a_ceil a_to_int a_half a_ltb
       real_Arithmetic real_Cmath].
  rewrite Rleb_false by lra.
  rewrite (real_log_pos (tol / (b - a))) by (apply Rdiv_lt_0_compat; lra).
  rewrite (real_log_pos invphi) by lra.
  fold n.
  rewrite real_to_int_IZR by (rewrite INT_MAX_eq in *; lia).
  destruct (Z.eqb_spec n (- 2 ^ 31)); [lia|]. cbv zeta.
  set (st0 := (mk_search a b (a + invphi2 * (b - a)) (a + invphi * (b - a))
                         (f (a + invphi2 * (b - a))) (f (a + invphi * (b - a)))
                         (b - a) [a + invphi2 * (b - a); a + invphi * (b - a)])%R).
  assert (Hinv0 : bracket_inv f a b xmin 0 st0).
  { destruct Huni as (Hx & _). unfold bracket_inv, st0.
    cbn [gs_a gs_b gs_c gs_d gs_yc gs_yd gs_h gs_calls length pow].
    repeat split; try reflexivity; lra. }
  assert (Hab : (a < b)%R) by lra.
  pose proof (search_loop_inv f a b xmin Hab Huni (Z.to_nat (n - 1)) 0 st0 Hinv0)
    as Hinv.
  set (st := search_loop f (Z.to_nat (n - 1)) st0) in *.
  destruct Hinv as ((Hhk & Hb & Hc & Hd & Hyc & Hyd & Ha0 & Hb0 & Hx) & Hcalls).
  destruct Huni as (_ & Hdec & Hinc).
  cbn [Nat.add] in *.
  assert (Hk : S (Z.to_nat (n - 1)) = Z.to_nat n) by lia.
  assert (Hpow : (0 < invphi ^ Z.to_nat (n - 1))%R) by (apply pow_lt; lra).
  assert (Hhpos : (0 < gs_h st)%R) by (rewrite Hhk; apply Rmult_lt_0_compat; lra).
  assert (Hshrink : (invphi * gs_h st = invphi ^ Z.to_nat n * (b - a))%R).
  { rewrite Hhk, <- Hk, <- tech_pow_Rmult. ring. }
  assert (Hcd : (gs_c st < gs_d st)%R) by (rewrite Hc, Hd, Hphi2; nra).
  assert (Hcount : length (gs_calls st) = Z.to_nat (n + 1)) by lia.
  unfold Rltb. destruct (Rlt_dec (gs_yc st) (gs_yd st)) as [Hlt|Hge].
  - assert (Hxd : (xmin < gs_d st)%R).
    { destruct (Rle_lt_dec (gs_d st) xmin) as [Hle|Hgt]; [|exact Hgt].
      exfalso. pose proof (Hdec (gs_c st) (gs_d st)) as Hf.
      rewrite <- Hyc, <- Hyd in Hf. nra. }
    exists (/ 2 * (gs_a st + gs_d st))%R, (gs_calls st), (gs_a st), (gs_d st).
    repeat split; try assumption; try lra; try nra.
    apply Rabs_le. split; nra.
  - assert (Hxc : (gs_c st <= xmin)%R).
    { destruct (Rle_lt_dec (gs_c st) xmin) as [Hle|Hgt]; [exact Hle|].
      exfalso. pose proof (Hinc (gs_c st) (gs_d st)) as Hf.
      rewrite <- Hyc, <- Hyd in Hf. nra. }
    exists (/ 2 * (gs_c st + gs_b st))%R, (gs_calls st), (gs_c st), (gs_b st).
    repeat split; try assumption; try lra; try nra.
    apply Rabs_le. split; nra.
Qed.

(** On [double]s, and for a tolerance that is not positive, the claim fails.
    [(x - 3)^2 + 10^6] is unimodal on [[0, 10]] with its minimum at 3; the
    search on [double]s with [tol = 1e-6] has the iteration count 34 and returns
    [3.0000073794705338], which is [7.4e-6] from 3: near the minimum the
    rounded values of the objective no longer tell the probes apart.  And
    with [tol = 0] the logarithm of [tol / h] is no number, and its
    conversion to [int] is undefined. *)
Lemma golden_section_search_misses_tol :
  unimodal (fun x => ((x - 3) * (x - 3) + 1000000)%R) 0 10 3 /\
  (exists calls : list float,
      @golden_section_search float double_Arithmetic
        (double_Cmath (table_log sample_log)) sample_offset_quadratic
        0%float 10%float sample_tol
      = Done (0x1.80003de74ad45p+1%float, calls)) /\
  (sample_tol <? 0x1.80003de74ad45p+1 - 3)%float = true /\
  golden_section_search sample_quadratic 0%R 10%R 0%R = Undefined.
Proof.
  split; [|split; [|split]].
  - unfold unimodal. repeat split; try lra; intros x y Hx Hxy Hy; nra.
  - eexists. vm_compute. reflexivity.
  - vm_compute. reflexivity.
  - unfold golden_section_search.
    cbn [a_leb a_sub a_div a_log real_Arithmetic real_Cmath].
    rewrite Rleb_false by lra.
    unfold real_log at 1. destruct (Rlt_dec 0 (0 / (10 - 0))) as [Hpos|_].
    + unfold Rdiv in Hpos. rewrite Rmult_0_l in Hpos. lra.
    + reflexivity.
Qed.

Lemma sample_quadratic_unimodal : unimodal sample_quadratic 0 10 3.
Proof.
  unfold unimodal, sample_quadratic. repeat split; try lra; intros x y Hx Hxy Hy; nra.
Qed.

Lemma sample_iteration_count :
  (Zceil (ln (/ 1000000 / (10 - 0)) / ln invphi) <= INT_MAX)%Z.
Proof.
  apply Z.le_trans with (Z.of_nat 48); [|rewrite INT_MAX_eq; lia].
  apply iteration_count_bound; try lra.
  pose proof invphi_bounds as Hphi.
  pose proof invphi_square as Hsq.
  pose proof sqrt5_bounds as Hs5.
  assert (Hhalf : (0 <= invphi ^ 2 <= / 2)%R).
  { rewrite <- Rsqr_pow2. unfold Rsqr. rewrite Hsq, invphi_eq. lra. }
  change 48%nat with (2 * 24)%nat. rewrite pow_mult.
  apply (pow_incr _ _ 24) in Hhalf.
  assert (Hnum : ((/ 2) ^ 24 * (10 - 0) <= / 1000000)%R) by (simpl; lra).
  nra.
Qed.

Lemma golden_section_search_within_tol_witness :
  exists (x : R) (calls : list R),
    golden_section_search sample_quadratic 0%R 10%R (/ 1000000)%R = Done (x, calls) /\
    (Rabs (x - 3) <= / 1000000)%R.
Proof.
  destruct (golden_section_search_within_tol sample_quadratic 0 10 (/ 1000000) 3)
    as (_ & x & calls & lo & hi & Hrun & _ & _ & _ & _ & _ & _ & _ & Hx).
  - lra.
  - lra.
  - exact sample_quadratic_unimodal.
  - exact sample_iteration_count.
  - exists x, calls. split; assumption.
Defined.

(** * Further properties *)

(** ** The key set of an ordered map *)

Section OrderedKeys.
Context {K : Type} (lt : K -> K -> bool).
Hypothesis lt_irrefl : forall x, lt x x = false.
Hypothesis lt_trans : forall x y z, lt x y = true -> lt y z = true -> lt x z = true.

(** An element above all elements of the set is inserted at the end. *)
Lemma insert_above (x : K) (s : list K) :
  Forall (fun y => lt y x = true) s -> StdSet.insert lt x s = s ++ [x].
Proof.
  induction 1 as [|y s Hy _ IH]; simpl; [reflexivity|].
  destruct (lt x y) eqn:Hxy.
  - pose proof (lt_trans _ _ _ Hxy Hy) as Hxx. rewrite lt_irrefl in Hxx. discriminate.
  - rewrite Hy, IH. reflexivity.
Qed.

Lemma extract_keys_from {V : Type} (m : list (K * V)) :
  forall acc : list K,
    StronglySorted (fun e1 e2 => lt (fst e1) (fst e2) = true) m ->
    (forall k e, In k acc -> In e m -> lt k (fst e) = true) ->
    fold_left (fun retval element => StdSet.insert lt (fst element) retval) m acc
    = acc ++ map fst m.
Proof.
  induction m as [|e m IH]; intros acc Hm Hacc; simpl.
  - now rewrite app_nil_r.
  - inversion Hm as [|? ? Hm' He]; subst. rewrite Forall_forall in He.
    rewrite insert_above.
    + rewrite IH; [now rewrite <- app_assoc|exact Hm'|].
      intros k e' Hk He'. apply in_app_iff in Hk. destruct Hk as [Hk|[<-|[]]].
      * apply Hacc; [exact Hk|now right].
      * now apply He.
    + apply Forall_forall. intros k Hk. apply Hacc; [exact Hk|now left].
Qed.

End OrderedKeys.

(** X1: on a map whose entries are in strictly ascending key order (as those
    of a [std::map] are, for an irreflexive and transitive [<])
    [extract_keys] returns the keys of the entries in the order of the map:
    as many keys as entries, strictly ascending. *)
Theorem extract_keys_in_map_order :
  forall (K V : Type) (lt : K -> K -> bool) (input_map : list (K * V)),
    (forall x, lt x x = false) ->
    (forall x y z, lt x y = true -> lt y z = true -> lt x z = true) ->
    StronglySorted (fun e1 e2 => lt (fst e1) (fst e2) = true) input_map ->
    extract_keys lt input_map = map fst input_map /\
    length (extract_keys lt input_map) = length input_map /\
    StronglySorted (fun k1 k2 => lt k1 k2 = true) (extract_keys lt input_map).
Proof.
  intros K V lt m Hirr Htr Hm.
  assert (Heq : extract_keys lt m = map fst m).
  { unfold extract_keys.
    rewrite (extract_keys_from lt Hirr Htr m []); [reflexivity|exact Hm|].
    intros k e []. }
  rewrite Heq. split; [reflexivity|]. split; [apply length_map|].
  clear Heq. induction Hm as [|e m Hm IH He]; simpl; constructor; [exact IH|].
  rewrite Forall_forall in *. intros k Hk. apply in_map_iff in Hk.
  destruct Hk as (e' & <- & He'). now apply He.
Qed.

Lemma extract_keys_in_map_order_witness :
  extract_keys PrimFloat.ltb (s0_to_lanesection sample_road) = [0; 25; 60]%float /\
  length (extract_keys PrimFloat.ltb (s0_to_lanesection sample_road)) = 3%nat /\
  StronglySorted (fun k1 k2 => (k1 <? k2)%float = true)
                 (extract_keys PrimFloat.ltb (s0_to_lanesection sample_road)).
Proof.
  apply (extract_keys_in_map_order float (shared_ptr LaneSection) PrimFloat.ltb
           (s0_to_lanesection sample_road)).
  - exact (@a_ltb_irrefl float double_Arithmetic double_ArithmeticLaws).
  - exact (@a_ltb_trans float double_Arithmetic double_ArithmeticLaws).
  - repeat constructor.
Defined.


(** ** Looking a road up by its id *)

Section FirstInserted.
Context {C : Type} (member : C -> Z).

Let cmp := SharedPtrCmp Z.ltb member.
Let key (p : shared_ptr C) : Z := member (pointee p).
Let ascending := StronglySorted (fun a b : shared_ptr C => key a < key b).
Let has_key (i : Z) (p : shared_ptr C) : bool := key p =? i.

Lemma find_above (i : Z) (s : list (shared_ptr C)) :
  Forall (fun p => i < key p) s -> find (has_key i) s = None.
Proof.
  unfold has_key.
  induction 1 as [|y s Hy _ IH]; simpl; [reflexivity|].
  destruct (Z.eqb_spec (key y) i); [lia|exact IH].
Qed.

Lemma find_insert (i : Z) (x : shared_ptr C) (s : list (shared_ptr C)) :
  ascending s ->
  find (has_key i) (StdSet.insert cmp x s)
  = match find (has_key i) s with
    | Some y => Some y
    | None => if has_key i x then Some x else None
    end.
Proof.
  unfold ascending.
  induction s as [|y s IH]; intros Hs; simpl.
  - destruct (has_key i x); reflexivity.
  - inversion Hs as [|? ? Hs' Hy]; subst.
    unfold cmp at 1 2, SharedPtrCmp. fold (key x) (key y).
    assert (Habove : key x < key y -> find (has_key i) s = None \/ key x <> i).
    { intros Hxy. destruct (Z.eq_dec (key x) i) as [Hxi|Hxi]; [left|now right].
      apply find_above. eapply Forall_impl; [|exact Hy].
      intros z Hz. simpl in Hz. lia. }
    specialize (IH Hs'). unfold has_key in *.
    destruct (Z.ltb_spec (key x) (key y)) as [Hxy|Hxy].
    + simpl. destruct (Habove Hxy) as [Hnone|Hxi].
      * rewrite Hnone.
        destruct (Z.eqb_spec (key x) i); destruct (Z.eqb_spec (key y) i);
          try reflexivity; lia.
      * destruct (Z.eqb_spec (key x) i); [contradiction|].
        destruct (Z.eqb_spec (key y) i); [reflexivity|].
        destruct (find _ s); reflexivity.
    + destruct (Z.ltb_spec (key y) (key x)) as [Hyx|Hyx]; simpl.
      * destruct (Z.eqb_spec (key y) i); [reflexivity|exact IH].
      * destruct (Z.eqb_spec (key y) i); [reflexivity|].
        destruct (Z.eqb_spec (key x) i); [lia|].
        destruct (find _ s); reflexivity.
Qed.

Lemma find_insert_all (i : Z) (xs s : list (shared_ptr C)) :
  ascending s ->
  find (has_key i) (StdSet.insert_all cmp xs s)
  = match find (has_key i) s with
    | Some y => Some y
    | None => find (has_key i) xs
    end.
Proof.
  revert s. induction xs as [|x xs IH]; intros s Hs; simpl.
  - destruct (find (has_key i) s); reflexivity.
  - change (fold_left _ xs ?a) with (StdSet.insert_all cmp xs a).
    rewrite IH by (apply insert_ascending; exact Hs).
    rewrite find_insert by exact Hs.
    destruct (find (has_key i) s); [reflexivity|].
    destruct (has_key i x); reflexivity.
Qed.

(** Two ascending sequences that answer every lookup alike are equal. *)
Lemma ascending_find_ext (s s' : list (shared_ptr C)) :
  ascending s -> ascending s' ->
  (forall i, find (has_key i) s = find (has_key i) s') -> s = s'.
Proof.
  unfold ascending, has_key. revert s'.
  induction s as [|x s IH]; intros [|y s'] Hs Hs' Hfind.
  - reflexivity.
  - specialize (Hfind (key y)). simpl in Hfind.
    rewrite Z.eqb_refl in Hfind. discriminate.
  - specialize (Hfind (key x)). simpl in Hfind.
    rewrite Z.eqb_refl in Hfind. discriminate.
  - inversion Hs as [|? ? Hs1 Hx]; subst. inversion Hs' as [|? ? Hs1' Hy]; subst.
    rewrite Forall_forall in Hx, Hy.
    assert (Hxy : x = y).
    { pose proof (Hfind (key x)) as Hfx. pose proof (Hfind (key y)) as Hfy.
      simpl in Hfx, Hfy. rewrite Z.eqb_refl in Hfx, Hfy.
      destruct (Z.eqb_spec (key y) (key x)) as [Heq|Hne]; [congruence|].
      destruct (Z.eqb_spec (key x) (key y)) as [Heq'|_]; [congruence|].
      symmetry in Hfx. apply find_some in Hfx. apply find_some in Hfy.
      destruct Hfx as [Hinx _]. destruct Hfy as [Hiny _].
      specialize (Hx y Hiny). specialize (Hy x Hinx). lia. }
    subst y. f_equal. apply IH; try assumption.
    intros i. specialize (Hfind i). simpl in Hfind.
    destruct (Z.eqb_spec (key x) i) as [Heq|Hne]; [|exact Hfind].
    pose proof (find_above i s) as Ha. pose proof (find_above i s') as Ha'.
    unfold has_key in Ha, Ha'. rewrite Ha, Ha'; [reflexivity| |];
      apply Forall_forall; intros z Hz; [specialize (Hy z Hz)|specialize (Hx z Hz)]; lia.
Qed.

Lemma find_unique (l : list (shared_ptr C)) (r : shared_ptr C) :
  NoDup (map key l) -> In r l -> find (has_key (key r)) l = Some r.
Proof.
  unfold has_key.
  induction l as [|y l IH]; intros Hnd Hin; simpl in *; [contradiction|].
  inversion Hnd as [|? ? Hy Hnd']; subst.
  destruct Hin as [->|Hin].
  - now rewrite Z.eqb_refl.
  - destruct (Z.eqb_spec (key y) (key r)) as [Heq|_]; [|now apply IH].
    exfalso. apply Hy. rewrite Heq. now apply in_map.
Qed.

Lemma find_permutation (l l' : list (shared_ptr C)) (i : Z) :
  NoDup (map key l) -> Permutation l l' ->
  find (has_key i) l = find (has_key i) l'.
Proof.
  intros Hnd Hperm.
  assert (Hnd' : NoDup (map key l'))
    by (eapply Permutation_NoDup; [apply Permutation_map; exact Hperm|exact Hnd]).
  destruct (find (has_key i) l) as [r|] eqn:Hf.
  - apply find_some in Hf. destruct Hf as [Hin Hkey].
    unfold has_key in Hkey. apply Z.eqb_eq in Hkey. subst i.
    symmetry. apply find_unique; [exact Hnd'|].
    eapply Permutation_in; eassumption.
  - destruct (find (has_key i) l') as [r|] eqn:Hf'; [|reflexivity].
    apply find_some in Hf'. destruct Hf' as [Hin Hkey].
    rewrite (find_none _ _ Hf r) in Hkey; [discriminate|].
    eapply Permutation_in; [apply Permutation_sym; exact Hperm|exact Hin].
Qed.

Lemma insert_all_permutation (l l' : list (shared_ptr C)) :
  NoDup (map key l) -> Permutation l l' ->
  StdSet.insert_all cmp l [] = StdSet.insert_all cmp l' [].
Proof.
  intros Hnd Hperm.
  apply ascending_find_ext.
  - apply insert_all_ascending. constructor.
  - apply insert_all_ascending. constructor.
  - intros i. rewrite !find_insert_all by constructor. simpl.
    now apply find_permutation.
Qed.

End FirstInserted.

(** X12: after any sequence of insertions into an empty [RoadSet], looking
    up an id in the set finds the first road of that id in the sequence:
    later roads with an id already present are not stored. *)
Theorem RoadSet_keeps_first_inserted :
  forall (rs : list (shared_ptr Road)) (i : Z),
    find (fun r => road_id (pointee r) =? i) (StdSet.insert_all RoadSet_cmp rs [])
    = find (fun r => road_id (pointee r) =? i) rs.
Proof.
  intros rs i.
  exact (find_insert_all road_id i rs [] (SSorted_nil _)).
Qed.

(** X13: roads with pairwise different ids make the same [RoadSet] in
    whatever order they are inserted. *)
Theorem RoadSet_insertion_order_irrelevant :
  forall rs rs' : list (shared_ptr Road),
    NoDup (RoadSet_ids rs) ->
    Permutation rs rs' ->
    StdSet.insert_all RoadSet_cmp rs [] = StdSet.insert_all RoadSet_cmp rs' [].
Proof.
  intros rs rs' Hnd Hperm.
  now apply (insert_all_permutation road_id).
Qed.

Lemma RoadSet_insertion_order_irrelevant_witness :
  StdSet.insert_all RoadSet_cmp [road_at 10 3; road_at 20 1; road_at 30 2] []
  = StdSet.insert_all RoadSet_cmp [road_at 20 1; road_at 10 3; road_at 30 2] [].
Proof.
  apply RoadSet_insertion_order_irrelevant.
  - repeat constructor; simpl; intuition discriminate.
  - apply perm_swap.
Defined.

(** ** The triangles of a stitched mesh *)

Lemma skipn_zipper (j : nat) :
  forall (n : nat) (num_pts l : Z),
    (j <= n)%nat ->
    skipn (6 * j) (Mesh.zipper n num_pts l)
    = Mesh.zipper (n - j) num_pts (l + Z.of_nat j).
Proof.
  induction j as [|j IH]; intros n num_pts l Hj.
  - simpl. rewrite Nat.sub_0_r, Z.add_0_r. reflexivity.
  - destruct n as [|n]; [lia|].
    replace (6 * S j)%nat with (6 * j + 6)%nat by lia.
    rewrite <- skipn_skipn.
    change (skipn 6 (Mesh.zipper (S n) num_pts l)) with (Mesh.zipper n num_pts (l + 1)).
    rewrite IH by lia.
    replace (l + 1 + Z.of_nat j) with (l + Z.of_nat (S j)) by lia.
    reflexivity.
Qed.

(** The [j]-th patch of the zipper. *)
Lemma zipper_patch (n j : nat) (num_pts l : Z) :
  (j < n)%nat ->
  firstn 6 (skipn (6 * j) (Mesh.zipper n num_pts l))
  = [l + Z.of_nat j; l + Z.of_nat j - 1; num_pts - (l + Z.of_nat j);
     num_pts - 1 - (l + Z.of_nat j); l + Z.of_nat j; num_pts - (l + Z.of_nat j)].
Proof.
  intros Hj. rewrite skipn_zipper by lia.
  destruct (n - j)%nat as [|m] eqn:Hm; [lia|]. reflexivity.
Qed.

Lemma zipper_In (n : nat) (num_pts l v : Z) :
  In v (Mesh.zipper n num_pts l) <->
  exists j : nat, (j < n)%nat /\
    (v = l + Z.of_nat j \/ v = l + Z.of_nat j - 1 \/
     v = num_pts - (l + Z.of_nat j) \/ v = num_pts - 1 - (l + Z.of_nat j)).
Proof.
  revert l. induction n as [|n IH]; intros l.
  - simpl. split; [contradiction|]. intros (j & Hj & _). lia.
  - cbn [Mesh.zipper]. rewrite in_app_iff, IH. cbn [In]. split.
    + intros [Hv|(j & Hj & Hv)].
      * exists 0%nat. split; [lia|]. rewrite Z.add_0_r. intuition.
      * exists (S j). split; [lia|].
        replace (l + Z.of_nat (S j)) with (l + 1 + Z.of_nat j) by lia. exact Hv.
    + intros (j & Hj & Hv). destruct j as [|j].
      * left. rewrite Z.add_0_r in Hv. intuition.
      * right. exists j. split; [lia|].
        replace (l + 1 + Z.of_nat j) with (l + Z.of_nat (S j)) by lia. exact Hv.
Qed.

(** The mesh of two borders of [N] points each. *)
Lemma generate_mesh_equal (inner outer : Line3D) (N : nat) :
  length inner = N -> length outer = N -> 2 * Z.of_nat N < SIZE_MOD ->
  Mesh.generate_mesh_from_borders inner outer
  = Done (mkMesh3D (outer ++ rev inner) (Mesh.zipper (N - 1) (2 * Z.of_nat N) 1)).
Proof.
  intros Hin Hout Hsize.
  assert (Hnum : size (outer ++ rev inner) = 2 * Z.of_nat N)
    by (unfold size; rewrite length_app, length_rev; lia).
  unfold Mesh.generate_mesh_from_borders, Mesh.generate_mesh_body.
  replace (size inner =? size outer) with true
    by (symmetry; apply Z.eqb_eq; unfold size; lia).
  cbn [negb vertices indices empty_mesh]. rewrite Hnum.
  rewrite (stitch_zipper (N - 1)%nat); try reflexivity; try lia.
  - rewrite Z.shiftr_div_pow2 by lia. change (2 ^ 1) with 2.
    replace (2 * Z.of_nat N / 2) with (Z.of_nat N)
      by (rewrite Z.mul_comm, Z.div_mul; lia).
    lia.
  - intros HN. rewrite wrap_small by (rewrite SIZE_MOD_eq in *; lia). lia.
Qed.

(** Vertices of the buffer [outer ++ rev inner]. *)
Lemma vertex_outer (inner outer : Line3D) (d : Vec3D) (i : Z) :
  0 <= i < Z.of_nat (length outer) ->
  nth (Z.to_nat i) (outer ++ rev inner) d = nth (Z.to_nat i) outer d.
Proof. intros Hi. apply app_nth1. lia. Qed.

Lemma vertex_inner (inner outer : Line3D) (d : Vec3D) (N : nat) (i : Z) :
  length inner = N -> length outer = N ->
  Z.of_nat N <= i < 2 * Z.of_nat N ->
  nth (Z.to_nat i) (outer ++ rev inner) d
  = nth (Z.to_nat (2 * Z.of_nat N - 1 - i)) inner d.
Proof.
  intros Hin Hout Hi.
  rewrite app_nth2 by lia. rewrite rev_nth by lia.
  f_equal. lia.
Qed.

(** X2: for two borders of [N] points each, the [k]-th patch of the index
    buffer ([1 <= k < N]) spans the quad between the neighbouring border
    points: its two triangles are [outer[k], outer[k-1], inner[k-1]] and
    [inner[k], outer[k], inner[k-1]]. *)
Theorem generate_mesh_patch_joins_neighbours :
  forall (inner_border outer_border : Line3D) (N k : nat) (d : Vec3D),
    length inner_border = N ->
    length outer_border = N ->
    2 * Z.of_nat N < SIZE_MOD ->
    (1 <= k < N)%nat ->
    exists mesh,
      Mesh.generate_mesh_from_borders inner_border outer_border = Done mesh /\
      map (fun i => nth (Z.to_nat i) (vertices mesh) d)
          (firstn 6 (skipn (6 * (k - 1)) (indices mesh)))
      = [nth k outer_border d; nth (k - 1) outer_border d;
         nth (k - 1) inner_border d;
         nth k inner_border d; nth k outer_border d;
         nth (k - 1) inner_border d].
Proof.
  intros inner outer N k d Hin Hout Hsize Hk.
  eexists. split; [now apply (generate_mesh_equal inner outer N)|].
  cbn [vertices indices]. rewrite zipper_patch by lia.
  replace (1 + Z.of_nat (k - 1)) with (Z.of_nat k) by lia.
  cbn [map].
  rewrite !(vertex_outer inner outer d) by lia.
  rewrite !(vertex_inner inner outer d N) by lia.
  repeat (f_equal; try lia).
Qed.

Lemma generate_mesh_patch_joins_neighbours_witness :
  exists mesh,
    Mesh.generate_mesh_from_borders sample_inner sample_outer = Done mesh /\
    map (fun i => nth (Z.to_nat i) (vertices mesh) (0, 0, 0)%float)
        (firstn 6 (skipn (6 * (2 - 1)) (indices mesh)))
    = [(2, 1, 0); (1, 1, 0); (1, 0, 0); (2, 0, 0); (2, 1, 0); (1, 0, 0)]%float.
Proof.
  apply (generate_mesh_patch_joins_neighbours sample_inner sample_outer 4 2
           (0, 0, 0)%float eq_refl eq_refl).
  - reflexivity.
  - lia.
Defined.

(** X3: for two borders of [N >= 2] points each, every vertex of the mesh is
    referenced by the index buffer, and each of the [2 * (N - 1)] triangles
    has three different vertex indices. *)
Theorem generate_mesh_triangles_cover_vertices :
  forall (inner_border outer_border : Line3D) (N : nat),
    length inner_border = N ->
    length outer_border = N ->
    2 * Z.of_nat N < SIZE_MOD ->
    (2 <= N)%nat ->
    exists mesh,
      Mesh.generate_mesh_from_borders inner_border outer_border = Done mesh /\
      (forall v, 0 <= v < size (vertices mesh) -> In v (indices mesh)) /\
      (forall t : nat, (t < 2 * (N - 1))%nat ->
                       NoDup (firstn 3 (skipn (3 * t) (indices mesh)))).
Proof.
  intros inner outer N Hin Hout Hsize HN.
  eexists. split; [now apply (generate_mesh_equal inner outer N)|].
  cbn [vertices indices].
  assert (Hnum : size (outer ++ rev inner) = 2 * Z.of_nat N)
    by (unfold size; rewrite length_app, length_rev; lia).
  split.
  - rewrite Hnum. intros v Hv. apply zipper_In.
    destruct (Z.lt_ge_cases v (Z.of_nat N - 1)) as [Hlow|Hhigh].
    + exists (Z.to_nat v). split; [lia|]. right. left. lia.
    + destruct (Z.eq_dec v (Z.of_nat N - 1)) as [Heq|Hne].
      * exists (N - 2)%nat. split; [lia|]. left. lia.
      * destruct (Z.eq_dec v (Z.of_nat N)) as [Heq|Hne'].
        -- exists (N - 2)%nat. split; [lia|]. right. right. right. lia.
        -- exists (Z.to_nat (2 * Z.of_nat N - 1 - v)). split; [lia|].
           right. right. left. lia.
  - intros t Ht.
    assert (Hcases : exists j : nat, (j < N - 1)%nat /\ (t = 2 * j \/ t = 2 * j + 1)%nat).
    { exists (t / 2)%nat.
      pose proof (Nat.div_mod_eq t 2) as Hdm.
      pose proof (Nat.mod_upper_bound t 2 ltac:(lia)) as Hmod. lia. }
    destruct Hcases as (j & Hj & [->| ->]).
    + replace (3 * (2 * j))%nat with (6 * j)%nat by lia.
      rewrite skipn_zipper by lia.
      destruct (N - 1 - j)%nat as [|m] eqn:Hm; [lia|]. cbn [Mesh.zipper app firstn].
      repeat constructor; cbn [In]; lia.
    + replace (3 * (2 * j + 1))%nat with (3 + 6 * j)%nat by lia.
      rewrite <- skipn_skipn, skipn_zipper by lia.
      destruct (N - 1 - j)%nat as [|m] eqn:Hm; [lia|]. cbn [Mesh.zipper app firstn skipn].
      repeat constructor; cbn [In]; lia.
Qed.

Lemma generate_mesh_triangles_cover_vertices_witness :
  exists mesh,
    Mesh.generate_mesh_from_borders sample_inner sample_outer = Done mesh /\
    (forall v, 0 <= v < size (vertices mesh) -> In v (indices mesh)) /\
    (forall t : nat, (t < 2 * (4 - 1))%nat ->
                     NoDup (firstn 3 (skipn (3 * t) (indices mesh)))).
Proof.
  apply (generate_mesh_triangles_cover_vertices sample_inner sample_outer 4
           eq_refl eq_refl).
  - reflexivity.
  - lia.
Defined.

(** ** What a simplification keeps and what it leaves out *)

Lemma two_points_shape {A : Type} (P : list A) :
  (2 <= length P)%nat -> exists a mid b, P = a :: mid ++ [b].
Proof.
  intros Hlen.
  destruct (exists_last (l := P)) as (P' & b & HP);
    [intros ->; simpl in Hlen; lia|].
  destruct P' as [|a mid]; [subst P; simpl in Hlen; lia|].
  exists a, mid, b. exact HP.
Qed.

(** With an [epsilon] that is not below zero, the call with the default
    arguments on at least two points returns the simplification of the
    vector. *)
Lemma rdp_all_simplification {T : Type} `{Arithmetic T} (Dim : nat)
    (P : list (list T)) (epsilon : T) :
  size P <= INT_MAX ->
  a_ltb epsilon a_zero = false ->
  (2 <= length P)%nat ->
  exists q, rdp_all Dim (S (length P)) P epsilon = Done q /\
            simplifies Dim epsilon P q.
Proof.
  intros Hsz Heps Hlen.
  destruct (two_points_shape P Hlen) as (a & mid & b & HP).
  destruct (simplifies_total Dim epsilon Heps (length mid) a b mid (le_n _))
    as (q & Hq).
  rewrite <- HP in Hq. exists q. split; [|exact Hq].
  apply (rdp_complete Dim epsilon P q Hq P (S (length P)) [] 0 1 (-1)
           (selects_all P ltac:(lia) Hsz) (eq_sym (range_points_all P))).
  lia.
Qed.

(** *** Only points of the input, in their order *)

Lemma subsequence_refl {A : Type} (l : list A) : subsequence l l.
Proof. induction l; constructor; assumption. Qed.

Lemma subsequence_nil_l {A : Type} (l : list A) : subsequence [] l.
Proof. induction l; constructor; assumption. Qed.

Lemma subsequence_app {A : Type} (q1 l1 q2 l2 : list A) :
  subsequence q1 l1 -> subsequence q2 l2 -> subsequence (q1 ++ q2) (l1 ++ l2).
Proof.
  intros H1 H2. induction H1; simpl; try (constructor; assumption). exact H2.
Qed.

Lemma simplifies_subsequence {T : Type} `{Arithmetic T} (Dim : nat) (epsilon : T)
    (l q : list (list T)) :
  simplifies Dim epsilon l q ->
  forall a mid b, l = a :: mid ++ [b] ->
  exists m, q = a :: m ++ [b] /\ subsequence m mid.
Proof.
  induction 1 as [a0 mid0 b0 Hkeep
                 |a0 before p after b0 d_max q1 q2 Hscan Hsplit H1 IH1 H2 IH2];
    intros a mid b Heq; apply cons_eq_inv in Heq; destruct Heq as [<- Htl];
    apply app_inj_tail in Htl; destruct Htl as [<- <-].
  - exists []. split; [reflexivity|apply subsequence_nil_l].
  - destruct (IH1 _ _ _ eq_refl) as (m1 & -> & Hm1).
    destruct (IH2 _ _ _ eq_refl) as (m2 & -> & Hm2).
    exists (m1 ++ p :: m2). split.
    + change (a0 :: m1 ++ [p]) with ((a0 :: m1) ++ [p]).
      rewrite removelast_last. simpl. now rewrite <- app_assoc.
    + apply subsequence_app; [exact Hm1|]. now constructor.
Qed.

(** X4: with an [epsilon] that is not below zero, [rdp] with the default
    arguments returns, and its output is the input with some points left
    out: every output point is an input point, and the points keep their
    order. *)
Theorem rdp_output_subsequence :
  forall (T : Type) (A : Arithmetic T) (Dim : nat) (P : list (list T)) (epsilon : T),
    size P <= INT_MAX ->
    a_ltb epsilon a_zero = false ->
    exists out,
      rdp_all Dim (S (length P)) P epsilon = Done out /\
      subsequence out P.
Proof.
  intros T A Dim P epsilon Hsz Heps.
  destruct (Nat.lt_ge_cases (length P) 2) as [Hshort|Hlong].
  - exists []. split; [now apply rdp_all_short|apply subsequence_nil_l].
  - destruct (rdp_all_simplification Dim P epsilon Hsz Heps Hlong) as (q & Hrun & Hq).
    exists q. split; [exact Hrun|].
    destruct (two_points_shape P Hlong) as (a & mid & b & HP).
    destruct (simplifies_subsequence Dim epsilon P q Hq a mid b HP) as (m & -> & Hm).
    rewrite HP. constructor. apply subsequence_app; [exact Hm|apply subsequence_refl].
Qed.

Lemma rdp_output_subsequence_witness :
  exists out,
    rdp_all 2 (S (length sample_polyline)) sample_polyline 0.5%float = Done out /\
    subsequence out sample_polyline.
Proof.
  apply (rdp_output_subsequence float double_Arithmetic 2 sample_polyline 0.5%float).
  - vm_compute. discriminate.
  - reflexivity.
Defined.

Section Tolerance.
Context {T : Type} `{ArithmeticLaws T}.
Variable Dim : nat.
Variable epsilon : T.

(** The maximum a scan ends on is zero or a distance above zero: never a NaN. *)
Lemma scan_points_defined (a b : list T) (mid : list (list T)) :
  a_defined (fst (scan_points Dim a b mid 1 a_zero 0)).
Proof.
  destruct (scan_points_result Dim a b mid 1 a_zero 0)
    as [Heq|(x & _ & Hfst & Hlt & _)].
  - rewrite Heq. apply a_zero_defined.
  - rewrite Hfst. eapply a_ltb_defined; eassumption.
Qed.

(** The scan does not end above [epsilon] exactly when no point of the range
    is farther than [epsilon]. *)
Lemma scan_points_within (a b : list T) (mid : list (list T)) :
  a_ltb epsilon (fst (scan_points Dim a b mid 1 a_zero 0)) = false ->
  forall x, In x mid -> a_ltb epsilon (perp_dist Dim a b x) = false.
Proof.
  intros Hkeep x Hx.
  destruct (a_ltb epsilon (perp_dist Dim a b x)) eqn:Hfar; [|reflexivity].
  destruct (a_ltb_negtrans _ _ _ Hfar (scan_points_defined a b mid)) as [Hc|Hc].
  - congruence.
  - rewrite (scan_points_upper Dim a b mid 1 a_zero 0 x Hx) in Hc. discriminate.
Qed.

Lemma within_tolerance_app (L Q : list (list T)) :
  within_tolerance Dim epsilon L Q ->
  forall (l1 q1 : list (list T)) (p : list T) (l2 q2 : list (list T)),
    L = l1 ++ [p] -> Q = q1 ++ [p] ->
    within_tolerance Dim epsilon (p :: l2) (p :: q2) ->
    within_tolerance Dim epsilon (l1 ++ p :: l2) (q1 ++ p :: q2).
Proof.
  induction 1 as [b|a mid b l q Hmid Hrest IH]; intros l1 q1 p l2 q2 HL HQ Htail.
  - change [b] with ([] ++ [b]) in HL, HQ.
    apply app_inj_tail in HL. apply app_inj_tail in HQ.
    destruct HL as [<- <-]. destruct HQ as [<- _]. exact Htail.
  - destruct (exists_last (l := b :: l)) as (l' & p' & Hl'); [discriminate|].
    destruct (exists_last (l := b :: q)) as (q' & p'' & Hq'); [discriminate|].
    rewrite Hl' in HL. rewrite Hq' in HQ.
    assert (HL' : (a :: mid ++ l') ++ [p'] = l1 ++ [p])
      by (rewrite <- HL; simpl; now rewrite <- app_assoc).
    assert (HQ' : (a :: q') ++ [p''] = q1 ++ [p]) by exact HQ.
    apply app_inj_tail in HL'. apply app_inj_tail in HQ'.
    destruct HL' as [<- ->]. destruct HQ' as [<- ->].
    specialize (IH l' q' p l2 q2 Hl' Hq' Htail).
    assert (Hhd_l : exists l'', l' ++ p :: l2 = b :: l'').
    { destruct l' as [|b' l'']; simpl in *.
      - injection Hl' as -> _. eauto.
      - injection Hl' as -> _. eauto. }
    assert (Hhd_q : exists q'', q' ++ p :: q2 = b :: q'').
    { destruct q' as [|b' q'']; simpl in *.
      - injection Hq' as -> _. eauto.
      - injection Hq' as -> _. eauto. }
    destruct Hhd_l as (l'' & Hl''). destruct Hhd_q as (q'' & Hq'').
    simpl. rewrite <- app_assoc, Hl'', Hq''.
    apply within_segment; [exact Hmid|].
    now rewrite <- Hl'', <- Hq''.
Qed.

Lemma simplifies_within_tolerance (l q : list (list T)) :
  simplifies Dim epsilon l q -> within_tolerance Dim epsilon l q.
Proof.
  induction 1 as [a mid b Hkeep
                 |a before p after b d_max q1 q2 Hscan Hsplit H1 IH1 H2 IH2].
  - apply within_segment; [|constructor].
    now apply scan_points_within.
  - destruct (simplifies_shape Dim epsilon _ _ H1 _ _ _ eq_refl) as (m1 & Hq1 & _).
    destruct (simplifies_shape Dim epsilon _ _ H2 _ _ _ eq_refl) as (m2 & Hq2 & _).
    rewrite Hq2 in IH2.
    assert (Hl : a :: (before ++ p :: after) ++ [b]
                 = (a :: before) ++ p :: after ++ [b])
      by (simpl; now rewrite <- app_assoc).
    assert (Hq : removelast q1 ++ q2 = (a :: m1) ++ p :: m2 ++ [b]).
    { rewrite Hq1, Hq2. change (a :: m1 ++ [p]) with ((a :: m1) ++ [p]).
      now rewrite removelast_last. }
    rewrite Hl, Hq.
    apply (within_tolerance_app (a :: before ++ [p]) q1 IH1); try assumption.
    reflexivity.
Qed.

(** A split leaves at least three points. *)
Lemma simplifies_two (a b : list T) (mid q : list (list T)) :
  simplifies Dim epsilon (a :: mid ++ [b]) q ->
  q = [a; b] ->
  forall x, In x mid -> a_ltb epsilon (perp_dist Dim a b x) = false.
Proof.
  intros Hq Htwo.
  inversion Hq as [a0 mid0 b0 Hkeep|a0 before p after b0 d_max q1 q2 Hscan Hsplit H1 H2];
    subst;
    match goal with
    | Hl : _ ++ [_] = _ ++ [_] |- _ =>
        apply app_inj_tail in Hl; destruct Hl as [? ?]; subst
    end.
  - now apply scan_points_within.
  - exfalso.
    destruct (simplifies_shape Dim epsilon _ _ H1 _ _ _ eq_refl) as (m1 & Hq1 & _).
    destruct (simplifies_shape Dim epsilon _ _ H2 _ _ _ eq_refl) as (m2 & Hq2 & _).
    match goal with Hx : removelast _ ++ _ = _ |- _ => rename Hx into Hrm end.
    rewrite Hq1, Hq2 in Hrm.
    rewrite app_comm_cons, removelast_last in Hrm.
    apply (f_equal (@length _)) in Hrm.
    cbn [length app] in Hrm.
    repeat (rewrite length_app in Hrm; cbn [length] in Hrm). lia.
Qed.

End Tolerance.

(** X5: with an [epsilon] that is not below zero, [rdp] on at least two
    points returns an output that keeps the first and the last point, and
    every input point it leaves out is, by the distance the loop computes,
    not farther than [epsilon] from the line through the two kept points
    around it. *)
Theorem rdp_dropped_points_within_epsilon :
  forall (T : Type) (A : Arithmetic T) (L : ArithmeticLaws T) (Dim : nat)
         (P : list (list T)) (epsilon : T),
    size P <= INT_MAX ->
    a_ltb epsilon a_zero = false ->
    (2 <= length P)%nat ->
    exists out,
      rdp_all Dim (S (length P)) P epsilon = Done out /\
      within_tolerance Dim epsilon P out.
Proof.
  intros T A L Dim P epsilon Hsz Heps Hlen.
  destruct (rdp_all_simplification Dim P epsilon Hsz Heps Hlen) as (q & Hrun & Hq).
  exists q. split; [exact Hrun|]. now apply simplifies_within_tolerance.
Qed.

Lemma rdp_dropped_points_within_epsilon_witness :
  exists out,
    rdp_all 2 (S (length sample_polyline)) sample_polyline 0.5%float = Done out /\
    within_tolerance 2 0.5%float sample_polyline out.
Proof.
  apply (rdp_dropped_points_within_epsilon float double_Arithmetic
           double_ArithmeticLaws 2 sample_polyline 0.5%float).
  - vm_compute. discriminate.
  - reflexivity.
  - simpl. lia.
Defined.

(** X6: with an [epsilon] that is not below zero, the output of [rdp] is the
    two end points exactly when, by the distance the loop computes in the
    arithmetic of [T] ([perp_dist]: for [double]s a rounded value, and a NaN
    is not above [epsilon]), no interior point is farther than [epsilon] from
    the line through the end points; a single point whose computed distance
    is above [epsilon] makes the output longer. *)
Theorem rdp_two_points_iff_within_epsilon :
  forall (T : Type) (A : Arithmetic T) (L : ArithmeticLaws T) (Dim : nat)
         (a b : list T) (mid : list (list T)) (epsilon : T),
    size (a :: mid ++ [b]) <= INT_MAX ->
    a_ltb epsilon a_zero = false ->
    exists out,
      rdp_all Dim (S (length (a :: mid ++ [b]))) (a :: mid ++ [b]) epsilon = Done out /\
      (out = [a; b] <->
       forall x, In x mid -> a_ltb epsilon (perp_dist Dim a b x) = false).
Proof.
  intros T A L Dim a b mid epsilon Hsz Heps.
  destruct (rdp_all_simplification Dim (a :: mid ++ [b]) epsilon Hsz Heps)
    as (q & Hrun & Hq).
  { simpl. rewrite length_app. simpl. lia. }
  exists q. split; [exact Hrun|]. split.
  - intros Htwo. now apply (simplifies_two Dim epsilon a b mid q).
  - intros Hwithin. now apply (simplifies_within Dim epsilon a b mid q).
Qed.

Lemma rdp_two_points_iff_within_epsilon_witness :
  exists out,
    rdp_all 2 6 sample_polyline 2%float = Done out /\
    (out = [[0; 0]; [4; 0]]%float <->
     forall x, In x [[1; 0.5]; [2; 2]; [3; 0.5]]%float ->
               a_ltb 2%float (perp_dist 2 [0; 0]%float [4; 0]%float x) = false).
Proof.
  apply (rdp_two_points_iff_within_epsilon float double_Arithmetic
           double_ArithmeticLaws 2 [0; 0]%float [4; 0]%float
           [[1; 0.5]; [2; 2]; [3; 0.5]]%float 2%float).
  - vm_compute. discriminate.
  - reflexivity.
Defined.

(** *** A stride *)

(** X7: [rdp] called with a start index, a stride and an end index returns
    what the call with the default arguments returns on the vector of the
    selected points. *)
Theorem rdp_stride_selects_subpolyline :
  forall (T : Type) (A : Arithmetic T) (Dim : nat)
         (points : list (list T)) (epsilon : T) (out : list (list T))
         (start_idx step _end_idx : Z) (n : nat),
    a_ltb epsilon a_zero = false ->
    selects points start_idx step _end_idx n ->
    (2 <= n)%nat ->
    exists res,
      rdp Dim (S n) points epsilon out start_idx step _end_idx = Done res /\
      rdp_all Dim (S n) (range_points points start_idx step n) epsilon = Done res.
Proof.
  intros T A Dim points epsilon out start step _end n Heps Hsel Hn.
  set (l := range_points points start step n).
  assert (Hlen : length l = n) by apply range_points_length.
  assert (Hsz : size l <= INT_MAX).
  { destruct Hsel as (Hs & He & Hsz & Hst & Hcount).
    unfold size in *. rewrite Hlen.
    assert (Hdiv : (end_idx_of points _end - start - 1) / step
                   <= end_idx_of points _end - start - 1).
    { apply Z.div_le_upper_bound; [lia|]. nia. }
    lia. }
  destruct (rdp_all_simplification Dim l epsilon Hsz Heps ltac:(lia))
    as (q & Hrun & Hq).
  exists q. rewrite Hlen in Hrun. split; [|exact Hrun].
  apply (rdp_complete Dim epsilon l q Hq); rewrite ?Hlen; auto.
Qed.

Lemma sample_polyline_stride : selects sample_polyline 0 2 (-1) 3.
Proof.
  unfold selects, end_idx_of. change (0 <? -1) with false. cbv iota.
  repeat split; vm_compute; congruence.
Qed.

Lemma rdp_stride_selects_subpolyline_witness :
  exists res,
    rdp 2 4 sample_polyline 0.5%float [] 0 2 (-1) = Done res /\
    rdp_all 2 4 [[0; 0]; [2; 2]; [4; 0]]%float 0.5%float = Done res.
Proof.
  apply (rdp_stride_selects_subpolyline float double_Arithmetic 2 sample_polyline
           0.5%float [] 0 2 (-1) 3 eq_refl sample_polyline_stride).
  lia.
Defined.

(** *** A tolerance that is a NaN *)

Lemma double_nan_ltb (epsilon x : float) :
  PrimFloat.is_nan epsilon = true -> (epsilon <? x)%float = false.
Proof.
  unfold PrimFloat.is_nan. rewrite eqb_spec, ltb_spec.
  unfold SFeqb, SFltb, SFcompare. destruct (Prim2SF epsilon); sf_cases;
    try reflexivity; try discriminate.
  all: try (destruct s); simpl;
    rewrite ?Z.compare_refl, ?Pos.compare_cont_refl; simpl; try discriminate.
Qed.

(** X8: a tolerance that is a NaN compares above nothing, so [rdp] on
    [double]s returns the two end points, whatever lies between them. *)
Theorem rdp_nan_epsilon_keeps_end_points :
  forall (Dim : nat) (a b : list float) (mid : list (list float)) (epsilon : float),
    size (a :: mid ++ [b]) <= INT_MAX ->
    PrimFloat.is_nan epsilon = true ->
    rdp_all Dim (S (length (a :: mid ++ [b]))) (a :: mid ++ [b]) epsilon
    = Done [a; b].
Proof.
  intros Dim a b mid epsilon Hsz Hnan.
  assert (Hq : simplifies Dim epsilon (a :: mid ++ [b]) [a; b]).
  { apply simplifies_keep. cbn [a_ltb double_Arithmetic].
    now apply double_nan_ltb. }
  apply (rdp_complete Dim epsilon _ _ Hq (a :: mid ++ [b]) _ [] 0 1 (-1)).
  - apply selects_all; [simpl; lia|exact Hsz].
  - symmetry. apply range_points_all.
  - lia.
Qed.

Lemma rdp_nan_epsilon_keeps_end_points_witness :
  rdp_all 2 6 sample_polyline nan = Done [[0; 0]; [4; 0]]%float.
Proof.
  apply (rdp_nan_epsilon_keeps_end_points 2 [0; 0]%float [4; 0]%float
           [[1; 0.5]; [2; 2]; [3; 0.5]]%float nan).
  - vm_compute. discriminate.
  - reflexivity.
Defined.

(** *** Ranges without two points, and a start index past the end *)

(** X9: on a vector of no point or of one point [rdp] returns through the
    early [return] and leaves [out] as the caller passed it: a single point
    is not copied to the output. *)
Theorem rdp_short_input_leaves_out :
  forall (T : Type) (A : Arithmetic T) (Dim : nat) (fuel : nat)
         (points out : list (list T)) (epsilon : T),
    (length points < 2)%nat ->
    rdp Dim (S fuel) points epsilon out 0 1 (-1) = Done out.
Proof.
  intros T A Dim fuel points out epsilon Hlen.
  destruct points as [|p [|p' points]]; [| |simpl in Hlen; lia]; reflexivity.
Qed.

Lemma rdp_short_input_leaves_out_witness :
  rdp 2 1 [[1; 1]]%float 0.5%float [] 0 1 (-1) = Done [].
Proof.
  apply (rdp_short_input_leaves_out float double_Arithmetic 2 0 [[1; 1]]%float []
           0.5%float).
  simpl. lia.
Defined.

Lemma wrap_negative (z : Z) : - SIZE_MOD <= z < 0 -> wrap z = z + SIZE_MOD.
Proof.
  intros Hz. unfold wrap.
  replace z with (z + SIZE_MOD + (-1) * SIZE_MOD) at 1 by ring.
  rewrite Z.mod_add by (rewrite SIZE_MOD_eq; lia).
  apply Z.mod_small. lia.
Qed.

Lemma wrap_overflow (z : Z) : SIZE_MOD <= z < 2 * SIZE_MOD -> wrap z = z - SIZE_MOD.
Proof.
  intros Hz. unfold wrap.
  replace z with (z - SIZE_MOD + 1 * SIZE_MOD) at 1 by ring.
  rewrite Z.mod_add by (rewrite SIZE_MOD_eq; lia).
  apply Z.mod_small. lia.
Qed.

(** With a start index at or past the end the subtraction wraps around and
    the last index comes out as the last position of the vector. *)
Lemma last_idx_past_end (sz start : Z) :
  1 <= sz <= start -> start < SIZE_MOD ->
  last_idx_of sz start 1 = sz - 1.
Proof.
  intros Hsz Hstart. unfold last_idx_of.
  rewrite (wrap_negative (sz - start - 1)) by lia.
  rewrite Z.div_1_r, Z.mul_1_r.
  rewrite (wrap_small (sz - start - 1 + SIZE_MOD)) by lia.
  rewrite wrap_overflow by lia. lia.
Qed.

(** X10: a start index equal to the size of the vector makes [rdp] return
    with [out] untouched; a start index beyond it makes the subtraction wrap
    around, the range test pass, and [points.at(start_idx)] throw
    [std::out_of_range]. *)
Theorem rdp_start_past_end :
  forall (T : Type) (A : Arithmetic T) (Dim : nat) (fuel : nat)
         (points out : list (list T)) (epsilon : T) (start_idx : Z),
    1 <= size points ->
    a_ltb epsilon a_zero = false ->
    (start_idx = size points -> start_idx < SIZE_MOD ->
     rdp Dim (S (S fuel)) points epsilon out start_idx 1 (-1) = Done out) /\
    (size points < start_idx -> start_idx + 1 < SIZE_MOD ->
     rdp Dim (S (S fuel)) points epsilon out start_idx 1 (-1) = Throw out_of_range).
Proof.
  intros T A Dim fuel points out epsilon start Hsize Heps.
  pose proof SIZE_MOD_eq as Hmod.
  assert (Hend : end_idx_of points (-1) = size points) by reflexivity.
  split.
  - intros Hstart Hfit. cbn [rdp]. rewrite Hend. change (1 =? 0) with false. cbv iota.
    rewrite last_idx_past_end by lia.
    replace (size points - 1 + 1 - start) with 0 by lia. reflexivity.
  - intros Hstart Hfit. cbn [rdp]. rewrite Hend. change (1 =? 0) with false. cbv iota.
    rewrite last_idx_past_end by lia.
    rewrite (wrap_negative (size points - 1 + 1 - start)) by lia.
    destruct (Z.ltb_spec (size points - 1 + 1 - start + SIZE_MOD) 2); [lia|].
    rewrite (wrap_small (start + 1)) by lia.
    cbn [scan]. destruct (Z.ltb_spec (start + 1) (size points - 1)); [lia|].
    cbn [bind fst snd]. rewrite Heps.
    unfold at_. destruct (Z.ltb_spec start 0); [reflexivity|].
    replace (nth_error points (Z.to_nat start)) with (@None (list T));
      [reflexivity|].
    symmetry. apply nth_error_None. unfold size in *. lia.
Qed.

Lemma rdp_start_past_end_witness :
  rdp 2 2 sample_polyline 0.5%float [] 5 1 (-1) = Done [] /\
  rdp 2 2 sample_polyline 0.5%float [] 6 1 (-1) = Throw out_of_range.
Proof.
  destruct (rdp_start_past_end float double_Arithmetic 2 0 sample_polyline []
              0.5%float 5) as [Hat _]; [vm_compute; discriminate|reflexivity|].
  destruct (rdp_start_past_end float double_Arithmetic 2 0 sample_polyline []
              0.5%float 6) as [_ Hpast]; [vm_compute; discriminate|reflexivity|].
  split; [apply Hat|apply Hpast]; try reflexivity.
Defined.

(** ** The distance of a point from a line in the plane *)

Section PlaneDistance.
Local Open Scope R_scope.

Lemma plane_distance_identity (ux uy px py : R) :
  ux * ux + uy * uy = 1 ->
  0 + (px - (0 + ux * px + uy * py) * ux) * (px - (0 + ux * px + uy * py) * ux)
    + (py - (0 + ux * px + uy * py) * uy) * (py - (0 + ux * px + uy * py) * uy)
  = (ux * py - uy * px) * (ux * py - uy * px).
Proof.
  intros Hu.
  replace (0 + (px - (0 + ux * px + uy * py) * ux) * (px - (0 + ux * px + uy * py) * ux)
           + (py - (0 + ux * px + uy * py) * uy) * (py - (0 + ux * px + uy * py) * uy))
    with ((ux * py - uy * px) * (ux * py - uy * px)
          + (1 - (ux * ux + uy * uy))
            * (px * px + py * py - (ux * px + uy * py) * (ux * px + uy * py)))
    by ring.
  rewrite Hu. ring.
Qed.

(** X11: in exact arithmetic in the plane, the distance the scanning loop
    computes is the perpendicular distance of the point from the line
    through the two end points, [|d x (p - a)| / |d|] with [d = b - a]; when
    the end points coincide it is the distance of the point from them. *)
Theorem perp_dist_plane_exact :
  forall xa ya xb yb xp yp : R,
    let dx := xb - xa in
    let dy := yb - ya in
    (0 < dx * dx + dy * dy ->
     perp_dist 2 [xa; ya] [xb; yb] [xp; yp]
     = Rabs (dx * (yp - ya) - dy * (xp - xa)) / sqrt (dx * dx + dy * dy)) /\
    (dx = 0 -> dy = 0 ->
     perp_dist 2 [xa; ya] [xb; yb] [xp; yp]
     = sqrt ((xp - xa) * (xp - xa) + (yp - ya) * (yp - ya))).
Proof.
  intros xa ya xb yb xp yp dx dy.
  unfold perp_dist, difference, normalise, distance_from, norm, dims, coord.
  cbn [seq map fold_left nth fst snd a_zero a_add a_sub a_mul a_div a_sqrt a_sqr
       a_ltb real_Arithmetic].
  fold dx dy.
  split.
  - intros Hpos.
    assert (Hm : 0 < sqrt (0 + dx * dx + dy * dy)) by (apply sqrt_lt_R0; lra).
    rewrite (Rltb_true _ _ Hm).
    cbn [seq map fold_left nth fst snd].
    replace (0 + dx * dx + dy * dy) with (dx * dx + dy * dy) in * by ring.
    set (m := sqrt (dx * dx + dy * dy)) in *.
    assert (Hmm : m * m = dx * dx + dy * dy) by (apply sqrt_sqrt; lra).
    rewrite plane_distance_identity.
    + match goal with
      | |- sqrt (?c * ?c) = _ => change (c * c) with (Rsqr c)
      end.
      rewrite sqrt_Rsqr_abs.
      replace (dx / m * (yp - ya) - dy / m * (xp - xa))
        with ((dx * (yp - ya) - dy * (xp - xa)) / m) by (field; lra).
      unfold Rdiv. rewrite Rabs_mult, (Rabs_right (/ m)); [reflexivity|].
      apply Rle_ge. left. now apply Rinv_0_lt_compat.
    + unfold Rdiv.
      replace (dx * / m * (dx * / m) + dy * / m * (dy * / m))
        with ((dx * dx + dy * dy) * (/ m * / m)) by ring.
      rewrite <- Hmm. field. lra.
  - intros Hdx Hdy. rewrite Hdx, Hdy.
    replace (0 + 0 * 0 + 0 * 0) with 0 by ring. rewrite sqrt_0.
    rewrite Rltb_false by lra.
    cbn [seq map fold_left nth fst snd]. f_equal. ring.
Qed.

Lemma perp_dist_plane_exact_witness :
  perp_dist 2 [0; 0] [4; 0] [2; 2] = 2.
Proof.
  destruct (perp_dist_plane_exact 0 0 4 0 2 2) as [Hline _].
  rewrite Hline by lra.
  replace ((4 - 0) * (2 - 0) - (0 - 0) * (2 - 0)) with 8 by ring.
  replace ((4 - 0) * (4 - 0) + (0 - 0) * (0 - 0)) with (4 * 4) by ring.
  rewrite sqrt_square by lra. rewrite Rabs_right by lra. lra.
Defined.

End PlaneDistance.

(** ** The search on an arbitrary objective *)

Section AnyObjective.
Local Open Scope R_scope.
Variable f : R -> R.
Variables a0 b0 : R.
Hypothesis Hab : a0 < b0.

(** What the search maintains for an arbitrary [f]: the bracket stays inside
    [[a0, b0]], the probes are its golden-section points, and [f] has been
    called at points strictly inside [[a0, b0]] only. *)
Let inside (k : nat) (st : search_state (T := R)) : Prop :=
  gs_h st = invphi ^ k * (b0 - a0) /\
  gs_b st = gs_a st + gs_h st /\
  gs_c st = gs_a st + invphi2 * gs_h st /\
  gs_d st = gs_a st + invphi * gs_h st /\
  a0 <= gs_a st /\
  gs_b st <= b0 /\
  Forall (fun x => a0 < x < b0) (gs_calls st) /\
  length (gs_calls st) = (2 + k)%nat.

Lemma search_step_inside (k : nat) (st : search_state) :
  inside k st -> inside (S k) (search_step f st).
Proof.
  intros (Hh & Hb & Hc & Hd & Ha0 & Hb0 & Hcalls & Hlen).
  pose proof invphi_bounds as Hphi.
  pose proof invphi_square as Hsq.
  pose proof invphi2_eq as Hphi2.
  assert (Hpow : 0 < invphi ^ k) by (apply pow_lt; lra).
  assert (Hhpos : 0 < gs_h st) by (rewrite Hh; apply Rmult_lt_0_compat; lra).
  unfold search_step. cbn [a_ltb a_add a_mul real_Arithmetic].
  assert (Hih : 0 < invphi * gs_h st) by (apply Rmult_lt_0_compat; lra).
  assert (Hih1 : invphi * gs_h st < gs_h st) by nra.
  assert (Hii : 0 < invphi * (invphi * gs_h st)) by (apply Rmult_lt_0_compat; lra).
  assert (Hii1 : invphi * (invphi * gs_h st) < invphi * gs_h st) by nra.
  assert (Hi2 : invphi2 * (invphi * gs_h st)
                = invphi * gs_h st - invphi * (invphi * gs_h st))
    by (rewrite Hphi2; ring).
  assert (Hi2' : invphi2 * gs_h st = gs_h st - invphi * gs_h st)
    by (rewrite Hphi2; ring).
  destruct (Rltb (gs_yc st) (gs_yd st));
    unfold inside; cbn [gs_a gs_b gs_c gs_d gs_yc gs_yd gs_h gs_calls];
    repeat split;
    try (rewrite Hh, <- tech_pow_Rmult; ring);
    try (rewrite length_app; simpl; lia);
    try (apply Forall_app; split; [exact Hcalls|repeat constructor; lra]);
    try lra.
  all: nra.
Qed.

Lemma search_loop_inside (n k : nat) (st : search_state) :
  inside k st -> inside (k + n) (search_loop f n st).
Proof.
  revert k st. induction n as [|n IH]; intros k st Hinv; simpl.
  - now rewrite Nat.add_0_r.
  - replace (k + S n)%nat with (S k + n)%nat by lia.
    apply IH, search_step_inside, Hinv.
Qed.

Lemma golden_section_search_inside (tol : R) :
  0 < tol -> tol < b0 - a0 ->
  (Zceil (ln (tol / (b0 - a0)) / ln invphi) <= INT_MAX)%Z ->
  exists (x : R) (calls : list R),
    golden_section_search f a0 b0 tol = Done (x, calls) /\
    a0 < x < b0 /\
    Forall (fun y => a0 < y < b0) calls /\
    length calls = Z.to_nat (Zceil (ln (tol / (b0 - a0)) / ln invphi) + 1).
Proof.
  intros Htol Hh Hint.
  destruct (iteration_count tol (b0 - a0) Htol Hh) as [Hn Hwidth].
  set (n := Zceil (ln (tol / (b0 - a0)) / ln invphi)) in *.
  pose proof invphi_bounds as Hphi.
  pose proof invphi_square as Hsq.
  pose proof invphi2_eq as Hphi2.
  unfold golden_section_search.
  cbn [a_leb a_sub a_add a_mul a_div a_log a_ceil a_to_int a_half a_ltb
       real_Arithmetic real_Cmath].
  rewrite Rleb_false by lra.
  rewrite (real_log_pos (tol / (b0 - a0))) by (apply Rdiv_lt_0_compat; lra).
  rewrite (real_log_pos invphi) by lra.
  fold n.
  rewrite real_to_int_IZR by (rewrite INT_MAX_eq in *; lia).
  destruct (Z.eqb_spec n (- 2 ^ 31)); [lia|]. cbv zeta.
  set (st0 := (mk_search a0 b0 (a0 + invphi2 * (b0 - a0)) (a0 + invphi * (b0 - a0))
                         (f (a0 + invphi2 * (b0 - a0))) (f (a0 + invphi * (b0 - a0)))
                         (b0 - a0) [a0 + invphi2 * (b0 - a0); a0 + invphi * (b0 - a0)])).
  assert (Hinv0 : inside 0 st0).
  { unfold inside, st0.
    cbn [gs_a gs_b gs_c gs_d gs_yc gs_yd gs_h gs_calls length pow].
    repeat split; try reflexivity; try lra.
    repeat constructor; nra. }
  pose proof (search_loop_inside (Z.to_nat (n - 1)) 0 st0 Hinv0) as Hinv.
  set (st := search_loop f (Z.to_nat (n - 1)) st0) in *.
  destruct Hinv as (Hhk & Hb & Hc & Hd & Ha0 & Hb0 & Hcalls & Hlen).
  cbn [Nat.add] in *.
  assert (Hpow : 0 < invphi ^ Z.to_nat (n - 1)) by (apply pow_lt; lra).
  assert (Hhpos : 0 < gs_h st) by (rewrite Hhk; apply Rmult_lt_0_compat; lra).
  assert (Hcount : length (gs_calls st) = Z.to_nat (n + 1)) by lia.
  assert (Hih : 0 < invphi * gs_h st) by (apply Rmult_lt_0_compat; lra).
  assert (Hih1 : invphi * gs_h st < gs_h st) by nra.
  assert (Hi2 : invphi2 * gs_h st = gs_h st - invphi * gs_h st)
    by (rewrite Hphi2; ring).
  destruct (Rltb (gs_yc st) (gs_yd st)).
  - exists (/ 2 * (gs_a st + gs_d st)), (gs_calls st).
    repeat split; try assumption; lra.
  - exists (/ 2 * (gs_c st + gs_b st)), (gs_calls st).
    repeat split; try assumption; lra.
Qed.

End AnyObjective.

(** X16: in exact arithmetic, for any objective [f], unimodal or not, the
    search on [[a, b]] with [0 < tol < b - a] returns a point strictly
    inside the interval, and calls [f] only at points strictly inside the
    interval, [n + 1] times for the iteration count [n]. *)
Theorem golden_section_search_evaluates_inside :
  forall (f : R -> R) (a b tol : R),
    (0 < tol)%R -> (tol < b - a)%R ->
    (Zceil (ln (tol / (b - a)) / ln invphi) <= INT_MAX)%Z ->
    exists (x : R) (calls : list R),
      golden_section_search f a b tol = Done (x, calls) /\
      (a < x < b)%R /\
      Forall (fun y => (a < y < b)%R) calls /\
      length calls = Z.to_nat (Zceil (ln (tol / (b - a)) / ln invphi) + 1).
Proof.
  intros f a b tol Htol Hh Hint.
  apply golden_section_search_inside; [lra|assumption..].
Qed.

Lemma golden_section_search_evaluates_inside_witness :
  exists (x : R) (calls : list R),
    golden_section_search sin 0%R 10%R (/ 1000000)%R = Done (x, calls) /\
    (0 < x < 10)%R /\
    Forall (fun y => (0 < y < 10)%R) calls /\
    length calls = Z.to_nat (Zceil (ln (/ 1000000 / (10 - 0)) / ln invphi) + 1).
Proof.
  apply (golden_section_search_evaluates_inside sin 0 10 (/ 1000000)).
  - lra.
  - lra.
  - exact sample_iteration_count.
Defined.

(** ** The box of the samples *)

(** The box of a non-empty list of samples without NaN coordinates: its
    corner coordinates are attained at samples and bound every sample. *)
Lemma get_bbox_extrema {S : Type} (get_xyz : S -> Vec2D) (s_values : list S) :
  s_values <> [] ->
  (forall s, In s s_values ->
             PrimFloat.is_nan (fst (get_xyz s)) = false /\
             PrimFloat.is_nan (snd (get_xyz s)) = false) ->
  exists (box : Box2D) (sx_min sx_max sy_min sy_max : S),
    get_bbox_for_s_values s_values get_xyz = Done box /\
    (In sx_min s_values /\ In sx_max s_values /\
     In sy_min s_values /\ In sy_max s_values) /\
    box_min box = (fst (get_xyz sx_min), snd (get_xyz sy_min)) /\
    box_max box = (fst (get_xyz sx_max), snd (get_xyz sy_max)) /\
    (forall s, In s s_values ->
               (fst (box_min box) <=? fst (get_xyz s))%float = true /\
               (fst (get_xyz s) <=? fst (box_max box))%float = true /\
               (snd (box_min box) <=? snd (get_xyz s))%float = true /\
               (snd (get_xyz s) <=? snd (box_max box))%float = true).
Proof.
  intros Hne Hnan.
  set (points := map get_xyz s_values).
  assert (Hpne : points <> [])
    by (unfold points; destruct s_values; [contradiction|discriminate]).
  assert (Hsample : forall p, In p points ->
                              exists s, In s s_values /\ p = get_xyz s).
  { intros p Hp. apply in_map_iff in Hp. destruct Hp as (s & <- & Hs). eauto. }
  assert (Hdefx : forall p, In p points -> a_defined (fst p)).
  { intros p Hp. destruct (Hsample p Hp) as (s & Hs & ->).
    apply double_defined, Hnan, Hs. }
  assert (Hdefy : forall p, In p points -> a_defined (snd p)).
  { intros p Hp. destruct (Hsample p Hp) as (s & Hs & ->).
    apply double_defined, Hnan, Hs. }
  destruct (minmax_element_spec (T := float) (fst : Vec2D -> float) points Hpne Hdefx)
    as (xmin & xmax & Hxlo & Hxhi & Hxmin & Hxmax).
  destruct (minmax_element_spec (T := float) (snd : Vec2D -> float) points Hpne Hdefy)
    as (ymin & ymax & Hylo & Hyhi & Hymin & Hymax).
  cbn [a_ltb a_leb double_Arithmetic] in *.
  destruct (Hsample xmin (nth_error_In _ _ Hxlo)) as (sx_min & Hsx_min & Exmin).
  destruct (Hsample xmax (nth_error_In _ _ Hxhi)) as (sx_max & Hsx_max & Exmax).
  destruct (Hsample ymin (nth_error_In _ _ Hylo)) as (sy_min & Hsy_min & Eymin).
  destruct (Hsample ymax (nth_error_In _ _ Hyhi)) as (sy_max & Hsy_max & Eymax).
  exists (Box2D_of (fst xmin, snd ymin) (fst xmax, snd ymax)),
         sx_min, sx_max, sy_min, sy_max.
  split; [|split; [auto|]].
  - unfold get_bbox_for_s_values, StdAlgorithm.deref. cbv zeta. fold points.
    rewrite Hxlo, Hylo, Hxhi, Hyhi. reflexivity.
  - cbn [Box2D_of box_min box_max fst snd]. subst xmin xmax ymin ymax.
    split; [reflexivity|split; [reflexivity|]].
    intros s Hs.
    assert (Hp : In (get_xyz s) points) by (now apply in_map).
    repeat split; auto.
Qed.


Lemma sample_curve_defined :
  forall s, In s sample_s_values ->
            PrimFloat.is_nan (fst (sample_curve s)) = false /\
            PrimFloat.is_nan (snd (sample_curve s)) = false.
Proof.
  intros s Hs. simpl in Hs.
  repeat (destruct Hs as [<-|Hs]; [split; vm_compute; reflexivity|]).
  contradiction.
Qed.


(** X15: adding samples can only enlarge the box: when every sample of
    [s_values] is among [more_values], the box of [s_values] lies inside the
    box of [more_values]. *)
Theorem get_bbox_grows_with_samples :
  forall (S : Type) (get_xyz : S -> Vec2D) (s_values more_values : list S),
    s_values <> [] ->
    incl s_values more_values ->
    (forall s, In s more_values ->
               PrimFloat.is_nan (fst (get_xyz s)) = false /\
               PrimFloat.is_nan (snd (get_xyz s)) = false) ->
    exists box box',
      get_bbox_for_s_values s_values get_xyz = Done box /\
      get_bbox_for_s_values more_values get_xyz = Done box' /\
      (fst (box_min box') <=? fst (box_min box))%float = true /\
      (snd (box_min box') <=? snd (box_min box))%float = true /\
      (fst (box_max box) <=? fst (box_max box'))%float = true /\
      (snd (box_max box) <=? snd (box_max box'))%float = true.
Proof.
  intros S get_xyz s_values more_values Hne Hincl Hnan.
  assert (Hne' : more_values <> []).
  { destruct s_values as [|s s_values]; [contradiction|].
    intros ->. exact (Hincl s (or_introl eq_refl)). }
  destruct (get_bbox_extrema get_xyz s_values Hne (fun s Hs => Hnan s (Hincl s Hs)))
    as (box & sx_min & sx_max & sy_min & sy_max & Hbox
        & (Hxmin & Hxmax & Hymin & Hymax) & Emin & Emax & _).
  destruct (get_bbox_extrema get_xyz more_values Hne' Hnan)
    as (box' & _ & _ & _ & _ & Hbox' & _ & _ & _ & Hbound).
  exists box, box'. split; [exact Hbox|split; [exact Hbox'|]].
  rewrite Emin, Emax. cbn [fst snd].
  repeat split.
  - apply (Hbound sx_min), Hincl, Hxmin.
  - apply (Hbound sy_min), Hincl, Hymin.
  - apply (Hbound sx_max), Hincl, Hxmax.
  - apply (Hbound sy_max), Hincl, Hymax.
Qed.

Lemma get_bbox_grows_with_samples_witness :
  exists box box',
    get_bbox_for_s_values [1; 2]%float sample_curve = Done box /\
    get_bbox_for_s_values sample_s_values sample_curve = Done box' /\
    (fst (box_min box') <=? fst (box_min box))%float = true /\
    (snd (box_min box') <=? snd (box_min box))%float = true /\
    (fst (box_max box) <=? fst (box_max box'))%float = true /\
    (snd (box_max box) <=? snd (box_max box'))%float = true.
Proof.
  apply (get_bbox_grows_with_samples float sample_curve [1; 2]%float sample_s_values).
  - discriminate.
  - intros s [<-|[<-|[]]]; simpl; auto.
  - exact sample_curve_defined.
Defined.
